(** * Variational EM core of the Bernoulli stochastic block model

    A shallow embedding of [src/SBM_bernoulli.cpp] (package missSBM) and the
    properties of its likelihood evaluators, expectation steps and
    maximisation steps.

    The source is written against Armadillo.  The first part of this file
    models the Armadillo containers and operators the source uses
    ([arma::mat], [arma::vec], [arma::cube], [arma::sp_mat], their products
    and element-wise operators, together with the conformance checks that
    throw [std::logic_error]).  The second part transcribes the exported
    functions of the source, one definition per function.  Then come the
    quantities the properties are stated with, written as the specification
    writes them, the facts about the containers and the loops, and the
    properties of the functions.

    The element type [double] is modelled at two levels, through the class
    [Scalar]:
    - as a real number ([R]), where a property is an algebraic identity of
      the values computed (rounding is not modelled);
    - as an IEEE-754 binary64 value ([spec_float], precision 53, maximal
      exponent 1024), where a property is about the exceptional values NaN
      and infinity.  The class has the operations [+], [*] and [/], which
      is all the closed-form maximisation step uses; the expectation step
      with covariates is transcribed at this level too, with [exp] and
      [log] of the C library as a parameter.

    A product accumulates its terms from left to right, starting from
    zero.  The library is free to add them in another order, which changes
    no sum of reals; the binary64 results stated below are sums of small
    integers or of infinities and do not depend on the order either. *)

From Stdlib Require Import Reals Lra Lia List Arith ZArith Bool PeanoNat.
From Stdlib Require Import Floats.SpecFloat.
Import ListNotations.

Set Implicit Arguments.

(* ================================================================== *)
(** * Scalars *)

Class Scalar (T : Type) : Type := {
  szero : T;
  sadd : T -> T -> T;
  smul : T -> T -> T;
  sdiv : T -> T -> T
}.

#[export] Instance real_scalar : Scalar R := {|
  szero := 0%R;
  sadd := Rplus;
  smul := Rmult;
  sdiv := Rdiv
|}.

Definition binary64 : Type := spec_float.

#[export] Instance binary64_scalar : Scalar binary64 := {|
  szero := S754_zero false;
  sadd := SFadd 53 1024;
  smul := SFmul 53 1024;
  sdiv := SFdiv 53 1024
|}.

(* ================================================================== *)
(** * The Armadillo fragment used by the source *)

Module arma.

(** Armadillo reports a failed conformance or bounds check by throwing
    [std::logic_error]; the constructors name the check that failed.
    [invalid_memory_read] marks a read through a raw pointer beyond the
    end of the buffer it points into, which no check guards. *)
Inductive exception : Type :=
| incompatible_dimensions
| index_out_of_bounds
| no_elements
| invalid_memory_read.

Inductive result (A : Type) : Type :=
| Ok (a : A)
| Raise (e : exception).

Arguments Ok {A} a.
Arguments Raise {A} e.

Definition bind {A B : Type} (c : result A) (k : A -> result B) : result B :=
  match c with
  | Ok a => k a
  | Raise e => Raise e
  end.

Notation "x <- c ;; k" := (bind c (fun x => k))
  (at level 61, c at next level, right associativity).

Definition check (b : bool) (e : exception) : result unit :=
  if b then Ok tt else Raise e.

Fixpoint foldM {A B : Type} (f : B -> A -> result B) (l : list A) (b : B)
  : result B :=
  match l with
  | [] => Ok b
  | x :: l' => b' <- f b x ;; foldM f l' b'
  end.

Fixpoint mapM {A B : Type} (f : A -> result B) (l : list A) : result (list B) :=
  match l with
  | [] => Ok []
  | x :: l' => y <- f x ;; ys <- mapM f l' ;; Ok (y :: ys)
  end.

(** Dense matrix: dimensions and the elements in column-major order. *)
Record mat (T : Type) : Type := Mat {
  n_rows : nat;
  n_cols : nat;
  mem : list T
}.

(** Stored element of a sparse matrix. *)
Record nonzero (T : Type) : Type := Nz {
  row : nat;
  col : nat;
  val : T
}.

(** Sparse matrix: dimensions and the stored elements in the order the
    iterator visits them (column by column, rows increasing). *)
Record sp_mat (T : Type) : Type := SpMat {
  sp_n_rows : nat;
  sp_n_cols : nat;
  sp_entries : list (nonzero T)
}.

(** Cube: element [(i,j,k)] at [i + j*n_rows + k*n_rows*n_cols]. *)
Record cube (T : Type) : Type := Cube {
  c_n_rows : nat;
  c_n_cols : nat;
  n_slices : nat;
  c_mem : list T
}.

(** [arma::vec] and [arma::rowvec] are their element lists. *)
Definition vec (T : Type) : Type := list T.

Section Operators.

Context {T : Type} {ST : Scalar T}.

Definition colvec (v : vec T) : mat T := Mat (length v) 1 v.
Definition rowvec (v : vec T) : mat T := Mat 1 (length v) v.

(** A running sum [s = 0; for k < n: s += f k]. *)
Definition accumulate (f : nat -> T) (n : nat) : T :=
  fold_left (fun acc k => sadd acc (f k)) (seq 0 n) szero.

Definition vsum (v : vec T) : T := fold_left sadd v szero.

Definition accu (A : mat T) : T := vsum (mem A).

Definition elem (A : mat T) (i j : nat) : T :=
  nth (i + j * n_rows A) (mem A) szero.

(** [A(i,j)] with its bounds check. *)
Definition at_ (A : mat T) (i j : nat) : result T :=
  _ <- check ((i <? n_rows A) && (j <? n_cols A)) index_out_of_bounds ;;
  Ok (elem A i j).

(** A fresh [r] x [c] matrix filled element by element. *)
Definition mat_init (r c : nat) (f : nat -> nat -> T) : mat T :=
  Mat r c (map (fun k => f (k mod r) (k / r)) (seq 0 (r * c))).

Definition zeros (r c : nat) : mat T := mat_init r c (fun _ _ => szero).

Definition mat_map (f : T -> T) (A : mat T) : mat T :=
  mat_init (n_rows A) (n_cols A) (fun i j => f (elem A i j)).

Definition same_size (A B : mat T) : bool :=
  (n_rows A =? n_rows B) && (n_cols A =? n_cols B).

Definition mat_zip (f : T -> T -> T) (A B : mat T) : result (mat T) :=
  _ <- check (same_size A B) incompatible_dimensions ;;
  Ok (mat_init (n_rows A) (n_cols A) (fun i j => f (elem A i j) (elem B i j))).

(** [A + B], [A % B], [A / B]. *)
Definition eplus (A B : mat T) : result (mat T) := mat_zip sadd A B.
Definition schur (A B : mat T) : result (mat T) := mat_zip smul A B.
Definition ediv (A B : mat T) : result (mat T) := mat_zip sdiv A B.

(** [A.t()]. *)
Definition trans (A : mat T) : mat T :=
  mat_init (n_cols A) (n_rows A) (fun i j => elem A j i).

(** [A * B], both dense. *)
Definition times (A B : mat T) : result (mat T) :=
  _ <- check (n_cols A =? n_rows B) incompatible_dimensions ;;
  Ok (mat_init (n_rows A) (n_cols B)
        (fun i k => accumulate (fun j => smul (elem A i j) (elem B j k)) (n_cols A))).

(** [A * S], dense times sparse: only the stored elements of [S] take part. *)
Definition times_sp (A : mat T) (S : sp_mat T) : result (mat T) :=
  _ <- check (n_cols A =? sp_n_rows S) incompatible_dimensions ;;
  Ok (mat_init (n_rows A) (sp_n_cols S)
        (fun i j =>
           fold_left
             (fun acc e =>
                if col e =? j then sadd acc (smul (elem A i (row e)) (val e)) else acc)
             (sp_entries S) szero)).

(** [S * B], sparse times dense. *)
Definition sp_times (S : sp_mat T) (B : mat T) : result (mat T) :=
  _ <- check (sp_n_cols S =? n_rows B) incompatible_dimensions ;;
  Ok (mat_init (sp_n_rows S) (n_cols B)
        (fun i k =>
           fold_left
             (fun acc e =>
                if row e =? i then sadd acc (smul (val e) (elem B (col e) k)) else acc)
             (sp_entries S) szero)).

(** The stored element at [(i,j)], if any. *)
Fixpoint sp_find (l : list (nonzero T)) (i j : nat) : option T :=
  match l with
  | [] => None
  | e :: l' => if (row e =? i) && (col e =? j) then Some (val e) else sp_find l' i j
  end.

Definition sp_elem (S : sp_mat T) (i j : nat) : T :=
  match sp_find (sp_entries S) i j with
  | Some v => v
  | None => szero
  end.

(** [S(i,j)] with its bounds check. *)
Definition sp_at (S : sp_mat T) (i j : nat) : result T :=
  _ <- check ((i <? sp_n_rows S) && (j <? sp_n_cols S)) index_out_of_bounds ;;
  Ok (sp_elem S i j).

(** Iteration order of the stored elements: by column, then by row. *)
Definition before (e1 e2 : nonzero T) : bool :=
  (col e1 <? col e2) || ((col e1 =? col e2) && (row e1 <? row e2)).

Fixpoint sp_insert (e : nonzero T) (l : list (nonzero T)) : list (nonzero T) :=
  match l with
  | [] => [e]
  | x :: l' => if before e x then e :: l else x :: sp_insert e l'
  end.

(** [S.t()]: indices exchanged, elements back in iteration order. *)
Definition sp_trans (S : sp_mat T) : sp_mat T :=
  SpMat (sp_n_cols S) (sp_n_rows S)
    (fold_right sp_insert []
       (map (fun e => Nz (col e) (row e) (val e)) (sp_entries S))).

(** [A.row(i)] with its bounds check. *)
Definition get_row (A : mat T) (i : nat) : result (vec T) :=
  _ <- check (i <? n_rows A) index_out_of_bounds ;;
  Ok (map (fun j => elem A i j) (seq 0 (n_cols A))).

(** [A.each_row() += v]. *)
Definition each_row_plus (A : mat T) (v : vec T) : result (mat T) :=
  _ <- check (length v =? n_cols A) incompatible_dimensions ;;
  Ok (mat_init (n_rows A) (n_cols A) (fun i j => sadd (elem A i j) (nth j v szero))).

(** [A.each_row(F)]: every row is copied out, transformed by [F] and copied
    back, which requires the transformed row to have kept its length. *)
Definition each_row (F : vec T -> result (vec T)) (A : mat T) : result (mat T) :=
  rows <- mapM
            (fun i =>
               x <- F (map (fun j => elem A i j) (seq 0 (n_cols A))) ;;
               _ <- check (length x =? n_cols A) incompatible_dimensions ;;
               Ok x)
            (seq 0 (n_rows A)) ;;
  Ok (mat_init (n_rows A) (n_cols A) (fun i j => nth j (nth i rows []) szero)).

Definition cube_elem (X : cube T) (i j k : nat) : T :=
  nth (i + j * c_n_rows X + k * (c_n_rows X * c_n_cols X)) (c_mem X) szero.

(** [X.tube(i,j)] with its bounds check. *)
Definition tube (X : cube T) (i j : nat) : result (vec T) :=
  _ <- check ((i <? c_n_rows X) && (j <? c_n_cols X)) index_out_of_bounds ;;
  Ok (map (fun k => cube_elem X i j k) (seq 0 (n_slices X))).

(** [n] elements copied from the raw address [&v[off]]: nothing checks that
    they lie inside [v]. *)
Definition copy_from (v : vec T) (off n : nat) : result (list T) :=
  _ <- check (off + n <=? length v) invalid_memory_read ;;
  Ok (firstn n (skipn off v)).

(** [vectorise(A)] and [join_cols(u, v)]. *)
Definition vectorise (A : mat T) : vec T := mem A.
Definition join_cols (u v : vec T) : vec T := u ++ v.

(** [as_scalar(A)]: [A] must hold exactly one element. *)
Definition as_scalar (A : mat T) : result T :=
  _ <- check ((n_rows A =? 1) && (n_cols A =? 1)) incompatible_dimensions ;;
  Ok (elem A 0 0).

Fixpoint list_update (n : nat) (f : T -> T) (l : list T) : list T :=
  match l, n with
  | [], _ => []
  | x :: l', O => f x :: l'
  | x :: l', S n' => x :: list_update n' f l'
  end.

(** [A(i,j) = f (A(i,j))], the write access with its bounds check. *)
Definition update (A : mat T) (i j : nat) (f : T -> T) : result (mat T) :=
  _ <- check ((i <? n_rows A) && (j <? n_cols A)) index_out_of_bounds ;;
  Ok (Mat (n_rows A) (n_cols A) (list_update (i + j * n_rows A) f (mem A))).

(** [u + v] on vectors. *)
Definition vec_plus (u v : vec T) : result (vec T) :=
  _ <- check (length u =? length v) incompatible_dimensions ;;
  Ok (map (fun p => sadd (fst p) (snd p)) (combine u v)).

End Operators.

(** [max(x)] of a vector of reals. *)
Definition max (x : vec R) : result R :=
  match x with
  | [] => Raise no_elements
  | a :: l => Ok (fold_left Rmax l a)
  end.

End arma.

Import arma.

(* ================================================================== *)
(** * The functions of [SBM_bernoulli.cpp]

    Every exported function keeps its name and the order of its
    arguments.  The observation mask, [R] in the source, is written [Robs]
    here, [R] being the type of the real numbers.  A function that can throw
    returns a [result]. *)

(** ** Maximisation step, closed form

    The three exported functions have the same body.  They use [+], [*]
    and [/] only and are stated for any scalar type. *)

Section ClosedForm.

Context {T : Type} {ST : Scalar T}.

Definition M_step_sparse_bernoulli_undirected_nocovariate
    (Y Robs : sp_mat T) (Z : mat T) : result (mat T) :=
  ZtY <- times_sp (trans Z) Y ;;
  ZtYZ <- times ZtY Z ;;
  ZtR <- times_sp (trans Z) Robs ;;
  ZtRZ <- times ZtR Z ;;
  ediv ZtYZ ZtRZ.

Definition M_step_sparse_bernoulli_directed_nocovariate
    (Y Robs : sp_mat T) (Z : mat T) : result (mat T) :=
  ZtY <- times_sp (trans Z) Y ;;
  ZtYZ <- times ZtY Z ;;
  ZtR <- times_sp (trans Z) Robs ;;
  ZtRZ <- times ZtR Z ;;
  ediv ZtYZ ZtRZ.

Definition M_step_sparse_bernoulli_directed_covariates
    (Y Robs : sp_mat T) (Z : mat T) : result (mat T) :=
  ZtY <- times_sp (trans Z) Y ;;
  ZtYZ <- times ZtY Z ;;
  ZtR <- times_sp (trans Z) Robs ;;
  ZtRZ <- times ZtR Z ;;
  ediv ZtYZ ZtRZ.

End ClosedForm.

Local Open Scope R_scope.

(** ** Lower bound of the expectation of the complete log-likelihood *)

Definition vLL_complete_sparse_bernoulli_undirected_nocovariate
    (Y Robs : sp_mat R) (Z theta : mat R) (pi : vec R) : result R :=
  ZtY <- times_sp (trans Z) Y ;;
  ZtYZ <- times ZtY Z ;;
  odds <- ediv theta (mat_map (fun x => 1 - x) theta) ;;
  a <- schur ZtYZ (mat_map ln odds) ;;
  ZtR <- times_sp (trans Z) Robs ;;
  ZtRZ <- times ZtR Z ;;
  b <- schur ZtRZ (mat_map ln (mat_map (fun x => 1 - x) theta)) ;;
  c <- times Z (colvec (map ln pi)) ;;
  Ok (0.5 * accu a + 0.5 * accu b + accu c).

Definition vLL_complete_sparse_bernoulli_directed_nocovariate
    (Y Robs : sp_mat R) (Z theta : mat R) (pi : vec R) : result R :=
  ZtY <- times_sp (trans Z) Y ;;
  ZtYZ <- times ZtY Z ;;
  odds <- ediv theta (mat_map (fun x => 1 - x) theta) ;;
  a <- schur ZtYZ (mat_map ln odds) ;;
  ZtR <- times_sp (trans Z) Robs ;;
  ZtRZ <- times ZtR Z ;;
  b <- schur ZtRZ (mat_map ln (mat_map (fun x => 1 - x) theta)) ;;
  c <- times Z (colvec (map ln pi)) ;;
  Ok (accu a + accu b + accu c).

(** The body of the two nested loops over [q] and [l] that both dyad loops
    of the covariate evaluator run: [loglik += term q l] for [q, l < Q]. *)
Definition for_q_l (Q : nat) (term : nat -> nat -> result R) (loglik : R)
  : result R :=
  foldM (fun loglik q =>
           foldM (fun loglik l => x <- term q l ;; Ok (loglik + x))
                 (seq 0 Q) loglik)
        (seq 0 Q) loglik.

Definition vLL_complete_sparse_bernoulli_undirected_covariates
    (Y Robs : sp_mat R) (M Z Gamma : mat R) (pi : vec R) : result R :=
  let Q := n_cols Z in
  c <- times Z (colvec (map ln pi)) ;;
  let loglik := accu c in
  loglik <- foldM
    (fun loglik Yij =>
       if (col Yij <? row Yij)%nat then
         for_q_l Q
           (fun q l =>
              ziq <- at_ Z (row Yij) q ;;
              zjl <- at_ Z (col Yij) l ;;
              g <- at_ Gamma q l ;;
              m <- at_ M (row Yij) (col Yij) ;;
              Ok (ziq * zjl * (g + m)))
           loglik
       else Ok loglik)
    (sp_entries Y) loglik ;;
  foldM
    (fun loglik Rij =>
       if (col Rij <? row Rij)%nat then
         for_q_l Q
           (fun q l =>
              ziq <- at_ Z (row Rij) q ;;
              zjl <- at_ Z (col Rij) l ;;
              g <- at_ Gamma q l ;;
              m <- at_ M (row Rij) (col Rij) ;;
              Ok (- ziq * zjl * ln (1 + exp (g + m))))
           loglik
       else Ok loglik)
    (sp_entries Robs) loglik.

Definition vLL_complete_sparse_bernoulli_directed_covariates
    (Y Robs : sp_mat R) (M Z Gamma : mat R) (pi : vec R) : result R :=
  let Q := n_cols Z in
  c <- times Z (colvec (map ln pi)) ;;
  let loglik := accu c in
  loglik <- foldM
    (fun loglik Yij =>
       for_q_l Q
         (fun q l =>
            ziq <- at_ Z (row Yij) q ;;
            zjl <- at_ Z (col Yij) l ;;
            g <- at_ Gamma q l ;;
            m <- at_ M (row Yij) (col Yij) ;;
            Ok (ziq * zjl * (g + m)))
         loglik)
    (sp_entries Y) loglik ;;
  foldM
    (fun loglik Rij =>
       for_q_l Q
         (fun q l =>
            ziq <- at_ Z (row Rij) q ;;
            zjl <- at_ Z (col Rij) l ;;
            g <- at_ Gamma q l ;;
            m <- at_ M (row Rij) (col Rij) ;;
            Ok (- ziq * zjl * ln (1 + exp (g + m))))
         loglik)
    (sp_entries Robs) loglik.

(** ** Expectation step *)

(** The row transformation every expectation step ends with:
    [x = exp(x - max(x)) / sum(exp(x - max(x)))]. *)
Definition softmax_row (x : vec R) : result (vec R) :=
  m <- max x ;;
  m' <- max x ;;
  let s := vsum (map (fun v => exp (v - m')) x) in
  Ok (map (fun v => exp (v - m) / s) x).

Definition E_step_sparse_bernoulli_undirected_nocovariate
    (Y Robs : sp_mat R) (Z theta : mat R) (pi : vec R) (log_lambda : R)
  : result (mat R) :=
  YZ <- sp_times Y Z ;;
  odds <- ediv theta (mat_map (fun x => 1 - x) theta) ;;
  a <- times YZ (mat_map ln odds) ;;
  RZ <- sp_times Robs Z ;;
  b <- times RZ (mat_map ln (mat_map (fun x => 1 - x) theta)) ;;
  ab <- eplus a b ;;
  let log_tau := mat_map (fun x => x + log_lambda) ab in
  log_tau <- each_row_plus log_tau (map ln pi) ;;
  each_row softmax_row log_tau.

Definition E_step_sparse_bernoulli_directed_nocovariate
    (Y Robs : sp_mat R) (Z theta : mat R) (pi : vec R) (log_lambda : R)
  : result (mat R) :=
  YZ <- sp_times Y Z ;;
  odds <- ediv theta (mat_map (fun x => 1 - x) theta) ;;
  a <- times YZ (trans (mat_map ln odds)) ;;
  RZ <- sp_times Robs Z ;;
  b <- times RZ (trans (mat_map ln (mat_map (fun x => 1 - x) theta))) ;;
  ab <- eplus a b ;;
  YtZ <- sp_times (sp_trans Y) Z ;;
  odds' <- ediv theta (mat_map (fun x => 1 - x) theta) ;;
  c <- times YtZ (mat_map ln odds') ;;
  abc <- eplus ab c ;;
  RtZ <- sp_times (sp_trans Robs) Z ;;
  d <- times RtZ (mat_map ln (mat_map (fun x => 1 - x) theta)) ;;
  abcd <- eplus abc d ;;
  let log_tau := mat_map (fun x => x + log_lambda) abcd in
  log_tau <- each_row_plus log_tau (map ln pi) ;;
  each_row softmax_row log_tau.

Definition E_step_sparse_bernoulli_undirected_covariates
    (Y Robs : sp_mat R) (M Z Gamma : mat R) (pi : vec R) : result (mat R) :=
  let Q := n_cols Z in
  YZ <- sp_times Y Z ;;
  log_tau <- times YZ Gamma ;;
  log_tau <- foldM
    (fun log_tau Rij =>
       foldM (fun log_tau q =>
                foldM (fun log_tau l =>
                         zjl <- at_ Z (col Rij) l ;;
                         g <- at_ Gamma q l ;;
                         m <- at_ M (row Rij) (col Rij) ;;
                         update log_tau (row Rij) q
                           (fun x => x - zjl * ln (1 + exp (g + m))))
                      (seq 0 Q) log_tau)
             (seq 0 Q) log_tau)
    (sp_entries Robs) log_tau ;;
  log_tau <- each_row_plus log_tau (map ln pi) ;;
  each_row softmax_row log_tau.

(** ** Maximisation step with covariates: objective and gradient *)

Record objective_gradient : Type := List_create {
  objective : R;
  gradient : vec R
}.

(** The variables the dyad loop of the covariate M-step updates. *)
Record accumulators : Type := Acc {
  loglik : R;
  gr_gamma : mat R;
  gr_beta : vec R
}.

(** The body of the dyad loop, run for the dyad [(i, j)] of an element of
    the observation mask in the strict lower triangle. *)
Definition dyad_update (Y : sp_mat R) (X : cube R) (Z gamma : mat R)
    (beta : vec R) (acc : accumulators) (i j : nat) : result accumulators :=
  phi <- tube X i j ;;
  bphi <- times (trans (colvec beta)) (colvec phi) ;;
  mu <- as_scalar bphi ;;
  zi <- get_row Z i ;;
  zj <- get_row Z j ;;
  ZiqZjl <- times (trans (rowvec zi)) (rowvec zj) ;;
  y <- sp_at Y i j ;;
  let gamma_mu := mat_map (fun g => g + mu) gamma in
  dens <- mat_zip Rminus
            (mat_map (fun x => y * x) gamma_mu)
            (mat_map ln (mat_map (fun x => 1 + x) (mat_map exp gamma_mu))) ;;
  w <- schur ZiqZjl dens ;;
  let sigm := mat_map (fun x => 1 / x)
                (mat_map (fun x => 1 + x)
                   (mat_map exp (mat_map Ropp gamma_mu))) in
  delta <- schur ZiqZjl (mat_map (fun x => y - x) sigm) ;;
  gr_gamma' <- eplus (gr_gamma acc) delta ;;
  gr_beta' <- vec_plus (gr_beta acc) (map (fun x => accu delta * x) phi) ;;
  Ok (Acc (loglik acc + accu w) gr_gamma' gr_beta').

Definition M_step_sparse_bernoulli_undirected_covariates
    (param : vec R) (Y Robs : sp_mat R) (X : cube R) (Z : mat R)
  : result objective_gradient :=
  let Q := n_cols Z in
  let K := n_slices X in
  gamma_mem <- copy_from param 0 (Q * Q) ;;
  let gamma := Mat Q Q gamma_mem in
  beta <- copy_from param (Q * Q) K ;;
  acc <- foldM
    (fun acc Rij =>
       if (col Rij <? row Rij)%nat
       then dyad_update Y X Z gamma beta acc (row Rij) (col Rij)
       else Ok acc)
    (sp_entries Robs) (Acc 0 (zeros Q Q) (repeat 0 K)) ;;
  let grad := join_cols (vectorise (gr_gamma acc)) (gr_beta acc) in
  Ok (List_create (- loglik acc) (map Ropp grad)).

(* ================================================================== *)
(** * Shapes and invariants of the inputs *)

(** A dense [r] x [c] matrix holds [r * c] elements. *)
Definition has_dims {T : Type} (A : mat T) (r c : nat) : Prop :=
  n_rows A = r /\ n_cols A = c /\ length (mem A) = (r * c)%nat.

Definition sp_has_dims {T : Type} (S : sp_mat T) (r c : nat) : Prop :=
  sp_n_rows S = r /\ sp_n_cols S = c.

Definition cube_has_dims {T : Type} (X : cube T) (r c k : nat) : Prop :=
  c_n_rows X = r /\ c_n_cols X = c /\ n_slices X = k /\
  length (c_mem X) = (r * c * k)%nat.

(** The invariant of the compressed sparse column format: every stored
    element lies inside the matrix and the elements are stored in strictly
    increasing iteration order, so that no position is stored twice. *)
Definition in_range {T : Type} (r c : nat) (e : nonzero T) : bool :=
  (row e <? r)%nat && (col e <? c)%nat.

Fixpoint sortedb {T : Type} (l : list (nonzero T)) : bool :=
  match l with
  | [] => true
  | e :: l' => forallb (before e) l' && sortedb l'
  end.

Definition sp_wf {T : Type} (S : sp_mat T) : bool :=
  forallb (in_range (sp_n_rows S) (sp_n_cols S)) (sp_entries S)
  && sortedb (sp_entries S).

(** A sparse matrix of reals stores no zero. *)
Definition sp_nonzero (S : sp_mat R) : Prop :=
  Forall (fun e => val e <> 0) (sp_entries S).

(** The strict lower triangle, as the dyad loops test it:
    [Rij.row() > Rij.col()]. *)
Definition lower {T : Type} (e : nonzero T) : bool := (col e <? row e)%nat.

(* ================================================================== *)
(** * Finite sums of reals *)

(** [big n f] is the sum of [f k] for [k < n]. *)
Fixpoint big (n : nat) (f : nat -> R) : R :=
  match n with
  | O => 0
  | S k => big k f + f k
  end.

(** [lsum l] is the sum of the elements of [l]. *)
Definition lsum (l : list R) : R := fold_right Rplus 0 l.

(* ================================================================== *)
(** * The quantities the properties are stated with *)

(** The product [Z.t() * S * Z] as the source evaluates it, and the
    matrices [Z.t() * S] and [Z.t() * S * Z] the operators build when the
    shapes conform, for any scalar type. *)
Section Sandwich.

Context {T : Type} {ST : Scalar T}.

Definition sandwich (S : sp_mat T) (Z : mat T) : result (mat T) :=
  ZtS <- times_sp (trans Z) S ;;
  times ZtS Z.

Definition ZtS (S : sp_mat T) (Z : mat T) : mat T :=
  mat_init (n_cols Z) (sp_n_cols S)
    (fun i j =>
       fold_left
         (fun acc e =>
            if (col e =? j)%nat
            then sadd acc (smul (elem (trans Z) i (row e)) (val e))
            else acc)
         (sp_entries S) szero).

Definition ZtSZ (S : sp_mat T) (Z : mat T) : mat T :=
  mat_init (n_cols Z) (n_cols Z)
    (fun i k =>
       accumulate (fun j => smul (elem (ZtS S Z) i j) (elem Z j k)) (n_rows Z)).

End Sandwich.

(** Entry [(q,l)] of the quadratic form Z'SZ, written as the double sum
    over all dyads [(i,j)] of [Z_iq * S_ij * Z_jl]. *)
Definition quad_form (S : sp_mat R) (Z : mat R) (q l : nat) : R :=
  big (n_rows Z) (fun i =>
    big (n_rows Z) (fun j => elem Z i q * sp_elem S i j * elem Z j l)).

(** The cluster-prior term: the sum of the entries of [Z log(pi)]. *)
Definition prior_term (Z : mat R) (pi : vec R) : R :=
  big (n_rows Z) (fun i => big (n_cols Z) (fun q => elem Z i q * ln (nth q pi 0))).

(** The sum over all entries of [Z'SZ] times [w], entry by entry. *)
Definition weighted_sum (S : sp_mat R) (Z : mat R) (w : nat -> nat -> R) : R :=
  big (n_cols Z) (fun q => big (n_cols Z) (fun l => quad_form S Z q l * w q l)).

(** The undirected no-covariate bound as the specification writes it:
    0.5 sum(Z'YZ (.) log(theta/(1-theta))) + 0.5 sum(Z'RZ (.) log(1-theta))
    + sum(Z log pi). *)
Definition spec_vLL_undirected (Y Robs : sp_mat R) (Z theta : mat R) (pi : vec R) : R :=
  0.5 * weighted_sum Y Z (fun q l => ln (elem theta q l / (1 - elem theta q l)))
  + 0.5 * weighted_sum Robs Z (fun q l => ln (1 - elem theta q l))
  + prior_term Z pi.

(** Entries of a matrix of reals strictly between 0 and 1. *)
Definition in_unit_interval (theta : mat R) : Prop :=
  forall q l, (q < n_rows theta)%nat -> (l < n_cols theta)%nat ->
    0 < elem theta q l < 1.

Definition vec_in_unit_interval (pi : vec R) : Prop :=
  Forall (fun p => 0 < p < 1) pi.

(* ================================================================== *)
(** * A small graph to run the functions on

    Three nodes, two clusters, the hard assignment
    [[1,0],[1,0],[0,1]], a single undirected edge between the first and
    the third node, every off-diagonal dyad observed. *)

Section Toy.

Context {T : Type} {ST : Scalar T}.
Variable one : T.

Definition toy_Z : mat T :=
  Mat 3 2 [one; one; szero; szero; szero; one].

Definition toy_Y : sp_mat T :=
  SpMat 3 3 [Nz 2 0 one; Nz 0 2 one].

Definition toy_R : sp_mat T :=
  SpMat 3 3 [Nz 1 0 one; Nz 2 0 one; Nz 0 1 one; Nz 2 1 one; Nz 0 2 one; Nz 1 2 one].

End Toy.

Definition toy_theta : mat R := Mat 2 2 [/ 4; / 2; / 2; / 4].
Definition toy_pi : vec R := [2 / 3; 1 / 3].

(** The unit of binary64 and the largest finite binary64 number. *)
Definition one64 : binary64 := S754_finite false 4503599627370496 (-52).
Definition max64 : binary64 := S754_finite false 9007199254740991 971.

(** Classes of binary64 values. *)
Definition is_zero (x : binary64) : bool :=
  match x with S754_zero _ => true | _ => false end.

Definition is_nan (x : binary64) : bool :=
  match x with S754_nan => true | _ => false end.

Definition is_infinite (x : binary64) : bool :=
  match x with S754_infinity _ => true | _ => false end.

Definition sign_bit (x : binary64) : bool :=
  match x with
  | S754_zero s | S754_infinity s | S754_finite s _ _ => s
  | S754_nan => false
  end.

(** What IEEE-754 division returns when the divisor [d] is a zero. *)
Definition quotient_by_zero (n d : binary64) : binary64 :=
  if is_zero n || is_nan n then S754_nan
  else S754_infinity (xorb (sign_bit n) (sign_bit d)).

(** An input with finite entries only, no observed dyad, and edge weights
    of both signs at the largest finite magnitude. *)
Definition overflow_Y : sp_mat binary64 :=
  SpMat 2 2 [Nz 0 0 max64; Nz 1 0 max64;
             Nz 0 1 (SFopp max64); Nz 1 1 (SFopp max64)].
Definition overflow_R : sp_mat binary64 := SpMat 2 2 [].
Definition overflow_Z : mat binary64 := Mat 2 1 [one64; one64].

(** The row transformation of the expectation steps as a function:
    subtract the maximum, exponentiate, divide by the sum. *)
Definition softmax (x : vec R) : vec R :=
  match x with
  | [] => []
  | a :: l =>
      let m := fold_left Rmax l a in
      map (fun v => exp (v - m) / vsum (map (fun v => exp (v - m)) x)) x
  end.



Definition toy_M : mat R := Mat 3 3 [0; 1; 2; 1; 0; 3; 2; 3; 0].
Definition toy_Gamma : mat R := Mat 2 2 [-1; 0; 0; -1].

(* ================================================================== *)
(** * The covariate M-step as the specification writes it *)

(** The dyad [(i, j)] is observed: its entry in the mask is not zero. *)
Definition observed (Robs : sp_mat R) (i j : nat) : bool :=
  if Req_dec_T (sp_elem Robs i j) 0 then false else true.

(** The sum of [F i j] over the observed dyads with [i > j]. *)
Definition dyad_sum (Robs : sp_mat R) (F : nat -> nat -> R) : R :=
  big (sp_n_rows Robs) (fun i =>
    big (sp_n_cols Robs) (fun j =>
      if (j <? i)%nat && observed Robs i j then F i j else 0)).

Definition sigmoid (x : R) : R := 1 / (1 + exp (- x)).

Section CovariateSpec.

Variables (param : vec R) (Y Robs : sp_mat R) (X : cube R) (Z : mat R).

(** The parameter vector packs Gamma, column by column, then beta. *)
Definition Gamma_of (q l : nat) : R := nth (q + l * n_cols Z) param 0.
Definition beta_of (k : nat) : R := nth (n_cols Z * n_cols Z + k) param 0.

(** The linear predictor of a dyad, beta . X(i,j,.). *)
Definition mu_of (i j : nat) : R :=
  big (n_slices X) (fun k => beta_of k * cube_elem X i j k).

Definition log_density (i j : nat) : R :=
  big (n_cols Z) (fun q => big (n_cols Z) (fun l =>
    elem Z i q * elem Z j l
    * (sp_elem Y i j * (Gamma_of q l + mu_of i j)
       - ln (1 + exp (Gamma_of q l + mu_of i j))))).

Definition residual (i j q l : nat) : R :=
  elem Z i q * elem Z j l * (sp_elem Y i j - sigmoid (Gamma_of q l + mu_of i j)).

Definition spec_objective : R := - dyad_sum Robs log_density.

Definition spec_gradient_Gamma (q l : nat) : R :=
  - dyad_sum Robs (fun i j => residual i j q l).

Definition spec_gradient_beta (k : nat) : R :=
  - dyad_sum Robs (fun i j =>
      big (n_cols Z) (fun q => big (n_cols Z) (fun l => residual i j q l))
      * cube_elem X i j k).

End CovariateSpec.

(** The shape the accumulators of the dyad loop keep. *)
Definition acc_shape (Q K : nat) (acc : accumulators) : Prop :=
  has_dims (gr_gamma acc) Q Q /\ length (gr_beta acc) = K.

(** Two sparse matrices agree on the strict lower triangle. *)
Definition agree_lower (S S' : sp_mat R) : Prop :=
  forall i j, (j < i)%nat -> sp_elem S i j = sp_elem S' i j.

(** Covariates and parameters for the small graph: one feature per dyad,
    Gamma = [[-1, 0], [0, -1]] column by column, then beta = 1/2. *)
Definition toy_X : cube R := Cube 3 3 1 [0; 1; 2; 1; 0; 3; 2; 3; 0].
Definition toy_param : vec R := [-1; 0; 0; -1; / 2].

(** Matrices that agree with [toy_Y] and [toy_R] on the strict lower
    triangle and differ from them on the diagonal and above. *)
Definition toy_Y_lower : sp_mat R := SpMat 3 3 [Nz 0 0 5; Nz 2 0 1].
Definition toy_R_lower : sp_mat R :=
  SpMat 3 3 [Nz 1 0 1; Nz 2 0 1; Nz 0 1 7; Nz 2 1 1].

(** A 3 x 3 matrix where [toy_Z], with two columns, asks for two rows. *)
Definition theta_3x3 : mat R :=
  Mat 3 3 [/ 2; / 2; / 2; / 2; / 2; / 2; / 2; / 2; / 2].

(* ================================================================== *)
(** * Further quantities and input properties *)

(** The shapes the closed-form M-step needs: [Y] and [R] square, with as
    many rows as [Z]. *)
Definition closed_form_conform {T : Type} (Y Robs : sp_mat T) (Z : mat T) : bool :=
  (n_rows Z =? sp_n_rows Y)%nat && (sp_n_cols Y =? n_rows Z)%nat
  && (n_rows Z =? sp_n_rows Robs)%nat && (sp_n_cols Robs =? n_rows Z)%nat.

(** A sparse matrix read as a dense one is symmetric. *)
Definition sp_symmetric (S : sp_mat R) : Prop :=
  forall i j, sp_elem S i j = sp_elem S j i.

(** The entries of a dense matrix are non-negative. *)
Definition mat_nonneg (A : mat R) : Prop :=
  forall i j, (i < n_rows A)%nat -> (j < n_cols A)%nat -> 0 <= elem A i j.

(** Every node belongs to the single cluster: [Z] is a column of ones. *)
Definition single_cluster (Z : mat R) : Prop :=
  n_cols Z = 1%nat /\ forall i, (i < n_rows Z)%nat -> elem Z i 0 = 1.

(** The sum of the stored elements of a sparse matrix. *)
Definition sp_total (S : sp_mat R) : R := lsum (map (fun e => val e) (sp_entries S)).

(** A single cluster over the three nodes of the small graph. *)
Definition toy_Z1 : mat R := Mat 3 1 [1; 1; 1].

(** The sum of [F i j] over all observed dyads, in both orders. *)
Definition obs_sum (S : sp_mat R) (F : nat -> nat -> R) : R :=
  big (sp_n_rows S) (fun i =>
    big (sp_n_cols S) (fun j => if observed S i j then F i j else 0)).

(** The two per-dyad terms of the covariate likelihood:
    sum_{q,l} Z_iq Z_jl (Gamma_ql + M_ij) for an edge and
    sum_{q,l} Z_iq Z_jl log(1 + exp(Gamma_ql + M_ij)) for an observation. *)
Definition edge_term (M Z Gamma : mat R) (i j : nat) : R :=
  big (n_cols Z) (fun q => big (n_cols Z) (fun l =>
    elem Z i q * elem Z j l * (elem Gamma q l + elem M i j))).

Definition partition_term (M Z Gamma : mat R) (i j : nat) : R :=
  big (n_cols Z) (fun q => big (n_cols Z) (fun l =>
    elem Z i q * elem Z j l * ln (1 + exp (elem Gamma q l + elem M i j)))).

(** A dense matrix is symmetric. *)
Definition mat_symmetric (A : mat R) : Prop :=
  forall i j, (i < n_rows A)%nat -> (j < n_rows A)%nat -> elem A i j = elem A j i.

(** No self-loop: the diagonal of a sparse matrix is zero. *)
Definition sp_zero_diagonal (S : sp_mat R) : Prop :=
  forall i, sp_elem S i i = 0.

(** The positions a sparse matrix stores, in iteration order. *)
Definition pattern {T : Type} (S : sp_mat T) : list (nat * nat) :=
  map (fun e => (row e, col e)) (sp_entries S).

(** The small graph with other weights at the same positions. *)
Definition toy_Y_weighted : sp_mat R := SpMat 3 3 [Nz 2 0 4; Nz 0 2 (-3)].
Definition toy_R_weighted : sp_mat R :=
  SpMat 3 3 [Nz 1 0 2; Nz 2 0 2; Nz 0 1 2; Nz 2 1 2; Nz 0 2 2; Nz 1 2 2].

(** A mask stored on and above the diagonal only. *)
Definition toy_R_upper : sp_mat R :=
  SpMat 3 3 [Nz 0 0 1; Nz 0 1 1; Nz 0 2 1; Nz 1 2 1].

(* ================================================================== *)
(** * The scores of the expectation steps *)

(** Entry [(i,l)] of [S * Z] and of [S.t() * Z] as sums over the nodes. *)
Definition SZ (S : sp_mat R) (Z : mat R) (i l : nat) : R :=
  big (n_rows Z) (fun j => sp_elem S i j * elem Z j l).

Definition StZ (S : sp_mat R) (Z : mat R) (i l : nat) : R :=
  big (n_rows Z) (fun j => sp_elem S j i * elem Z j l).

Definition logit (theta : mat R) (q l : nat) : R :=
  ln (elem theta q l / (1 - elem theta q l)).

Definition log1m (theta : mat R) (q l : nat) : R :=
  ln (1 - elem theta q l).

(** The log-score of node [i] for cluster [q], undirected, no covariate:
    Y Z log(theta/(1-theta)) + R Z log(1-theta) + log_lambda + log pi. *)
Definition score_undirected (Y Robs : sp_mat R) (Z theta : mat R) (pi : vec R)
    (log_lambda : R) (i q : nat) : R :=
  big (n_cols Z) (fun l => SZ Y Z i l * logit theta l q)
  + big (n_cols Z) (fun l => SZ Robs Z i l * log1m theta l q)
  + log_lambda + ln (nth q pi 0).

(** The same for a directed graph: the out-edges of [i] meet the transpose
    of theta, its in-edges theta itself. *)
Definition score_directed (Y Robs : sp_mat R) (Z theta : mat R) (pi : vec R)
    (log_lambda : R) (i q : nat) : R :=
  big (n_cols Z) (fun l => SZ Y Z i l * logit theta q l)
  + big (n_cols Z) (fun l => SZ Robs Z i l * log1m theta q l)
  + big (n_cols Z) (fun l => StZ Y Z i l * logit theta l q)
  + big (n_cols Z) (fun l => StZ Robs Z i l * log1m theta l q)
  + log_lambda + ln (nth q pi 0).

(** The penalty of the observed dyad [(i,j)] for the cluster [q]:
    sum_l Z_jl log(1 + exp(Gamma_ql + M_ij)). *)
Definition dyad_penalty (M Z Gamma : mat R) (Q i j q : nat) : R :=
  big Q (fun l => elem Z j l * ln (1 + exp (elem Gamma q l + elem M i j))).

(** The log-score with covariates: Y Z Gamma, minus, for every observed
    dyad (i,j), sum_l Z_jl log(1 + exp(Gamma_ql + M_ij)), plus log pi. *)
Definition score_covariates (Y Robs : sp_mat R) (M Z Gamma : mat R) (pi : vec R)
    (i q : nat) : R :=
  big (n_cols Z) (fun l => SZ Y Z i l * elem Gamma l q)
  - big (n_rows Z) (fun j =>
      if observed Robs i j
      then big (n_cols Z) (fun l =>
             elem Z j l * ln (1 + exp (elem Gamma q l + elem M i j)))
      else 0)
  + ln (nth q pi 0).

(** An expectation step returns the N x Q matrix of the normalised
    exponentials of the scores [s]. *)
Definition returns_softmax_of (r : result (mat R)) (N Q : nat)
    (s : nat -> nat -> R) : Prop :=
  exists tau,
    r = Ok tau /\ has_dims tau N Q /\
    forall i q, (i < N)%nat -> (q < Q)%nat ->
      elem tau i q = exp (s i q) / big Q (fun k => exp (s i k)).

(* ================================================================== *)
(** * The model without covariate inside the model with covariates *)

(** A 0/1 matrix. *)
Definition sp_binary (S : sp_mat R) : Prop :=
  forall i j, sp_elem S i j = 0 \/ sp_elem S i j = 1.

(** The matrix of the log-odds log(theta/(1-theta)). *)
Definition log_odds (theta : mat R) : mat R :=
  mat_init (n_rows theta) (n_cols theta) (logit theta).

(** Node [i] has no entry in its row, or in its column. *)
Definition empty_row (S : sp_mat R) (i : nat) : Prop :=
  forall j, sp_elem S i j = 0.

Definition empty_col (S : sp_mat R) (i : nat) : Prop :=
  forall j, sp_elem S j i = 0.

(** The small graph with a fourth node that no stored element mentions. *)
Definition toy_Z4 : mat R := Mat 4 2 [1; 1; 0; 1; 0; 0; 1; 0].
Definition toy_Y4 : sp_mat R := SpMat 4 4 [Nz 2 0 1; Nz 0 2 1].
Definition toy_R4 : sp_mat R :=
  SpMat 4 4 [Nz 1 0 1; Nz 2 0 1; Nz 0 1 1; Nz 2 1 1; Nz 0 2 1; Nz 1 2 1].
Definition toy_M4 : mat R := zeros 4 4.

(** No cluster at all: a 3 x 0 assignment and 0 x 0 parameters. *)
Definition toy_Z0 : mat R := Mat 3 0 [].
Definition empty_mat : mat R := Mat 0 0 [].

(* ================================================================== *)
(** * The covariate M-step and the covariate likelihood evaluator *)

(** The parameters the covariate M-step unpacks from [param], in the form
    the covariate likelihood evaluator takes them: the matrix Gamma, and
    the matrix of the linear predictors beta . X(i,j,.). *)
Definition Gamma_matrix (param : vec R) (Z : mat R) : mat R :=
  Mat (n_cols Z) (n_cols Z) (firstn (n_cols Z * n_cols Z) param).

Definition predictor_matrix (param : vec R) (X : cube R) (Z : mat R) : mat R :=
  mat_init (n_rows Z) (n_rows Z) (mu_of param X Z).

(** Every edge lies on an observed dyad. *)
Definition edges_observed (Y Robs : sp_mat R) : Prop :=
  forall i j, sp_elem Y i j <> 0 -> sp_elem Robs i j <> 0.

(* ================================================================== *)
(** * The covariate M-step as a function of one parameter *)

(** [param] with its entry [idx] set to [t]. *)
Definition with_entry (param : vec R) (idx : nat) (t : R) : vec R :=
  list_update idx (fun _ => t) param.

(** The objective the covariate M-step returns on [param]. *)
Definition objective_at (Y Robs : sp_mat R) (X : cube R) (Z : mat R)
    (param : vec R) : R :=
  match M_step_sparse_bernoulli_undirected_covariates param Y Robs X Z with
  | Ok og => objective og
  | Raise _ => 0
  end.

(** How fast Gamma_ql + beta . X(i,j,.) moves with the entry [idx] of the
    parameter vector: 1 when that entry is Gamma_ql, X(i,j,k) when it is
    beta_k, 0 otherwise. *)
Definition slope (param : vec R) (X : cube R) (Z : mat R) (idx i j q l : nat) : R :=
  (if (q + l * n_cols Z =? idx)%nat then 1 else 0)
  + big (n_slices X) (fun k =>
      (if (n_cols Z * n_cols Z + k =? idx)%nat then 1 else 0) * cube_elem X i j k).

(** Parameters for the single cluster over the small graph. *)
Definition toy_theta1 : mat R := Mat 1 1 [/ 2].
Definition toy_pi1 : vec R := [/ 2].

(* ================================================================== *)
(** * The expectation step with covariates in binary64

    Overflow is invisible over the reals.  This part transcribes the
    covariate expectation step once more, on binary64 values.  [+], [-],
    [*], [/] and [>] are the IEEE operations.  [exp] and [log] are the
    functions of the C library the program is linked with; they are a
    parameter, of which only values the C standard fixes are assumed. *)

(** The elementary functions of the C library on doubles. *)
Class Libm : Type := {
  exp64 : binary64 -> binary64;
  log64 : binary64 -> binary64
}.

Definition of_Z (n : Z) : binary64 := binary_normalize 53 1024 n 0 false.

Definition nan64 : binary64 := S754_nan.
Definition pinf64 : binary64 := S754_infinity false.
Definition ninf64 : binary64 := S754_infinity true.
Definition zero64 : binary64 := S754_zero false.
Definition half64 : binary64 := S754_finite false 4503599627370496 (-53).

(** From 710 on [exp] overflows: the largest double is below e^709.79. *)
Definition overflow_threshold : binary64 := Eval vm_compute in of_Z 710.

(** What is assumed of the C library (C standard, 7.12.1 and Annex F.10):
    a result that overflows is +Inf, and so is exp(+Inf); a NaN argument
    gives a NaN; log(+Inf) is +Inf. *)
Definition annex_f (L : Libm) : Prop :=
  (forall x, SFleb overflow_threshold x = true -> exp64 x = pinf64) /\
  exp64 nan64 = nan64 /\
  log64 pinf64 = pinf64.

Module ieee.

Section WithLibm.

Context {L : Libm}.

(** [max(x)]: Armadillo starts from the most negative value, -Inf, and
    keeps an element when it is greater than the maximum so far. *)
Definition max (x : vec binary64) : result binary64 :=
  match x with
  | [] => Raise no_elements
  | _ => Ok (fold_left (fun max_val v => if SFltb max_val v then v else max_val)
                       x ninf64)
  end.

Definition softmax_row (x : vec binary64) : result (vec binary64) :=
  m <- max x ;;
  m' <- max x ;;
  let s := vsum (map (fun v => exp64 (SFsub 53 1024 v m')) x) in
  Ok (map (fun v => SFdiv 53 1024 (exp64 (SFsub 53 1024 v m)) s) x).

Definition E_step_sparse_bernoulli_undirected_covariates
    (Y Robs : sp_mat binary64) (M Z Gamma : mat binary64) (pi : vec binary64)
  : result (mat binary64) :=
  let Q := n_cols Z in
  YZ <- sp_times Y Z ;;
  log_tau <- times YZ Gamma ;;
  log_tau <- foldM
    (fun log_tau Rij =>
       foldM (fun log_tau q =>
                foldM (fun log_tau l =>
                         zjl <- at_ Z (col Rij) l ;;
                         g <- at_ Gamma q l ;;
                         m <- at_ M (row Rij) (col Rij) ;;
                         update log_tau (row Rij) q
                           (fun x =>
                              SFsub 53 1024 x
                                (SFmul 53 1024 zjl
                                   (log64 (SFadd 53 1024 one64
                                             (exp64 (SFadd 53 1024 g m)))))))
                      (seq 0 Q) log_tau)
             (seq 0 Q) log_tau)
    (sp_entries Robs) log_tau ;;
  log_tau <- each_row_plus log_tau (map log64 pi) ;;
  each_row softmax_row log_tau.

End WithLibm.

End ieee.

(** ** A C library

    An implementation of [exp] and [log] in binary64 arithmetic, in the
    manner of fdlibm: the values the standard fixes first, then argument
    reduction and a series.  It serves as an instance of [Libm]; nothing
    below depends on its last digits. *)

Definition underflow_threshold : binary64 := Eval vm_compute in of_Z (-746).
Definition ln2_64 : binary64 := S754_finite false 6243314768165359 (-53).
Definition ln2_hi : binary64 := S754_finite false 6243314766446592 (-53).
Definition ln2_lo : binary64 := S754_finite false 7382048951581814 (-85).
Definition inv_ln2 : binary64 := S754_finite false 6497320848556798 (-52).
Definition sqrt_half64 : binary64 := S754_finite false 6369051672525773 (-53).

(** The integer nearest to a finite [x], halves away from zero. *)
Definition nearest_Z (x : binary64) : Z :=
  match x with
  | S754_finite s _ _ =>
      match SFadd 53 1024 x (if s then SFopp half64 else half64) with
      | S754_finite s' m e => cond_Zopp s' (Z.shiftl (Zpos m) e)
      | _ => 0%Z
      end
  | _ => 0%Z
  end.

(** 1 + r/1 (1 + r/2 (... (1 + r/k))), the Taylor polynomial of exp. *)
Fixpoint exp_series (k : nat) (r acc : binary64) : binary64 :=
  match k with
  | O => acc
  | S k' =>
      exp_series k' r
        (SFadd 53 1024 one64
           (SFmul 53 1024 (SFdiv 53 1024 r (of_Z (Z.of_nat k))) acc))
  end.

(** exp(x) = 2^k exp(r) with x = k ln 2 + r. *)
Definition exp_reference (x : binary64) : binary64 :=
  match x with
  | S754_nan => S754_nan
  | S754_infinity false => S754_infinity false
  | S754_infinity true => S754_zero false
  | S754_zero _ => one64
  | S754_finite _ _ _ =>
      if SFleb overflow_threshold x then S754_infinity false
      else if SFleb x underflow_threshold then S754_zero false
      else
        let k := nearest_Z (SFmul 53 1024 x inv_ln2) in
        let r := SFsub 53 1024
                   (SFsub 53 1024 x (SFmul 53 1024 (of_Z k) ln2_hi))
                   (SFmul 53 1024 (of_Z k) ln2_lo) in
        SFldexp 53 1024 (exp_series 14 r one64) k
  end.

(** 1 + w/3 + w^2/5 + ..., so that atanh z = z (1 + z^2/3 + z^4/5 + ...). *)
Fixpoint atanh_series (k : nat) (w acc : binary64) : binary64 :=
  match k with
  | O => acc
  | S k' =>
      atanh_series k' w
        (SFadd 53 1024 (SFdiv 53 1024 one64 (of_Z (2 * Z.of_nat k' + 1)))
           (SFmul 53 1024 w acc))
  end.

(** log(x) = e ln 2 + 2 atanh((f - 1)/(f + 1)) with x = f 2^e and f between
    sqrt(1/2) and sqrt(2). *)
Definition log_reference (x : binary64) : binary64 :=
  match x with
  | S754_nan => S754_nan
  | S754_infinity false => S754_infinity false
  | S754_infinity true => S754_nan
  | S754_zero _ => S754_infinity true
  | S754_finite true _ _ => S754_nan
  | S754_finite false _ _ =>
      let (f, e) := SFfrexp 53 1024 x in
      let (f, e) :=
        if SFltb f sqrt_half64 then (SFldexp 53 1024 f 1, (e - 1)%Z)
        else (f, e) in
      let z := SFdiv 53 1024 (SFsub 53 1024 f one64) (SFadd 53 1024 f one64) in
      let s := atanh_series 12 (SFmul 53 1024 z z) zero64 in
      SFadd 53 1024 (SFmul 53 1024 (of_Z e) ln2_64)
        (SFmul 53 1024 (of_Z 2) (SFmul 53 1024 z s))
  end.

#[export] Instance reference_libm : Libm := {|
  exp64 := exp_reference;
  log64 := log_reference
|}.

(** ** Finite inputs whose penalty overflows

    Two nodes in two clusters, the dyad between them observed, no edge,
    Gamma = 0, pi = (1/2, 1/2), and the covariate effect M = 710 on the
    dyad: every entry is finite. *)
Definition overflow_Y2 : sp_mat binary64 := SpMat 2 2 [].
Definition overflow_R2 : sp_mat binary64 :=
  SpMat 2 2 [Nz 1 0 one64; Nz 0 1 one64].
Definition overflow_M2 : mat binary64 :=
  Mat 2 2 [zero64; overflow_threshold; overflow_threshold; zero64].
Definition overflow_Z2 : mat binary64 := Mat 2 2 [one64; zero64; zero64; one64].
Definition overflow_Gamma2 : mat binary64 :=
  Mat 2 2 [zero64; zero64; zero64; zero64].
Definition overflow_pi2 : vec binary64 := [half64; half64].

(** Neither NaN nor an infinity. *)
Definition is_finite (x : binary64) : bool :=
  match x with
  | S754_zero _ | S754_finite _ _ _ => true
  | _ => false
  end.

Definition mat_finite (A : mat binary64) : bool := forallb is_finite (mem A).

Definition sp_finite (S : sp_mat binary64) : bool :=
  forallb (fun e => is_finite (val e)) (sp_entries S).

(** Strictly between 0 and 1. *)
Definition unit64 (p : binary64) : bool := SFltb zero64 p && SFltb p one64.
(* ================================================================== *)
(** * Properties of the Armadillo fragment *)

Section ContainerFacts.

Context {T : Type} {ST : Scalar T}.

Lemma nth_map_seq (g : nat -> T) (n k : nat) (d : T) :
  (k < n)%nat -> nth k (map g (seq 0 n)) d = g k.
Proof.
  intros Hk.
  rewrite (nth_indep _ d (g 0%nat)) by (rewrite length_map, length_seq; exact Hk).
  rewrite map_nth, seq_nth by exact Hk.
  reflexivity.
Qed.

Lemma colmajor_index (r c i j : nat) :
  (i < r)%nat -> (j < c)%nat ->
  (i + j * r < r * c)%nat /\ ((i + j * r) mod r = i)%nat /\ ((i + j * r) / r = j)%nat.
Proof.
  intros Hi Hj.
  assert (Hr : r <> 0%nat) by lia.
  split; [nia|].
  split.
  - rewrite Nat.Div0.mod_add. apply Nat.mod_small; exact Hi.
  - rewrite Nat.div_add by exact Hr. rewrite Nat.div_small by exact Hi. reflexivity.
Qed.

Lemma elem_mat_init (r c : nat) (f : nat -> nat -> T) (i j : nat) :
  (i < r)%nat -> (j < c)%nat -> elem (mat_init r c f) i j = f i j.
Proof.
  intros Hi Hj.
  destruct (colmajor_index Hi Hj) as (Hlt & Hmod & Hdiv).
  unfold elem, mat_init; simpl.
  rewrite nth_map_seq by exact Hlt.
  rewrite Hmod, Hdiv. reflexivity.
Qed.

Lemma elem_mat_map (f : T -> T) (A : mat T) (i j : nat) :
  (i < n_rows A)%nat -> (j < n_cols A)%nat ->
  elem (mat_map f A) i j = f (elem A i j).
Proof.
  intros Hi Hj. unfold mat_map.
  rewrite elem_mat_init by assumption. reflexivity.
Qed.

Lemma elem_trans (A : mat T) (i j : nat) :
  (i < n_cols A)%nat -> (j < n_rows A)%nat -> elem (trans A) i j = elem A j i.
Proof.
  intros Hi Hj. unfold trans.
  rewrite elem_mat_init by assumption. reflexivity.
Qed.

Lemma check_true (b : bool) (e : exception) (A : Type) (k : unit -> result A) :
  b = true -> (x <- check b e ;; k x) = k tt.
Proof. intros ->. reflexivity. Qed.

Lemma check_false (b : bool) (e : exception) (A : Type) (k : unit -> result A) :
  b = false -> (x <- check b e ;; k x) = Raise e.
Proof. intros ->. reflexivity. Qed.

Lemma at_in_range (A : mat T) (i j : nat) :
  (i < n_rows A)%nat -> (j < n_cols A)%nat -> at_ A i j = Ok (elem A i j).
Proof.
  intros Hi Hj. unfold at_.
  apply check_true.
  apply andb_true_intro; split; apply Nat.ltb_lt; assumption.
Qed.

Lemma mat_zip_same (f : T -> T -> T) (A B : mat T) :
  n_rows A = n_rows B -> n_cols A = n_cols B ->
  mat_zip f A B =
  Ok (mat_init (n_rows A) (n_cols A) (fun i j => f (elem A i j) (elem B i j))).
Proof.
  intros Hr Hc. unfold mat_zip.
  apply check_true. unfold same_size.
  apply andb_true_intro; split; apply Nat.eqb_eq; assumption.
Qed.

Lemma times_conform (A B : mat T) :
  n_cols A = n_rows B ->
  times A B =
  Ok (mat_init (n_rows A) (n_cols B)
        (fun i k => accumulate (fun j => smul (elem A i j) (elem B j k)) (n_cols A))).
Proof. intros H. unfold times. apply check_true, Nat.eqb_eq, H. Qed.

Lemma times_sp_conform (A : mat T) (S : sp_mat T) :
  n_cols A = sp_n_rows S ->
  times_sp A S =
  Ok (mat_init (n_rows A) (sp_n_cols S)
        (fun i j =>
           fold_left
             (fun acc e =>
                if col e =? j then sadd acc (smul (elem A i (row e)) (val e)) else acc)
             (sp_entries S) szero)).
Proof. intros H. unfold times_sp. apply check_true, Nat.eqb_eq, H. Qed.

Lemma sp_times_conform (S : sp_mat T) (B : mat T) :
  sp_n_cols S = n_rows B ->
  sp_times S B =
  Ok (mat_init (sp_n_rows S) (n_cols B)
        (fun i k =>
           fold_left
             (fun acc e =>
                if row e =? i then sadd acc (smul (val e) (elem B (col e) k)) else acc)
             (sp_entries S) szero)).
Proof. intros H. unfold sp_times. apply check_true, Nat.eqb_eq, H. Qed.

Lemma foldM_filter (A B : Type) (p : A -> bool) (f : B -> A -> result B)
    (l : list A) (b : B) :
  foldM (fun b x => if p x then f b x else Ok b) l b = foldM f (filter p l) b.
Proof.
  revert b. induction l as [|x l IH]; intros b; simpl; [reflexivity|].
  destruct (p x); simpl.
  - destruct (f b x); simpl; [apply IH | reflexivity].
  - apply IH.
Qed.

End ContainerFacts.

Section RealSums.

Lemma big_ext (n : nat) (f g : nat -> R) :
  (forall k, (k < n)%nat -> f k = g k) -> big n f = big n g.
Proof.
  induction n as [|n IH]; intros H; simpl; [reflexivity|].
  rewrite IH by (intros k Hk; apply H; lia).
  rewrite H by lia. reflexivity.
Qed.

Lemma big_zero (n : nat) : big n (fun _ => 0) = 0.
Proof. induction n as [|n IH]; simpl; [reflexivity | rewrite IH; lra]. Qed.

Lemma big_plus (n : nat) (f g : nat -> R) :
  big n (fun k => f k + g k) = big n f + big n g.
Proof. induction n as [|n IH]; simpl; [lra | rewrite IH; lra]. Qed.

Lemma big_scal_r (n : nat) (c : R) (f : nat -> R) :
  big n (fun k => f k * c) = big n f * c.
Proof. induction n as [|n IH]; simpl; [lra | rewrite IH; lra]. Qed.

Lemma big_swap (n m : nat) (f : nat -> nat -> R) :
  big n (fun i => big m (fun j => f i j)) = big m (fun j => big n (fun i => f i j)).
Proof.
  induction n as [|n IH]; simpl.
  - rewrite big_zero. reflexivity.
  - rewrite IH, <- big_plus. reflexivity.
Qed.

(** A sum whose only non-zero term is at [i]. *)
Lemma big_delta (n i : nat) (f : nat -> R) :
  (i < n)%nat -> big n (fun k => if (k =? i)%nat then f k else 0) = f i.
Proof.
  induction n as [|n IH]; intros Hi; [lia|]. simpl.
  destruct (Nat.eqb_spec n i) as [->|Hne].
  - rewrite big_ext with (g := fun _ => 0).
    + rewrite big_zero. lra.
    + intros k Hk. destruct (Nat.eqb_spec k i); [lia | reflexivity].
  - rewrite IH by lia. lra.
Qed.

Lemma big_nonneg (n : nat) (f : nat -> R) :
  (forall k, (k < n)%nat -> 0 <= f k) -> 0 <= big n f.
Proof.
  induction n as [|n IH]; intros H; simpl; [lra|].
  assert (0 <= big n f) by (apply IH; intros k Hk; apply H; lia).
  assert (0 <= f n) by (apply H; lia).
  lra.
Qed.

Lemma lsum_app (l1 l2 : list R) : lsum (l1 ++ l2) = lsum l1 + lsum l2.
Proof. induction l1 as [|x l1 IH]; simpl; [lra | rewrite IH; lra]. Qed.

Lemma fold_left_Rplus (l : list R) (a : R) : fold_left Rplus l a = a + lsum l.
Proof.
  revert a. induction l as [|x l IH]; intros a; simpl; [lra|].
  rewrite IH. lra.
Qed.

Lemma vsum_lsum (l : vec R) : vsum l = lsum l.
Proof. unfold vsum. simpl. rewrite fold_left_Rplus. lra. Qed.

Lemma lsum_map_seq (g : nat -> R) (a n : nat) :
  lsum (map g (seq a n)) = big n (fun i => g (a + i)%nat).
Proof.
  induction n as [|n IH]; [reflexivity|].
  rewrite seq_S, map_app, lsum_app, IH. simpl. lra.
Qed.

End RealSums.

(* ================================================================== *)
(** * The quadratic form Z'SZ *)

Section SandwichFacts.

Context {T : Type} {ST : Scalar T}.

(** With conforming shapes the two products succeed and build [ZtSZ]. *)
Lemma sandwich_ok (S : sp_mat T) (Z : mat T) :
  sp_n_rows S = n_rows Z -> sp_n_cols S = n_rows Z ->
  (A <- times_sp (trans Z) S ;; times A Z) = Ok (ZtSZ S Z).
Proof.
  intros Hr Hc.
  rewrite times_sp_conform by (simpl; symmetry; exact Hr).
  simpl bind.
  rewrite times_conform by (simpl; exact Hc).
  simpl n_rows. simpl n_cols.
  unfold ZtSZ, ZtS. rewrite Hc. reflexivity.
Qed.

Lemma sandwich_value (S : sp_mat T) (Z : mat T) :
  sp_n_rows S = n_rows Z -> sp_n_cols S = n_rows Z ->
  sandwich S Z = Ok (ZtSZ S Z).
Proof. exact (sandwich_ok S Z). Qed.

Lemma bind_Ok (A B : Type) (a : A) (k : A -> result B) :
  bind (Ok a) k = k a.
Proof. reflexivity. Qed.

Lemma bind_assoc (A B C : Type) (c : result A) (k : A -> result B)
    (h : B -> result C) :
  (y <- (x <- c ;; k x) ;; h y) = (x <- c ;; y <- k x ;; h y).
Proof. destruct c; reflexivity. Qed.

(** The closed-form M-step on conforming inputs: the element-wise quotient
    of the two quadratic forms, with no guard on the divisor. *)
Lemma M_step_closed_form (Y Robs : sp_mat T) (Z : mat T) :
  sp_n_rows Y = n_rows Z -> sp_n_cols Y = n_rows Z ->
  sp_n_rows Robs = n_rows Z -> sp_n_cols Robs = n_rows Z ->
  M_step_sparse_bernoulli_undirected_nocovariate Y Robs Z =
  Ok (mat_init (n_cols Z) (n_cols Z)
        (fun q l => sdiv (elem (ZtSZ Y Z) q l) (elem (ZtSZ Robs Z) q l))).
Proof.
  intros HYr HYc HRr HRc.
  unfold M_step_sparse_bernoulli_undirected_nocovariate.
  rewrite <- bind_assoc, sandwich_ok by assumption. simpl bind.
  rewrite <- bind_assoc, sandwich_ok by assumption. simpl bind.
  unfold ediv. rewrite mat_zip_same by reflexivity.
  reflexivity.
Qed.

End SandwichFacts.

Section SparseSums.

Lemma fold_left_cond (A : Type) (c : A -> bool) (g : A -> R) (l : list A) (a : R) :
  fold_left (fun acc e => if c e then acc + g e else acc) l a =
  a + lsum (map (fun e => if c e then g e else 0) l).
Proof.
  revert a. induction l as [|x l IH]; intros a; simpl; [lra|].
  rewrite IH. destruct (c x); lra.
Qed.

Lemma accumulate_big (f : nat -> R) (n : nat) : accumulate f n = big n f.
Proof.
  unfold accumulate. simpl.
  induction n as [|n IH]; [reflexivity|].
  rewrite seq_S, fold_left_app, IH. reflexivity.
Qed.

Lemma sp_find_before (e : nonzero R) (l : list (nonzero R)) :
  forallb (before e) l = true -> sp_find l (row e) (col e) = None.
Proof.
  induction l as [|x l IH]; intros H; simpl in *; [reflexivity|].
  apply andb_prop in H. destruct H as [Hb Hl].
  unfold before in Hb.
  destruct (Nat.eqb_spec (row x) (row e)) as [Er|Nr];
    destruct (Nat.eqb_spec (col x) (col e)) as [Ec|Nc]; simpl; auto.
  exfalso. rewrite Er, Ec in *.
  rewrite Nat.ltb_irrefl, Nat.eqb_refl in Hb. simpl in Hb.
  rewrite Nat.ltb_irrefl in Hb. discriminate.
Qed.

(** A double sum whose only non-zero term is at [(i0, j0)]. *)
Lemma big_delta2 (r c i0 j0 : nat) (x : R) :
  (i0 < r)%nat -> (j0 < c)%nat ->
  big r (fun i => big c (fun j =>
    if ((i0 =? i) && (j0 =? j))%nat then x else 0)) = x.
Proof.
  intros Hi Hj.
  rewrite big_ext with (g := fun i => if (i =? i0)%nat then x else 0).
  - rewrite big_delta with (f := fun _ => x) by exact Hi. reflexivity.
  - intros i _. rewrite (Nat.eqb_sym i0 i).
    destruct (i =? i0)%nat; simpl.
    + rewrite big_ext with (g := fun j => if (j =? j0)%nat then x else 0).
      * rewrite big_delta with (f := fun _ => x) by exact Hj. reflexivity.
      * intros j _. rewrite (Nat.eqb_sym j0 j). reflexivity.
    + apply big_zero.
Qed.

(** Summing over the stored elements is summing over all positions. *)
Lemma lsum_entries (r c : nat) (g : nat -> nat -> R -> R) (l : list (nonzero R)) :
  forallb (in_range r c) l = true -> sortedb l = true ->
  lsum (map (fun e => g (row e) (col e) (val e)) l) =
  big r (fun i => big c (fun j =>
    match sp_find l i j with Some v => g i j v | None => 0 end)).
Proof.
  induction l as [|e l IH]; intros Hr Hs.
  - simpl. rewrite big_ext with (g := fun _ => 0).
    + rewrite big_zero. reflexivity.
    + intros i _. apply big_zero.
  - simpl in Hr, Hs.
    apply andb_prop in Hr. destruct Hr as [He Hr].
    apply andb_prop in Hs. destruct Hs as [Hb Hs].
    apply andb_prop in He. destruct He as [Hei Hej].
    apply Nat.ltb_lt in Hei. apply Nat.ltb_lt in Hej.
    simpl map. simpl lsum. rewrite IH by assumption.
    rewrite <- (big_delta2 (g (row e) (col e) (val e)) Hei Hej) at 1.
    rewrite <- big_plus. apply big_ext. intros i Hi.
    rewrite <- big_plus. apply big_ext. intros j Hj.
    simpl sp_find.
    destruct (Nat.eqb_spec (row e) i) as [Ei|Ni];
      destruct (Nat.eqb_spec (col e) j) as [Ej|Nj]; simpl; try lra.
    subst i j. rewrite (sp_find_before e l Hb). lra.
Qed.

End SparseSums.

Section QuadraticForm.

Variables (S : sp_mat R) (Z : mat R).
Hypothesis S_wf : sp_wf S = true.
Hypothesis S_rows : sp_n_rows S = n_rows Z.
Hypothesis S_cols : sp_n_cols S = n_rows Z.

Lemma ZtS_elem (q j : nat) :
  (q < n_cols Z)%nat -> (j < n_rows Z)%nat ->
  elem (ZtS S Z) q j = big (n_rows Z) (fun i => elem Z i q * sp_elem S i j).
Proof.
  intros Hq Hj.
  unfold sp_wf in S_wf. apply andb_prop in S_wf. destruct S_wf as [Hrange Hsorted].
  unfold ZtS. rewrite elem_mat_init by (try rewrite S_cols; assumption).
  simpl.
  rewrite (fold_left_cond (fun e => (col e =? j)%nat)
             (fun e => elem (trans Z) q (row e) * val e)).
  rewrite lsum_entries
    with (r := sp_n_rows S) (c := sp_n_cols S)
         (g := fun i j' v => if (j' =? j)%nat then elem (trans Z) q i * v else 0)
    by assumption.
  rewrite S_rows, S_cols, Rplus_0_l.
  apply big_ext. intros i Hi.
  rewrite big_ext
    with (g := fun j' => if (j' =? j)%nat
                         then elem (trans Z) q i * sp_elem S i j' else 0).
  - rewrite big_delta
      with (f := fun j' => elem (trans Z) q i * sp_elem S i j') by exact Hj.
    rewrite elem_trans by assumption. reflexivity.
  - intros j' _. unfold sp_elem.
    destruct (sp_find (sp_entries S) i j'); destruct (j' =? j)%nat; simpl; lra.
Qed.

(** The matrix the two products build holds the quadratic form. *)
Lemma ZtSZ_elem (q l : nat) :
  (q < n_cols Z)%nat -> (l < n_cols Z)%nat ->
  elem (ZtSZ S Z) q l = quad_form S Z q l.
Proof.
  intros Hq Hl.
  unfold ZtSZ. rewrite elem_mat_init by assumption.
  rewrite accumulate_big. unfold quad_form.
  rewrite big_swap. apply big_ext. intros j Hj.
  simpl. rewrite ZtS_elem by assumption.
  rewrite <- big_scal_r. reflexivity.
Qed.

End QuadraticForm.

Section DenseSums.

Lemma accu_mat_init (r c : nat) (f : nat -> nat -> R) :
  accu (mat_init r c f) = big c (fun j => big r (fun i => f i j)).
Proof.
  unfold accu, mat_init. simpl mem. rewrite vsum_lsum.
  induction c as [|c IH].
  - rewrite Nat.mul_0_r. reflexivity.
  - replace (r * S c)%nat with (r * c + r)%nat by lia.
    rewrite seq_app, map_app, lsum_app, IH. simpl big. f_equal.
    rewrite lsum_map_seq. apply big_ext. intros i Hi. simpl.
    replace (r * c + i)%nat with (i + c * r)%nat by lia.
    assert (Hc : (c < S c)%nat) by lia.
    destruct (colmajor_index Hi Hc) as (_ & Hmod & Hdiv).
    rewrite Hmod, Hdiv. reflexivity.
Qed.

Lemma nth_map_ln (pi : vec R) (q : nat) :
  (q < length pi)%nat -> nth q (map ln pi) 0 = ln (nth q pi 0).
Proof.
  intros Hq.
  rewrite (nth_indep _ 0 (ln 0)) by (rewrite length_map; exact Hq).
  apply map_nth.
Qed.

(** [accu(Z * log(pi))] is the cluster-prior term. *)
Lemma prior_ok (Z : mat R) (pi : vec R) :
  length pi = n_cols Z ->
  exists c, times Z (colvec (map ln pi)) = Ok c /\ accu c = prior_term Z pi.
Proof.
  intros Hpi. eexists. split.
  - apply times_conform. simpl. rewrite length_map. symmetry. exact Hpi.
  - rewrite accu_mat_init. simpl. rewrite Rplus_0_l.
    unfold prior_term. apply big_ext. intros i Hi.
    rewrite accumulate_big. apply big_ext. intros q Hq. simpl.
    unfold elem at 2. simpl. rewrite Nat.add_0_r.
    rewrite nth_map_ln by lia. reflexivity.
Qed.

(** [accu(Z.t() * S * Z % W)] for a weight matrix [W] with entries [w]. *)
Lemma weighted_ok (S : sp_mat R) (Z W : mat R) (w : nat -> nat -> R) :
  sp_wf S = true -> sp_n_rows S = n_rows Z -> sp_n_cols S = n_rows Z ->
  n_rows W = n_cols Z -> n_cols W = n_cols Z ->
  (forall q l, (q < n_cols Z)%nat -> (l < n_cols Z)%nat -> elem W q l = w q l) ->
  exists a, schur (ZtSZ S Z) W = Ok a /\ accu a = weighted_sum S Z w.
Proof.
  intros Hwf Hr Hc HWr HWc HW. eexists. split.
  - apply mat_zip_same; simpl; symmetry; assumption.
  - rewrite accu_mat_init. simpl n_rows. simpl n_cols.
    unfold weighted_sum. rewrite big_swap.
    apply big_ext. intros q Hq. apply big_ext. intros l Hl.
    simpl. rewrite ZtSZ_elem, HW by assumption. reflexivity.
Qed.

End DenseSums.

(** The three sums both no-covariate evaluators combine. *)
Section NoCovariateTerms.

Variables (N Q : nat) (Y Robs : sp_mat R) (Z theta : mat R) (pi : vec R).
Hypothesis Y_dims : sp_has_dims Y N N.
Hypothesis Y_wf : sp_wf Y = true.
Hypothesis R_dims : sp_has_dims Robs N N.
Hypothesis R_wf : sp_wf Robs = true.
Hypothesis Z_dims : has_dims Z N Q.
Hypothesis theta_dims : has_dims theta Q Q.
Hypothesis pi_length : length pi = Q.

(** Both evaluators run the same steps: two quadratic forms, each weighted
    entry by entry and summed, and the prior term. *)
Lemma nocovariate_terms :
  exists a b c,
    (A <- times_sp (trans Z) Y ;; times A Z) = Ok (ZtSZ Y Z) /\
    ediv theta (mat_map (fun x => 1 - x) theta)
    = Ok (mat_init (n_rows theta) (n_cols theta)
            (fun i j => elem theta i j
                        / elem (mat_map (fun x => 1 - x) theta) i j)) /\
    schur (ZtSZ Y Z)
      (mat_map ln
         (mat_init (n_rows theta) (n_cols theta)
            (fun i j => elem theta i j
                        / elem (mat_map (fun x => 1 - x) theta) i j))) = Ok a /\
    (A <- times_sp (trans Z) Robs ;; times A Z) = Ok (ZtSZ Robs Z) /\
    schur (ZtSZ Robs Z) (mat_map ln (mat_map (fun x => 1 - x) theta)) = Ok b /\
    times Z (colvec (map ln pi)) = Ok c /\
    accu a = weighted_sum Y Z (fun q l => ln (elem theta q l / (1 - elem theta q l))) /\
    accu b = weighted_sum Robs Z (fun q l => ln (1 - elem theta q l)) /\
    accu c = prior_term Z pi.
Proof.
  destruct Y_dims as (HYr & HYc). destruct R_dims as (HRr & HRc).
  destruct Z_dims as (HZr & HZc & _). destruct theta_dims as (Htr & Htc & _).
  destruct (@weighted_ok Y Z
              (mat_map ln
                 (mat_init (n_rows theta) (n_cols theta)
                    (fun i j => elem theta i j
                                / elem (mat_map (fun x => 1 - x) theta) i j)))
              (fun q l => ln (elem theta q l / (1 - elem theta q l))))
    as (a & Ha & Hacca); try (simpl; congruence).
  { intros q l Hq Hl.
    rewrite elem_mat_map by (simpl; congruence).
    rewrite elem_mat_init by congruence.
    rewrite elem_mat_map by congruence. reflexivity. }
  destruct (@weighted_ok Robs Z
              (mat_map ln (mat_map (fun x => 1 - x) theta))
              (fun q l => ln (1 - elem theta q l)))
    as (b & Hb & Haccb); try (simpl; congruence).
  { intros q l Hq Hl.
    rewrite elem_mat_map by (simpl; congruence).
    rewrite elem_mat_map by congruence. reflexivity. }
  destruct (@prior_ok Z pi) as (c & Hc & Haccc); [congruence|].
  exists a, b, c.
  repeat split; try assumption.
  - apply sandwich_ok; congruence.
  - unfold ediv. apply mat_zip_same; reflexivity.
  - apply sandwich_ok; congruence.
Qed.

Ltac run_terms :=
  destruct nocovariate_terms
    as (a & b & c & HY & Hodds & Ha & HR & Hb & Hc & Hacca & Haccb & Haccc);
  rewrite <- bind_assoc, HY, bind_Ok;
  rewrite Hodds, bind_Ok, Ha, bind_Ok;
  rewrite <- bind_assoc, HR, bind_Ok;
  rewrite Hb, bind_Ok, Hc, bind_Ok;
  rewrite Hacca, Haccb, Haccc.

Lemma vLL_directed_value :
  vLL_complete_sparse_bernoulli_directed_nocovariate Y Robs Z theta pi =
  Ok (weighted_sum Y Z (fun q l => ln (elem theta q l / (1 - elem theta q l)))
      + weighted_sum Robs Z (fun q l => ln (1 - elem theta q l))
      + prior_term Z pi).
Proof.
  unfold vLL_complete_sparse_bernoulli_directed_nocovariate.
  run_terms. reflexivity.
Qed.

Lemma vLL_undirected_value :
  vLL_complete_sparse_bernoulli_undirected_nocovariate Y Robs Z theta pi =
  Ok (spec_vLL_undirected Y Robs Z theta pi).
Proof.
  unfold vLL_complete_sparse_bernoulli_undirected_nocovariate.
  run_terms. reflexivity.
Qed.

End NoCovariateTerms.

Section ClosedFormFacts.

Context {T : Type} {ST : Scalar T}.

Lemma mat_init_dims (r c : nat) (f : nat -> nat -> T) :
  has_dims (mat_init r c f) r c.
Proof.
  repeat split. unfold mat_init. simpl.
  rewrite length_map, length_seq. reflexivity.
Qed.

(** On conforming inputs the M-step returns a Q x Q matrix whose entries
    are the quotients of the entries of the two products. *)
Lemma M_step_entries (N Q : nat) (Y Robs : sp_mat T) (Z : mat T) :
  sp_has_dims Y N N -> sp_has_dims Robs N N -> has_dims Z N Q ->
  exists theta,
    M_step_sparse_bernoulli_undirected_nocovariate Y Robs Z = Ok theta /\
    has_dims theta Q Q /\
    forall q l, (q < Q)%nat -> (l < Q)%nat ->
      elem theta q l = sdiv (elem (ZtSZ Y Z) q l) (elem (ZtSZ Robs Z) q l).
Proof.
  intros (HYr & HYc) (HRr & HRc) (HZr & HZc & _).
  eexists. split; [|split].
  - apply M_step_closed_form; congruence.
  - rewrite HZc. apply mat_init_dims.
  - intros q l Hq Hl. rewrite elem_mat_init by congruence. reflexivity.
Qed.

End ClosedFormFacts.

(** In real arithmetic the entries are the quotients of the quadratic
    forms. *)
Lemma M_step_real_entries (N Q : nat) (Y Robs : sp_mat R) (Z : mat R) :
  sp_has_dims Y N N -> sp_wf Y = true ->
  sp_has_dims Robs N N -> sp_wf Robs = true -> has_dims Z N Q ->
  exists theta,
    M_step_sparse_bernoulli_undirected_nocovariate Y Robs Z = Ok theta /\
    has_dims theta Q Q /\
    forall q l, (q < Q)%nat -> (l < Q)%nat ->
      elem theta q l = quad_form Y Z q l / quad_form Robs Z q l.
Proof.
  intros HY HYwf HR HRwf HZ.
  destruct (M_step_entries HY HR HZ) as (theta & Hok & Hdims & Hentries).
  exists theta. split; [exact Hok|]. split; [exact Hdims|].
  intros q l Hq Hl. rewrite Hentries by assumption.
  destruct HY as (HYr & HYc). destruct HR as (HRr & HRc).
  destruct HZ as (HZr & HZc & _).
  rewrite !ZtSZ_elem by congruence. reflexivity.
Qed.

(** IEEE-754 division by a zero. *)
Lemma SFdiv_by_zero (n d : binary64) :
  is_zero d = true -> SFdiv 53 1024 n d = quotient_by_zero n d.
Proof.
  destruct d; try discriminate. intros _.
  destruct n; reflexivity.
Qed.

(* ================================================================== *)
(** * The row-wise softmax *)

Section Softmax.


Lemma mapM_pure (A B : Type) (f : A -> result B) (g : A -> B) (l : list A) :
  (forall x, In x l -> f x = Ok (g x)) -> mapM f l = Ok (map g l).
Proof.
  induction l as [|x l IH]; intros Hf; simpl; [reflexivity|].
  rewrite Hf by (left; reflexivity). simpl.
  rewrite IH by (intros y Hy; apply Hf; right; exact Hy).
  reflexivity.
Qed.


Lemma lsum_scal_r (e : R -> R) (c : R) (x : list R) :
  lsum (map (fun v => e v * c) x) = lsum (map e x) * c.
Proof. induction x as [|a x IH]; simpl; [lra | rewrite IH; lra]. Qed.

Lemma lsum_pos (e : R -> R) (x : list R) :
  x <> [] -> (forall v, 0 < e v) -> 0 < lsum (map e x).
Proof.
  intros Hx He. destruct x as [|a x]; [congruence|]. clear Hx.
  simpl. assert (0 <= lsum (map e x)).
  { induction x as [|b x IH]; simpl; [lra|]. specialize (He b). lra. }
  specialize (He a). lra.
Qed.


Lemma softmax_row_ok (x : vec R) : x <> [] -> softmax_row x = Ok (softmax x).
Proof. destruct x as [|a l]; [congruence|]. reflexivity. Qed.

Lemma softmax_row_empty : softmax_row [] = Raise no_elements.
Proof. reflexivity. Qed.

Lemma softmax_length (x : vec R) : length (softmax x) = length x.
Proof. destruct x as [|a l]; [reflexivity|]. unfold softmax. apply length_map. Qed.

Lemma softmax_shape (x : vec R) :
  x <> [] ->
  exists m s, 0 < s /\ s = lsum (map (fun v => exp (v - m)) x) /\
              softmax x = map (fun v => exp (v - m) / s) x.
Proof.
  intros Hx. destruct x as [|a l]; [congruence|].
  exists (fold_left Rmax l a), (vsum (map (fun v => exp (v - fold_left Rmax l a)) (a :: l))).
  split; [|split].
  - rewrite vsum_lsum.
    apply lsum_pos with (e := fun v => exp (v - fold_left Rmax l a)); [congruence|].
    intros v. apply exp_pos.
  - apply vsum_lsum.
  - reflexivity.
Qed.



End Softmax.

Section EachRow.

Lemma row_nonempty (A : mat R) (i : nat) :
  (0 < n_cols A)%nat -> map (fun j => elem A i j) (seq 0 (n_cols A)) <> [].
Proof.
  intros HQ E. apply (f_equal (@length R)) in E.
  rewrite length_map, length_seq in E. simpl in E. lia.
Qed.



(** A loop that keeps an invariant returns, and the invariant holds of what
    it returns. *)
Lemma foldM_invariant (A B : Type) (P : B -> Prop) (f : B -> A -> result B)
    (l : list A) (b : B) :
  (forall x b0, In x l -> P b0 -> exists b1, f b0 x = Ok b1 /\ P b1) ->
  P b -> exists b', foldM f l b = Ok b' /\ P b'.
Proof.
  revert b. induction l as [|x l IH]; intros b Hf Hb; simpl.
  - exists b. split; [reflexivity | exact Hb].
  - destruct (Hf x b (or_introl eq_refl) Hb) as (b1 & E1 & Hb1).
    rewrite E1. simpl. apply IH; [|exact Hb1].
    intros y b0 Hy. apply Hf. right; exact Hy.
Qed.


Lemma wf_in_range (T : Type) (S : sp_mat T) (e : nonzero T) :
  sp_wf S = true -> In e (sp_entries S) ->
  (row e < sp_n_rows S)%nat /\ (col e < sp_n_cols S)%nat.
Proof.
  intros Hwf He. unfold sp_wf in Hwf.
  apply andb_prop in Hwf. destruct Hwf as (Hr & _).
  rewrite forallb_forall in Hr. specialize (Hr e He).
  unfold in_range in Hr. apply andb_prop in Hr. destruct Hr as (Hi & Hj).
  split; apply Nat.ltb_lt; assumption.
Qed.

End EachRow.

Section ExpectationSteps.


Lemma each_row_plus_conform (A : mat R) (v : vec R) :
  length v = n_cols A ->
  each_row_plus A v =
  Ok (mat_init (n_rows A) (n_cols A) (fun i j => elem A i j + nth j v 0)).
Proof. intros H. unfold each_row_plus. apply check_true, Nat.eqb_eq, H. Qed.

Variables (N Q : nat) (Y Robs : sp_mat R) (M Z theta Gamma : mat R) (pi : vec R).
Hypothesis Y_dims : sp_has_dims Y N N.
Hypothesis R_dims : sp_has_dims Robs N N.
Hypothesis Z_dims : has_dims Z N Q.
Hypothesis pi_length : length pi = Q.
Hypothesis Q_pos : (0 < Q)%nat.







End ExpectationSteps.

(* ================================================================== *)
(** * The dyad loop of the covariate M-step *)

Section DyadPieces.

Lemma tube_in_range (X : cube R) (i j : nat) :
  (i < c_n_rows X)%nat -> (j < c_n_cols X)%nat ->
  tube X i j = Ok (map (fun k => cube_elem X i j k) (seq 0 (n_slices X))).
Proof.
  intros Hi Hj. unfold tube. apply check_true.
  apply andb_true_intro; split; apply Nat.ltb_lt; assumption.
Qed.

Lemma get_row_in_range (A : mat R) (i : nat) :
  (i < n_rows A)%nat ->
  get_row A i = Ok (map (fun j => elem A i j) (seq 0 (n_cols A))).
Proof. intros Hi. unfold get_row. apply check_true, Nat.ltb_lt, Hi. Qed.

Lemma sp_at_in_range (S : sp_mat R) (i j : nat) :
  (i < sp_n_rows S)%nat -> (j < sp_n_cols S)%nat -> sp_at S i j = Ok (sp_elem S i j).
Proof.
  intros Hi Hj. unfold sp_at. apply check_true.
  apply andb_true_intro; split; apply Nat.ltb_lt; assumption.
Qed.

(** [as_scalar(beta.t() * phi)] is the dot product. *)
Lemma dot_ok (beta phi : vec R) :
  length beta = length phi ->
  (bphi <- times (trans (colvec beta)) (colvec phi) ;; as_scalar bphi) =
  Ok (big (length beta) (fun k => nth k beta 0 * nth k phi 0)).
Proof.
  intros Hlen.
  rewrite times_conform by (simpl; exact Hlen). simpl bind.
  unfold as_scalar. rewrite check_true by reflexivity.
  rewrite elem_mat_init by (simpl; lia).
  rewrite accumulate_big. simpl n_cols. simpl n_rows. f_equal.
  apply big_ext. intros k Hk.
  rewrite elem_trans by (simpl; lia).
  unfold elem, colvec. simpl. rewrite !Nat.add_0_r. reflexivity.
Qed.

(** [zi.t() * zj] for two rows is their outer product. *)
Lemma outer_ok (zi zj : vec R) :
  exists P,
    times (trans (rowvec zi)) (rowvec zj) = Ok P /\
    n_rows P = length zi /\ n_cols P = length zj /\
    forall q l, (q < length zi)%nat -> (l < length zj)%nat ->
      elem P q l = nth q zi 0 * nth l zj 0.
Proof.
  eexists. split; [apply times_conform; reflexivity|].
  split; [reflexivity|]. split; [reflexivity|].
  intros q l Hq Hl.
  rewrite elem_mat_init by (simpl; assumption).
  rewrite accumulate_big. simpl big.
  rewrite elem_trans by (simpl; lia).
  unfold elem, rowvec. simpl. rewrite !Nat.mul_1_r. lra.
Qed.

Lemma nth_vec_plus (u v : vec R) (k : nat) :
  length u = length v -> (k < length u)%nat ->
  nth k (map (fun p => fst p + snd p) (combine u v)) 0 = nth k u 0 + nth k v 0.
Proof.
  intros Hlen Hk.
  rewrite (nth_indep _ 0 ((fun p => fst p + snd p) (0, 0)))
    by (rewrite length_map, length_combine; lia).
  rewrite (map_nth (fun p => fst p + snd p)).
  rewrite combine_nth by exact Hlen. reflexivity.
Qed.

Lemma vec_plus_conform (u v : vec R) :
  length u = length v ->
  vec_plus u v = Ok (map (fun p => fst p + snd p) (combine u v)).
Proof. intros H. unfold vec_plus. apply check_true, Nat.eqb_eq, H. Qed.

End DyadPieces.

Section DyadUpdate.

Variables (N Q K : nat) (param : vec R) (Y Robs : sp_mat R) (X : cube R)
          (Z gamma : mat R) (beta : vec R).
Hypothesis Y_dims : sp_has_dims Y N N.
Hypothesis X_dims : cube_has_dims X N N K.
Hypothesis Z_dims : has_dims Z N Q.
Hypothesis gamma_rows : n_rows gamma = Q.
Hypothesis gamma_cols : n_cols gamma = Q.
Hypothesis gamma_elem :
  forall q l, (q < Q)%nat -> (l < Q)%nat -> elem gamma q l = Gamma_of param Z q l.
Hypothesis beta_length : length beta = K.
Hypothesis beta_elem :
  forall k, (k < K)%nat -> nth k beta 0 = beta_of param Z k.

(** One run of the loop body adds the dyad's log-density to [loglik], its
    residual matrix to [gr_gamma] and its weighted features to [gr_beta]. *)
Lemma dyad_update_ok (acc : accumulators) (i j : nat) :
  acc_shape Q K acc -> (i < N)%nat -> (j < N)%nat ->
  exists acc',
    dyad_update Y X Z gamma beta acc i j = Ok acc' /\
    acc_shape Q K acc' /\
    loglik acc' = loglik acc + log_density param Y X Z i j /\
    (forall q l, (q < Q)%nat -> (l < Q)%nat ->
       elem (gr_gamma acc') q l
       = elem (gr_gamma acc) q l + residual param Y X Z i j q l) /\
    (forall k, (k < K)%nat ->
       nth k (gr_beta acc') 0
       = nth k (gr_beta acc) 0
         + big Q (fun q => big Q (fun l => residual param Y X Z i j q l))
           * cube_elem X i j k).
Proof.
  intros ((HGr & HGc & HGlen) & HBlen) Hi Hj.
  destruct Y_dims as (HYr & HYc).
  destruct X_dims as (HXr & HXc & HXk & _).
  destruct Z_dims as (HZr & HZc & _).
  unfold dyad_update.
  rewrite tube_in_range by lia. rewrite !bind_Ok; cbv beta zeta.
  rewrite <- bind_assoc, dot_ok by (rewrite length_map, length_seq; congruence).
  rewrite !bind_Ok; cbv beta zeta.
  rewrite !get_row_in_range by lia. rewrite !bind_Ok; cbv beta zeta.
  destruct (outer_ok (map (fun q => elem Z i q) (seq 0 (n_cols Z)))
                     (map (fun q => elem Z j q) (seq 0 (n_cols Z))))
    as (P & HP & HPr & HPc & HPe).
  rewrite !length_map, !length_seq in HPr, HPc, HPe.
  rewrite HP. rewrite !bind_Ok; cbv beta zeta.
  rewrite sp_at_in_range by lia. rewrite !bind_Ok; cbv beta zeta.
  assert (Hmu : big (length beta)
                  (fun k => nth k beta 0
                            * nth k (map (fun k0 => cube_elem X i j k0)
                                       (seq 0 (n_slices X))) 0)
                = mu_of param X Z i j).
  { unfold mu_of. rewrite beta_length, HXk. apply big_ext. intros k Hk.
    rewrite beta_elem by exact Hk.
    rewrite nth_map_seq by lia. reflexivity. }
  rewrite Hmu. clear Hmu.
  set (mu := mu_of param X Z i j).
  set (y := sp_elem Y i j).
  rewrite mat_zip_same by reflexivity. rewrite !bind_Ok; cbv beta zeta.
  unfold schur, eplus.
  rewrite mat_zip_same by (simpl; congruence). rewrite !bind_Ok; cbv beta zeta.
  rewrite mat_zip_same by (simpl; congruence). rewrite !bind_Ok; cbv beta zeta.
  rewrite mat_zip_same by (simpl; congruence). rewrite !bind_Ok; cbv beta zeta.
  rewrite vec_plus_conform
    by (rewrite length_map, length_map, length_seq; congruence).
  rewrite !bind_Ok; cbv beta zeta.
  assert (HPZ : forall q l, (q < Q)%nat -> (l < Q)%nat ->
                  elem P q l = elem Z i q * elem Z j l).
  { intros q l Hq Hl.
    rewrite HPe by (rewrite ?length_map, ?length_seq; lia).
    rewrite !nth_map_seq by lia. reflexivity. }
  assert (Hdelta : forall q l, (q < Q)%nat -> (l < Q)%nat ->
            elem (mat_init (n_rows P) (n_cols P)
                    (fun i0 j0 =>
                       smul (elem P i0 j0)
                         (elem (mat_map (fun x => y - x)
                                  (mat_map (fun x => 1 / x)
                                     (mat_map (fun x => 1 + x)
                                        (mat_map exp
                                           (mat_map Ropp
                                              (mat_map (fun g => g + mu) gamma))))))
                            i0 j0))) q l
            = residual param Y X Z i j q l).
  { intros q l Hq Hl.
    rewrite elem_mat_init by lia.
    rewrite !elem_mat_map by (simpl; lia).
    rewrite HPZ, gamma_elem by assumption. reflexivity. }
  eexists. split; [reflexivity|].
  split; [|split; [|split]].
  - split.
    + simpl gr_gamma. rewrite HGr, HGc. apply mat_init_dims.
    + simpl gr_beta. rewrite length_map, length_combine, !length_map, length_seq. lia.
  - simpl loglik. f_equal.
    rewrite accu_mat_init. unfold log_density.
    rewrite big_swap, HPr, HPc, HZc.
    apply big_ext. intros q Hq. apply big_ext. intros l Hl.
    rewrite !elem_mat_init by (simpl; lia).
    rewrite !elem_mat_map by (simpl; lia).
    rewrite HPZ, gamma_elem by assumption. reflexivity.
  - intros q l Hq Hl. simpl gr_gamma.
    rewrite elem_mat_init by lia.
    simpl sadd. rewrite Hdelta by assumption. reflexivity.
  - intros k Hk. simpl gr_beta.
    rewrite nth_vec_plus
      by (rewrite ?length_map, ?length_seq; congruence || lia).
    f_equal.
    rewrite (nth_indep _ 0 ((fun x => accu (mat_init (n_rows P) (n_cols P)
                    (fun i0 j0 =>
                       smul (elem P i0 j0)
                         (elem (mat_map (fun x => y - x)
                                  (mat_map (fun x => 1 / x)
                                     (mat_map (fun x => 1 + x)
                                        (mat_map exp
                                           (mat_map Ropp
                                              (mat_map (fun g => g + mu) gamma))))))
                            i0 j0))) * x) 0))
      by (rewrite !length_map, length_seq; lia).
    rewrite map_nth. rewrite nth_map_seq by lia.
    f_equal.
    rewrite accu_mat_init, big_swap, HPr, HPc, HZc.
    apply big_ext. intros q Hq. apply big_ext. intros l Hl.
    rewrite <- Hdelta by assumption.
    rewrite !elem_mat_init by lia. reflexivity.
Qed.

End DyadUpdate.

Section DyadLoop.

Variables (N Q K : nat) (param : vec R) (Y : sp_mat R) (X : cube R)
          (Z gamma : mat R) (beta : vec R).
Hypothesis Y_dims : sp_has_dims Y N N.
Hypothesis X_dims : cube_has_dims X N N K.
Hypothesis Z_dims : has_dims Z N Q.
Hypothesis gamma_rows : n_rows gamma = Q.
Hypothesis gamma_cols : n_cols gamma = Q.
Hypothesis gamma_elem :
  forall q l, (q < Q)%nat -> (l < Q)%nat -> elem gamma q l = Gamma_of param Z q l.
Hypothesis beta_length : length beta = K.
Hypothesis beta_elem :
  forall k, (k < K)%nat -> nth k beta 0 = beta_of param Z k.

(** The loop over a list of dyads adds up the contributions of the dyads. *)
Lemma dyad_loop_ok (dyads : list (nonzero R)) (acc0 : accumulators) :
  acc_shape Q K acc0 ->
  (forall e, In e dyads -> (row e < N)%nat /\ (col e < N)%nat) ->
  exists acc,
    foldM (fun acc e => dyad_update Y X Z gamma beta acc (row e) (col e))
          dyads acc0 = Ok acc /\
    acc_shape Q K acc /\
    loglik acc
    = loglik acc0
      + lsum (map (fun e => log_density param Y X Z (row e) (col e)) dyads) /\
    (forall q l, (q < Q)%nat -> (l < Q)%nat ->
       elem (gr_gamma acc) q l
       = elem (gr_gamma acc0) q l
         + lsum (map (fun e => residual param Y X Z (row e) (col e) q l) dyads)) /\
    (forall k, (k < K)%nat ->
       nth k (gr_beta acc) 0
       = nth k (gr_beta acc0) 0
         + lsum (map (fun e =>
                        big Q (fun q => big Q (fun l =>
                          residual param Y X Z (row e) (col e) q l))
                        * cube_elem X (row e) (col e) k) dyads)).
Proof.
  revert acc0. induction dyads as [|e dyads IH]; intros acc0 Hshape Hrange.
  - exists acc0. split; [reflexivity|]. split; [exact Hshape|].
    simpl. split; [lra|]. split; intros; lra.
  - destruct (Hrange e (or_introl eq_refl)) as (Hi & Hj).
    destruct (@dyad_update_ok N Q K param Y X Z gamma beta
                Y_dims X_dims Z_dims gamma_rows gamma_cols gamma_elem
                beta_length beta_elem acc0 (row e) (col e) Hshape Hi Hj)
      as (acc1 & E1 & Hshape1 & Hl1 & Hg1 & Hb1).
    destruct (IH acc1 Hshape1) as (acc & E & Hshape' & Hl & Hg & Hb).
    { intros e' He'. apply Hrange. right; exact He'. }
    exists acc. split; [simpl; rewrite E1; exact E|].
    split; [exact Hshape'|].
    split; [|split].
    + rewrite Hl, Hl1. simpl. lra.
    + intros q l Hq Hlt. rewrite Hg, Hg1 by assumption. simpl. lra.
    + intros k Hk. rewrite Hb, Hb1 by assumption. simpl. lra.
Qed.

End DyadLoop.

Section DyadSums.

Lemma lsum_filter (A : Type) (p : A -> bool) (g : A -> R) (l : list A) :
  lsum (map g (filter p l)) = lsum (map (fun e => if p e then g e else 0) l).
Proof.
  induction l as [|x l IH]; simpl; [reflexivity|].
  destruct (p x); simpl; rewrite IH; lra.
Qed.

Lemma sp_find_In (l : list (nonzero R)) (i j : nat) (v : R) :
  sp_find l i j = Some v -> In (Nz i j v) l.
Proof.
  induction l as [|e l IH]; simpl; [discriminate|].
  destruct (Nat.eqb_spec (row e) i) as [Ei|Ni];
    destruct (Nat.eqb_spec (col e) j) as [Ej|Nj]; simpl; intros H;
    try (right; apply IH; exact H).
  injection H as <-. left. subst i j. destruct e; reflexivity.
Qed.

Lemma In_sp_find (l : list (nonzero R)) (e : nonzero R) :
  sortedb l = true -> In e l -> sp_find l (row e) (col e) = Some (val e).
Proof.
  induction l as [|x l IH]; intros Hs He; [contradiction|].
  simpl in Hs. apply andb_prop in Hs. destruct Hs as (Hb & Hs).
  destruct He as [->|He].
  - simpl. rewrite !Nat.eqb_refl. reflexivity.
  - simpl.
    rewrite forallb_forall in Hb. specialize (Hb e He). unfold before in Hb.
    destruct (Nat.eqb_spec (row x) (row e)) as [Er|Nr];
      destruct (Nat.eqb_spec (col x) (col e)) as [Ec|Nc]; simpl;
      try (apply IH; assumption).
    exfalso. rewrite Er, Ec in Hb.
    rewrite !Nat.ltb_irrefl in Hb. discriminate.
Qed.

(** On a well-formed mask without stored zeros, the loop over the stored
    elements of the strict lower triangle visits the observed dyads with
    [i > j], each once. *)
Lemma dyad_sum_entries (S : sp_mat R) (F : nat -> nat -> R) :
  sp_wf S = true -> sp_nonzero S ->
  lsum (map (fun e => F (row e) (col e)) (filter lower (sp_entries S)))
  = dyad_sum S F.
Proof.
  intros Hwf Hnz. unfold sp_wf in Hwf.
  apply andb_prop in Hwf. destruct Hwf as (Hrange & Hsorted).
  rewrite lsum_filter.
  change (map (fun e => if lower e then F (row e) (col e) else 0) (sp_entries S))
    with (map (fun e => (fun i j (_ : R) => if (j <? i)%nat then F i j else 0)
                          (row e) (col e) (val e)) (sp_entries S)).
  rewrite lsum_entries
    with (r := sp_n_rows S) (c := sp_n_cols S) by assumption.
  unfold dyad_sum. apply big_ext. intros i Hi. apply big_ext. intros j Hj.
  unfold observed, sp_elem.
  destruct (sp_find (sp_entries S) i j) as [v|] eqn:Ef.
  - apply sp_find_In in Ef.
    unfold sp_nonzero in Hnz. rewrite Forall_forall in Hnz.
    specialize (Hnz _ Ef). simpl in Hnz.
    destruct (Req_dec_T v 0) as [E0|_]; [contradiction|].
    rewrite andb_true_r. reflexivity.
  - destruct (Req_dec_T szero 0) as [_|Hne]; [|exfalso; apply Hne; reflexivity].
    rewrite andb_false_r. reflexivity.
Qed.

End DyadSums.

Section CovariateMStep.

Lemma copy_from_in_bounds (v : vec R) (off n : nat) :
  (off + n <= length v)%nat -> copy_from v off n = Ok (firstn n (skipn off v)).
Proof. intros H. unfold copy_from. apply check_true, Nat.leb_le, H. Qed.

Lemma nth_map_opp (l : list R) (k : nat) :
  (k < length l)%nat -> nth k (map Ropp l) 0 = - nth k l 0.
Proof.
  intros Hk. rewrite (nth_indep _ 0 (- 0)) by (rewrite length_map; exact Hk).
  apply map_nth.
Qed.

(** The covariate M-step reads the first Q*Q + K entries of its parameter
    vector and returns the negated sums over the observed dyads. *)
Lemma M_step_covariates_value
    (N Q K : nat) (param : vec R) (Y Robs : sp_mat R) (X : cube R) (Z : mat R) :
  (Q * Q + K <= length param)%nat ->
  sp_has_dims Y N N -> sp_has_dims Robs N N ->
  sp_wf Robs = true -> sp_nonzero Robs ->
  cube_has_dims X N N K -> has_dims Z N Q ->
  exists og,
    M_step_sparse_bernoulli_undirected_covariates param Y Robs X Z = Ok og /\
    objective og = spec_objective param Y Robs X Z /\
    length (gradient og) = (Q * Q + K)%nat /\
    (forall q l, (q < Q)%nat -> (l < Q)%nat ->
       nth (q + l * Q) (gradient og) 0 = spec_gradient_Gamma param Y Robs X Z q l) /\
    (forall k, (k < K)%nat ->
       nth (Q * Q + k) (gradient og) 0 = spec_gradient_beta param Y Robs X Z k).
Proof.
  intros Hlen HY HR Hwf Hnz HX HZ.
  assert (HZc : n_cols Z = Q) by (destruct HZ as (_ & H & _); exact H).
  assert (HXk : n_slices X = K) by (destruct HX as (_ & _ & H & _); exact H).
  unfold M_step_sparse_bernoulli_undirected_covariates.
  rewrite HZc, HXk. cbv zeta.
  rewrite !copy_from_in_bounds by lia.
  rewrite !bind_Ok. cbv beta. simpl skipn.
  rewrite foldM_filter
    with (p := fun e : nonzero R => (col e <? row e)%nat)
         (f := fun acc e =>
                 dyad_update Y X Z (Mat Q Q (firstn (Q * Q) param))
                   (firstn K (skipn (Q * Q) param)) acc (row e) (col e)).
  destruct (@dyad_loop_ok N Q K param Y X Z
              (Mat Q Q (firstn (Q * Q) param))
              (firstn K (skipn (Q * Q) param))
              HY HX HZ eq_refl eq_refl)
    with (dyads := filter (fun e : nonzero R => (col e <? row e)%nat)
                     (sp_entries Robs))
         (acc0 := Acc 0 (zeros Q Q) (repeat 0 K))
    as (acc & Hloop & ((HGr & HGc & HGlen) & HBlen) & Hl & Hg & Hb).
  - intros q l Hq Hl. unfold elem, Gamma_of. simpl.
    rewrite nth_firstn, HZc.
    destruct (colmajor_index Hq Hl) as (Hlt & _).
    apply Nat.ltb_lt in Hlt. rewrite Hlt. reflexivity.
  - rewrite length_firstn, length_skipn. lia.
  - intros k Hk. unfold beta_of.
    rewrite nth_firstn, nth_skipn, HZc.
    apply Nat.ltb_lt in Hk. rewrite Hk. reflexivity.
  - split; [apply mat_init_dims | apply repeat_length].
  - intros e He. apply filter_In in He. destruct He as (He & _).
    destruct (wf_in_range Robs e Hwf He) as (Hi & Hj).
    destruct HR as (HRr & HRc). split; congruence.
  - rewrite Hloop, bind_Ok.
    eexists. split; [reflexivity|].
    change (filter (fun e : nonzero R => (col e <? row e)%nat) (sp_entries Robs))
      with (filter lower (sp_entries Robs)) in Hl, Hg, Hb.
    split; [|split; [|split]].
    + simpl objective. rewrite Hl. simpl loglik.
      rewrite (@dyad_sum_entries Robs (log_density param Y X Z) Hwf Hnz).
      unfold spec_objective. lra.
    + simpl gradient. unfold join_cols, vectorise.
      rewrite length_map, length_app. lia.
    + intros q l Hq Hlt. simpl gradient. unfold join_cols, vectorise.
      destruct (colmajor_index Hq Hlt) as (Hidx & _).
      rewrite nth_map_opp by (rewrite length_app; lia).
      rewrite app_nth1 by lia.
      assert (E : nth (q + l * Q) (mem (gr_gamma acc)) 0 = elem (gr_gamma acc) q l)
        by (unfold elem; rewrite HGr; reflexivity).
      rewrite E, Hg by assumption.
      simpl gr_gamma. unfold zeros.
      rewrite elem_mat_init by assumption. simpl szero.
      rewrite (@dyad_sum_entries Robs
                 (fun i j => residual param Y X Z i j q l) Hwf Hnz).
      unfold spec_gradient_Gamma. lra.
    + intros k Hk. simpl gradient. unfold join_cols, vectorise.
      rewrite nth_map_opp by (rewrite length_app; lia).
      rewrite app_nth2 by lia.
      replace (Q * Q + k - length (mem (gr_gamma acc)))%nat with k by lia.
      rewrite Hb by assumption. simpl gr_beta.
      rewrite nth_repeat.
      rewrite (@dyad_sum_entries Robs
                 (fun i j => big Q (fun q => big Q (fun l =>
                                residual param Y X Z i j q l))
                             * cube_elem X i j k) Hwf Hnz).
      unfold spec_gradient_beta. rewrite HZc. lra.
Qed.

End CovariateMStep.

(* ================================================================== *)
(** * The covariate likelihood evaluator returns *)

Section CovariateEvaluator.

Lemma for_q_l_ok (Q : nat) (term : nat -> nat -> result R) (loglik : R) :
  (forall q l, (q < Q)%nat -> (l < Q)%nat -> exists x, term q l = Ok x) ->
  exists v, for_q_l Q term loglik = Ok v.
Proof.
  intros Hterm. unfold for_q_l.
  destruct (@foldM_invariant nat R (fun _ => True)
              (fun loglik q =>
                 foldM (fun loglik l => x <- term q l ;; Ok (loglik + x))
                       (seq 0 Q) loglik)
              (seq 0 Q) loglik) as (v & Hv & _); [|exact I|exists v; exact Hv].
  intros q b Hq _. apply in_seq in Hq.
  apply foldM_invariant; [|exact I].
  intros l b' Hl _. apply in_seq in Hl.
  destruct (Hterm q l) as (x & Hx); [lia | lia |].
  rewrite Hx, bind_Ok. eexists. split; [reflexivity | exact I].
Qed.

(** On inputs of conforming shapes the undirected covariate evaluator
    returns a value. *)
Lemma vLL_covariates_returns
    (N Q : nat) (Y Robs : sp_mat R) (M Z Gamma : mat R) (pi : vec R) :
  sp_has_dims Y N N -> sp_wf Y = true ->
  sp_has_dims Robs N N -> sp_wf Robs = true ->
  has_dims M N N -> has_dims Z N Q -> has_dims Gamma Q Q -> length pi = Q ->
  exists v,
    vLL_complete_sparse_bernoulli_undirected_covariates Y Robs M Z Gamma pi = Ok v.
Proof.
  intros (HYr & HYc) HYwf (HRr & HRc) HRwf (HMr & HMc & _) (HZr & HZc & _)
         (HGr & HGc & _) Hpi.
  unfold vLL_complete_sparse_bernoulli_undirected_covariates. cbv zeta.
  destruct (@prior_ok Z pi) as (c & Hc & _); [congruence|].
  rewrite Hc, bind_Ok.
  assert (Hloop : forall (S : sp_mat R) (w : R -> R -> R -> R -> R) (b : R),
            sp_n_rows S = N -> sp_n_cols S = N -> sp_wf S = true ->
            exists v,
              foldM (fun loglik e =>
                       if (col e <? row e)%nat then
                         for_q_l (n_cols Z)
                           (fun q l =>
                              ziq <- at_ Z (row e) q ;;
                              zjl <- at_ Z (col e) l ;;
                              g <- at_ Gamma q l ;;
                              m <- at_ M (row e) (col e) ;;
                              Ok (w ziq zjl g m))
                           loglik
                       else Ok loglik)
                    (sp_entries S) b = Ok v).
  { intros S w b HSr HSc HSwf.
    destruct (@foldM_invariant (nonzero R) R (fun _ => True)
                (fun loglik e =>
                   if (col e <? row e)%nat then
                     for_q_l (n_cols Z)
                       (fun q l =>
                          ziq <- at_ Z (row e) q ;;
                          zjl <- at_ Z (col e) l ;;
                          g <- at_ Gamma q l ;;
                          m <- at_ M (row e) (col e) ;;
                          Ok (w ziq zjl g m))
                       loglik
                   else Ok loglik)
                (sp_entries S) b) as (v & Hv & _);
      [|exact I|exists v; exact Hv].
    intros e b0 He _.
    destruct (wf_in_range S e HSwf He) as (Hi & Hj).
    destruct (col e <? row e)%nat.
    - destruct (@for_q_l_ok (n_cols Z)
                  (fun q l =>
                     ziq <- at_ Z (row e) q ;;
                     zjl <- at_ Z (col e) l ;;
                     g <- at_ Gamma q l ;;
                     m <- at_ M (row e) (col e) ;;
                     Ok (w ziq zjl g m)) b0) as (v & Hv).
      + intros q l Hq Hl. rewrite !at_in_range by lia.
        rewrite !bind_Ok. eexists. reflexivity.
      + exists v. split; [exact Hv | exact I].
    - exists b0. split; [reflexivity | exact I]. }
  destruct (Hloop Y (fun ziq zjl g m => ziq * zjl * (g + m)) (accu c) HYr HYc HYwf)
    as (v1 & Hv1).
  rewrite Hv1, bind_Ok.
  apply (Hloop Robs (fun ziq zjl g m => - ziq * zjl * ln (1 + exp (g + m))) v1
           HRr HRc HRwf).
Qed.

End CovariateEvaluator.

(* ================================================================== *)
(** * Dependence on the strict lower triangle only *)

Section LowerTriangle.

Lemma before_irrefl (e : nonzero R) : before e e = false.
Proof. unfold before. rewrite !Nat.ltb_irrefl, andb_false_r. reflexivity. Qed.

Lemma before_asym (e e' : nonzero R) :
  before e e' = true -> before e' e = true -> False.
Proof.
  unfold before. intros H H'.
  apply orb_prop in H. apply orb_prop in H'.
  destruct H as [H|H]; destruct H' as [H'|H'];
    repeat match goal with
           | X : _ && _ = true |- _ => apply andb_prop in X; destruct X
           | X : (_ <? _)%nat = true |- _ => apply Nat.ltb_lt in X
           | X : (_ =? _)%nat = true |- _ => apply Nat.eqb_eq in X
           end; lia.
Qed.

Lemma sortedb_filter (p : nonzero R -> bool) (l : list (nonzero R)) :
  sortedb l = true -> sortedb (filter p l) = true.
Proof.
  induction l as [|e l IH]; intros Hs; [reflexivity|].
  simpl in Hs. apply andb_prop in Hs. destruct Hs as (Hb & Hs).
  simpl. destruct (p e); [|apply IH; exact Hs].
  simpl. rewrite IH by exact Hs. rewrite andb_true_r.
  apply forallb_forall. intros x Hx. apply filter_In in Hx.
  rewrite forallb_forall in Hb. apply Hb, Hx.
Qed.

(** Two lists in strict iteration order with the same elements are equal. *)
Lemma sorted_ext (l l' : list (nonzero R)) :
  sortedb l = true -> sortedb l' = true ->
  (forall e, In e l <-> In e l') -> l = l'.
Proof.
  revert l'. induction l as [|a l IH]; intros [|a' l'] Hs Hs' Hin.
  - reflexivity.
  - exfalso. apply (proj2 (Hin a')). left; reflexivity.
  - exfalso. apply (proj1 (Hin a)). left; reflexivity.
  - simpl in Hs, Hs'.
    apply andb_prop in Hs. destruct Hs as (Hb & Hs).
    apply andb_prop in Hs'. destruct Hs' as (Hb' & Hs').
    rewrite forallb_forall in Hb, Hb'.
    assert (Ea : a = a').
    { destruct (proj1 (Hin a) (or_introl eq_refl)) as [E|Ha]; [symmetry; exact E|].
      destruct (proj2 (Hin a') (or_introl eq_refl)) as [E|Ha']; [exact E|].
      exfalso. apply (@before_asym a a'); [apply Hb, Ha' | apply Hb', Ha]. }
    subst a'. f_equal. apply IH; try assumption.
    intros e. split; intros He.
    + destruct (proj1 (Hin e) (or_intror He)) as [E|He']; [|exact He'].
      subst e. specialize (Hb a He). rewrite before_irrefl in Hb. discriminate.
    + destruct (proj2 (Hin e) (or_intror He)) as [E|He']; [|exact He'].
      subst e. specialize (Hb' a He). rewrite before_irrefl in Hb'. discriminate.
Qed.

Lemma sp_wf_sorted (S : sp_mat R) : sp_wf S = true -> sortedb (sp_entries S) = true.
Proof. unfold sp_wf. intros H. apply andb_prop in H. apply H. Qed.

Lemma lower_entry_transfer (S S' : sp_mat R) (e : nonzero R) :
  sp_wf S = true -> sp_nonzero S -> agree_lower S S' ->
  In e (filter lower (sp_entries S)) -> In e (filter lower (sp_entries S')).
Proof.
  intros Hwf Hnz Hagree He.
  apply filter_In in He. destruct He as (He & Hlow).
  apply filter_In. split; [|exact Hlow].
  assert (Hv : val e <> 0).
  { unfold sp_nonzero in Hnz. rewrite Forall_forall in Hnz. apply Hnz, He. }
  assert (Hf : sp_elem S (row e) (col e) = val e).
  { unfold sp_elem. rewrite (In_sp_find _ e (sp_wf_sorted S Hwf) He). reflexivity. }
  unfold lower in Hlow. apply Nat.ltb_lt in Hlow.
  rewrite (Hagree _ _ Hlow) in Hf. unfold sp_elem in Hf.
  destruct (sp_find (sp_entries S') (row e) (col e)) as [v|] eqn:Ef.
  - apply sp_find_In in Ef. subst v. destruct e; exact Ef.
  - exfalso. apply Hv. symmetry. exact Hf.
Qed.

(** Matrices that agree on the strict lower triangle store the same
    elements there, in the same order. *)
Lemma lower_entries_agree (S S' : sp_mat R) :
  sp_wf S = true -> sp_nonzero S -> sp_wf S' = true -> sp_nonzero S' ->
  agree_lower S S' ->
  filter lower (sp_entries S) = filter lower (sp_entries S').
Proof.
  intros Hwf Hnz Hwf' Hnz' Hagree.
  apply sorted_ext.
  - apply sortedb_filter, sp_wf_sorted, Hwf.
  - apply sortedb_filter, sp_wf_sorted, Hwf'.
  - intros e. split.
    + apply lower_entry_transfer; assumption.
    + apply lower_entry_transfer; try assumption.
      intros i j Hij. symmetry. apply Hagree, Hij.
Qed.

Lemma foldM_ext_in (A B : Type) (f g : B -> A -> result B) (l : list A) (b : B) :
  (forall x b0, In x l -> f b0 x = g b0 x) -> foldM f l b = foldM g l b.
Proof.
  revert b. induction l as [|x l IH]; intros b H; simpl; [reflexivity|].
  rewrite H by (left; reflexivity).
  destruct (g b x) as [b1|]; simpl; [|reflexivity].
  apply IH. intros y b0 Hy. apply H. right; exact Hy.
Qed.

(** The loop body reads Y at the dyad only. *)
Lemma dyad_update_ext (Y Y' : sp_mat R) (X : cube R) (Z gamma : mat R)
    (beta : vec R) (acc : accumulators) (i j : nat) :
  sp_at Y i j = sp_at Y' i j ->
  dyad_update Y X Z gamma beta acc i j = dyad_update Y' X Z gamma beta acc i j.
Proof.
  intros E. unfold dyad_update.
  destruct (tube X i j) as [phi|]; [|reflexivity]. rewrite !bind_Ok.
  destruct (times (trans (colvec beta)) (colvec phi)) as [bphi|]; [|reflexivity].
  rewrite !bind_Ok.
  destruct (as_scalar bphi) as [mu|]; [|reflexivity]. rewrite !bind_Ok.
  destruct (get_row Z i) as [zi|]; [|reflexivity]. rewrite !bind_Ok.
  destruct (get_row Z j) as [zj|]; [|reflexivity]. rewrite !bind_Ok.
  destruct (times (trans (rowvec zi)) (rowvec zj)) as [P|]; [|reflexivity].
  rewrite !bind_Ok.
  rewrite E. reflexivity.
Qed.

End LowerTriangle.

Section ToyFacts.

Lemma toy_R_nonzero : sp_nonzero (toy_R 1).
Proof. unfold sp_nonzero. repeat constructor; simpl; lra. Qed.

Lemma toy_Y_nonzero : sp_nonzero (toy_Y 1).
Proof. unfold sp_nonzero. repeat constructor; simpl; lra. Qed.

Lemma toy_R_lower_nonzero : sp_nonzero toy_R_lower.
Proof. unfold sp_nonzero. repeat constructor; simpl; lra. Qed.

Lemma toy_Y_lower_nonzero : sp_nonzero toy_Y_lower.
Proof. unfold sp_nonzero. repeat constructor; simpl; lra. Qed.

Lemma toy_Y_agree : agree_lower (toy_Y 1) toy_Y_lower.
Proof.
  intros i j Hij. unfold sp_elem.
  destruct i as [|[|[|i]]]; destruct j as [|[|[|j]]]; try lia; reflexivity.
Qed.

Lemma toy_R_agree : agree_lower (toy_R 1) toy_R_lower.
Proof.
  intros i j Hij. unfold sp_elem.
  destruct i as [|[|[|i]]]; destruct j as [|[|[|j]]]; try lia; reflexivity.
Qed.

End ToyFacts.

Section ShapeErrors.

Lemma copy_from_app (v w : vec R) (off n : nat) :
  (off + n <= length v)%nat -> copy_from (v ++ w) off n = copy_from v off n.
Proof.
  intros H. unfold copy_from.
  rewrite !check_true by (apply Nat.leb_le; rewrite ?length_app; lia).
  rewrite skipn_app, firstn_app, length_skipn.
  replace (n - (length v - off))%nat with 0%nat by lia.
  rewrite firstn_O, app_nil_r. reflexivity.
Qed.

(** The no-covariate E-step multiplies [Y * Z] by a matrix with the shape
    of theta: the product throws when Z's columns and theta's rows differ. *)
Lemma E_step_rows_mismatch (Y Robs : sp_mat R) (Z theta : mat R) (pi : vec R)
    (log_lambda : R) :
  n_cols Z <> n_rows theta ->
  E_step_sparse_bernoulli_undirected_nocovariate Y Robs Z theta pi log_lambda
  = Raise incompatible_dimensions.
Proof.
  intros Hne.
  unfold E_step_sparse_bernoulli_undirected_nocovariate, sp_times.
  destruct (sp_n_cols Y =? n_rows Z)%nat; [|reflexivity].
  rewrite check_true by reflexivity. rewrite !bind_Ok.
  unfold ediv. rewrite mat_zip_same by reflexivity. rewrite !bind_Ok.
  unfold times. rewrite check_false; [reflexivity|].
  apply Nat.eqb_neq. exact Hne.
Qed.

(** Entries of the parameter vector beyond the first Q*Q + K are not read. *)
Lemma M_step_covariates_surplus
    (Q K : nat) (param extra : vec R) (Y Robs : sp_mat R) (X : cube R) (Z : mat R) :
  n_cols Z = Q -> n_slices X = K -> (Q * Q + K <= length param)%nat ->
  M_step_sparse_bernoulli_undirected_covariates (param ++ extra) Y Robs X Z =
  M_step_sparse_bernoulli_undirected_covariates param Y Robs X Z.
Proof.
  intros HQ HK Hlen.
  unfold M_step_sparse_bernoulli_undirected_covariates.
  rewrite HQ, HK. cbv zeta.
  rewrite !copy_from_app by lia. reflexivity.
Qed.

End ShapeErrors.

(* ================================================================== *)
(** * Further facts *)

Section MoreSums.

Lemma big_le (n : nat) (f g : nat -> R) :
  (forall k, (k < n)%nat -> f k <= g k) -> big n f <= big n g.
Proof.
  induction n as [|n IH]; intros H; simpl; [lra|].
  assert (big n f <= big n g) by (apply IH; intros k Hk; apply H; lia).
  assert (f n <= g n) by (apply H; lia).
  lra.
Qed.

Lemma quad_form_symmetric (S : sp_mat R) (Z : mat R) (q l : nat) :
  sp_symmetric S -> quad_form S Z q l = quad_form S Z l q.
Proof.
  intros Hsym. unfold quad_form. rewrite big_swap.
  apply big_ext. intros i _. apply big_ext. intros j _.
  rewrite (Hsym j i). ring.
Qed.

Lemma quad_form_nonneg (S : sp_mat R) (Z : mat R) (q l : nat) :
  mat_nonneg Z -> (q < n_cols Z)%nat -> (l < n_cols Z)%nat ->
  (forall i j, (i < n_rows Z)%nat -> (j < n_rows Z)%nat -> 0 <= sp_elem S i j) ->
  0 <= quad_form S Z q l.
Proof.
  intros HZ Hq Hl HS. unfold quad_form.
  apply big_nonneg. intros i Hi. apply big_nonneg. intros j Hj.
  apply Rmult_le_pos; [apply Rmult_le_pos|]; auto.
Qed.

Lemma quad_form_le (S S' : sp_mat R) (Z : mat R) (q l : nat) :
  mat_nonneg Z -> (q < n_cols Z)%nat -> (l < n_cols Z)%nat ->
  (forall i j, (i < n_rows Z)%nat -> (j < n_rows Z)%nat ->
     sp_elem S i j <= sp_elem S' i j) ->
  quad_form S Z q l <= quad_form S' Z q l.
Proof.
  intros HZ Hq Hl HS. unfold quad_form.
  apply big_le. intros i Hi. apply big_le. intros j Hj.
  apply Rmult_le_compat_r; [auto|].
  apply Rmult_le_compat_l; auto.
Qed.

End MoreSums.

Section Mismatch.

Context {T : Type} {ST : Scalar T}.

Lemma times_sp_mismatch (A : mat T) (S : sp_mat T) :
  n_cols A <> sp_n_rows S -> times_sp A S = Raise incompatible_dimensions.
Proof.
  intros H. unfold times_sp. apply check_false, Nat.eqb_neq, H.
Qed.

Lemma times_mismatch (A B : mat T) :
  n_cols A <> n_rows B -> times A B = Raise incompatible_dimensions.
Proof.
  intros H. unfold times. apply check_false, Nat.eqb_neq, H.
Qed.

Lemma sp_times_mismatch (S : sp_mat T) (B : mat T) :
  sp_n_cols S <> n_rows B -> sp_times S B = Raise incompatible_dimensions.
Proof.
  intros H. unfold sp_times. apply check_false, Nat.eqb_neq, H.
Qed.

End Mismatch.

Section SingleCluster.

Lemma sp_total_dense (S : sp_mat R) :
  sp_wf S = true ->
  sp_total S
  = big (sp_n_rows S) (fun i => big (sp_n_cols S) (fun j => sp_elem S i j)).
Proof.
  intros Hwf. unfold sp_wf in Hwf.
  apply andb_prop in Hwf. destruct Hwf as (Hrange & Hsorted).
  unfold sp_total.
  rewrite lsum_entries
    with (r := sp_n_rows S) (c := sp_n_cols S) (g := fun _ _ v => v)
    by assumption.
  reflexivity.
Qed.

Lemma quad_form_single_cluster (S : sp_mat R) (Z : mat R) :
  sp_wf S = true -> sp_n_rows S = n_rows Z -> sp_n_cols S = n_rows Z ->
  single_cluster Z -> quad_form S Z 0 0 = sp_total S.
Proof.
  intros Hwf Hr Hc (_ & Hones).
  rewrite sp_total_dense by exact Hwf. rewrite Hr, Hc.
  unfold quad_form. apply big_ext. intros i Hi. apply big_ext. intros j Hj.
  rewrite !Hones by assumption. ring.
Qed.

End SingleCluster.

Section ToySymmetry.

Lemma toy_Y_symmetric : sp_symmetric (toy_Y 1).
Proof.
  intros i j. unfold sp_elem.
  destruct i as [|[|[|i]]]; destruct j as [|[|[|j]]]; reflexivity.
Qed.

Lemma toy_R_symmetric : sp_symmetric (toy_R 1).
Proof.
  intros i j. unfold sp_elem.
  destruct i as [|[|[|i]]]; destruct j as [|[|[|j]]]; reflexivity.
Qed.

Lemma toy_Z_nonneg : mat_nonneg (toy_Z 1).
Proof.
  intros i j Hi Hj. simpl in Hi, Hj. unfold elem.
  destruct i as [|[|[|i]]]; try lia; destruct j as [|[|j]]; try lia; simpl; lra.
Qed.

Lemma toy_Y_below_R (i j : nat) :
  0 <= sp_elem (toy_Y 1) i j <= sp_elem (toy_R 1) i j.
Proof.
  unfold sp_elem.
  destruct i as [|[|[|i]]]; destruct j as [|[|[|j]]]; simpl; lra.
Qed.

End ToySymmetry.

(* ================================================================== *)
(** * More on the row-wise softmax *)

Section SoftmaxStability.

Lemma fold_Rmax_ge_init (l : list R) (a : R) : a <= fold_left Rmax l a.
Proof.
  revert a. induction l as [|b l IH]; intros a; simpl; [lra|].
  apply Rle_trans with (r2 := Rmax a b); [apply Rmax_l | apply IH].
Qed.

Lemma fold_Rmax_upper (l : list R) (a v : R) :
  In v l -> v <= fold_left Rmax l a.
Proof.
  revert a. induction l as [|b l IH]; intros a Hv; [contradiction|].
  simpl. destruct Hv as [-> | Hv].
  - apply Rle_trans with (r2 := Rmax a v); [apply Rmax_r | apply fold_Rmax_ge_init].
  - apply IH, Hv.
Qed.

Lemma fold_Rmax_in (l : list R) (a : R) : In (fold_left Rmax l a) (a :: l).
Proof.
  revert a. induction l as [|b l IH]; intros a; simpl; [left; reflexivity|].
  destruct (IH (Rmax a b)) as [E|Hin].
  - rewrite <- E. unfold Rmax. destruct (Rle_dec a b); auto.
  - right. right. exact Hin.
Qed.

Lemma exp_le_1 (x : R) : x <= 0 -> exp x <= 1.
Proof.
  intros [Hlt | ->].
  - rewrite <- exp_0. apply Rlt_le, exp_increasing, Hlt.
  - rewrite exp_0. lra.
Qed.

Lemma lsum_map_nonneg (g : R -> R) (x : list R) :
  (forall v, In v x -> 0 <= g v) -> 0 <= lsum (map g x).
Proof.
  induction x as [|a x IH]; intros H; simpl; [lra|].
  assert (0 <= g a) by (apply H; left; reflexivity).
  assert (0 <= lsum (map g x)) by (apply IH; intros v Hv; apply H; right; exact Hv).
  lra.
Qed.

Lemma lsum_map_ge_term (g : R -> R) (x : list R) (m : R) :
  (forall v, In v x -> 0 <= g v) -> In m x -> g m <= lsum (map g x).
Proof.
  induction x as [|a x IH]; intros H Hm; [contradiction|]. simpl.
  destruct Hm as [-> | Hm].
  - assert (0 <= lsum (map g x))
      by (apply lsum_map_nonneg; intros v Hv; apply H; right; exact Hv).
    lra.
  - assert (0 <= g a) by (apply H; left; reflexivity).
    assert (g m <= lsum (map g x))
      by (apply IH; [intros v Hv; apply H; right; exact Hv | exact Hm]).
    lra.
Qed.

Lemma lsum_map_le_length (g : R -> R) (x : list R) :
  (forall v, In v x -> g v <= 1) -> lsum (map g x) <= INR (length x).
Proof.
  induction x as [|a x IH]; intros H.
  - simpl. lra.
  - change (length (a :: x)) with (S (length x)). rewrite S_INR. simpl.
    assert (g a <= 1) by (apply H; left; reflexivity).
    assert (lsum (map g x) <= INR (length x))
      by (apply IH; intros v Hv; apply H; right; exact Hv).
    lra.
Qed.

End SoftmaxStability.

Section SoftmaxShift.

Lemma Rmax_shift (a b c : R) : Rmax (a + c) (b + c) = Rmax a b + c.
Proof.
  unfold Rmax. destruct (Rle_dec (a + c) (b + c)); destruct (Rle_dec a b); lra.
Qed.

Lemma fold_Rmax_shift (l : list R) (a c : R) :
  fold_left Rmax (map (fun v => v + c) l) (a + c) = fold_left Rmax l a + c.
Proof.
  revert a. induction l as [|b l IH]; intros a; simpl; [reflexivity|].
  rewrite Rmax_shift. apply IH.
Qed.

(** The row transformation does not see a constant added to the row. *)
Lemma softmax_row_shift (x : vec R) (c : R) :
  softmax_row (map (fun v => v + c) x) = softmax_row x.
Proof.
  destruct x as [|a l]; [reflexivity|].
  unfold softmax_row. simpl max. rewrite !bind_Ok.
  rewrite fold_Rmax_shift. f_equal.
  change (a + c :: map (fun v => v + c) l) with (map (fun v => v + c) (a :: l)).
  set (m := fold_left Rmax l a).
  rewrite !map_map.
  assert (E : forall v, exp (v + c - (m + c)) = exp (v - m))
    by (intros v; f_equal; ring).
  rewrite (map_ext _ _ E).
  apply map_ext. intros v. rewrite E. reflexivity.
Qed.

Lemma mapM_ext_in (A B : Type) (f g : A -> result B) (l : list A) :
  (forall x, In x l -> f x = g x) -> mapM f l = mapM g l.
Proof.
  induction l as [|x l IH]; intros H; simpl; [reflexivity|].
  rewrite H by (left; reflexivity).
  rewrite IH by (intros y Hy; apply H; right; exact Hy).
  reflexivity.
Qed.

Lemma each_row_softmax_shift (A B : mat R) (c : R) :
  n_rows A = n_rows B -> n_cols A = n_cols B ->
  (forall i j, (i < n_rows B)%nat -> (j < n_cols B)%nat ->
     elem A i j = elem B i j + c) ->
  each_row softmax_row A = each_row softmax_row B.
Proof.
  intros Hr Hc He. unfold each_row. rewrite Hr, Hc.
  rewrite mapM_ext_in
    with (g := fun i =>
                 x <- softmax_row (map (fun j => elem B i j) (seq 0 (n_cols B))) ;;
                 _ <- check (length x =? n_cols B)%nat incompatible_dimensions ;;
                 Ok x).
  - reflexivity.
  - intros i Hi. apply in_seq in Hi.
    replace (map (fun j => elem A i j) (seq 0 (n_cols B)))
      with (map (fun v => v + c) (map (fun j => elem B i j) (seq 0 (n_cols B)))).
    + rewrite softmax_row_shift. reflexivity.
    + rewrite map_map. apply map_ext_in. intros j Hj. apply in_seq in Hj.
      symmetry. apply He; lia.
Qed.

(** The last two steps of the no-covariate expectation steps give the same
    result whatever [log_lambda] was added to the scores. *)
Lemma score_offset_vanishes (ab : mat R) (lp : vec R) (log_lambda : R) :
  (log_tau <- each_row_plus (mat_map (fun x => x + log_lambda) ab) lp ;;
   each_row softmax_row log_tau) =
  (log_tau <- each_row_plus (mat_map (fun x => x + 0) ab) lp ;;
   each_row softmax_row log_tau).
Proof.
  unfold each_row_plus. simpl n_cols. simpl n_rows.
  destruct (length lp =? n_cols ab)%nat; [|reflexivity].
  rewrite !check_true by reflexivity. rewrite !bind_Ok.
  apply each_row_softmax_shift with (c := log_lambda); try reflexivity.
  intros i j Hi Hj. simpl in Hi, Hj.
  rewrite !elem_mat_init by assumption.
  rewrite !elem_mat_map by assumption. simpl. ring.
Qed.

End SoftmaxShift.

(* ================================================================== *)
(** * The covariate likelihood evaluators *)

Section CovariateLoops.

Lemma big_neg (n : nat) (f : nat -> R) : big n (fun k => - f k) = - big n f.
Proof. induction n as [|n IH]; simpl; [lra | rewrite IH; lra]. Qed.

Lemma foldM_sum (A : Type) (f : R -> A -> result R) (t : A -> R)
    (l : list A) (acc : R) :
  (forall x b, In x l -> f b x = Ok (b + t x)) ->
  foldM f l acc = Ok (acc + lsum (map t l)).
Proof.
  revert acc. induction l as [|x l IH]; intros acc H; simpl.
  - f_equal. lra.
  - rewrite H by (left; reflexivity). rewrite bind_Ok.
    rewrite IH by (intros y b Hy; apply H; right; exact Hy).
    f_equal. lra.
Qed.

(** The two nested loops add the Q x Q terms to [loglik]. *)
Lemma for_q_l_value (Q : nat) (term : nat -> nat -> result R)
    (t : nat -> nat -> R) (loglik : R) :
  (forall q l, (q < Q)%nat -> (l < Q)%nat -> term q l = Ok (t q l)) ->
  for_q_l Q term loglik = Ok (loglik + big Q (fun q => big Q (fun l => t q l))).
Proof.
  intros Hterm. unfold for_q_l.
  rewrite foldM_sum with (t := fun q => big Q (fun l => t q l)).
  - rewrite lsum_map_seq. reflexivity.
  - intros q b Hq. apply in_seq in Hq.
    rewrite foldM_sum with (t := fun l => t q l).
    + rewrite lsum_map_seq. reflexivity.
    + intros l b' Hl. apply in_seq in Hl.
      rewrite Hterm by lia. reflexivity.
Qed.

Variables (N Q : nat) (M Z Gamma : mat R).
Hypothesis M_dims : has_dims M N N.
Hypothesis Z_dims : has_dims Z N Q.
Hypothesis Gamma_dims : has_dims Gamma Q Q.

(** A loop over dyads with the per-entry term [w] adds, per dyad, the
    double sum over the clusters. *)
Lemma dyad_terms_loop (w : R -> R -> R -> R -> R) (dyads : list (nonzero R))
    (loglik : R) :
  (forall e, In e dyads -> (row e < N)%nat /\ (col e < N)%nat) ->
  foldM (fun loglik e =>
           for_q_l (n_cols Z)
             (fun q l =>
                ziq <- at_ Z (row e) q ;;
                zjl <- at_ Z (col e) l ;;
                g <- at_ Gamma q l ;;
                m <- at_ M (row e) (col e) ;;
                Ok (w ziq zjl g m))
             loglik)
        dyads loglik
  = Ok (loglik
        + lsum (map (fun e =>
                  big (n_cols Z) (fun q => big (n_cols Z) (fun l =>
                    w (elem Z (row e) q) (elem Z (col e) l)
                      (elem Gamma q l) (elem M (row e) (col e)))))
                dyads)).
Proof.
  intros Hrange.
  destruct M_dims as (HMr & HMc & _). destruct Z_dims as (HZr & HZc & _).
  destruct Gamma_dims as (HGr & HGc & _).
  apply foldM_sum. intros e b He.
  destruct (Hrange e He) as (Hi & Hj).
  apply for_q_l_value. intros q l Hq Hl.
  rewrite !at_in_range by lia. reflexivity.
Qed.

End CovariateLoops.

Section ObservedSums.

(** On a well-formed sparse matrix without stored zeros, the loop over all
    stored elements visits the observed dyads, each once. *)
Lemma obs_sum_entries (S : sp_mat R) (F : nat -> nat -> R) :
  sp_wf S = true -> sp_nonzero S ->
  lsum (map (fun e => F (row e) (col e)) (sp_entries S)) = obs_sum S F.
Proof.
  intros Hwf Hnz. unfold sp_wf in Hwf.
  apply andb_prop in Hwf. destruct Hwf as (Hrange & Hsorted).
  rewrite lsum_entries
    with (r := sp_n_rows S) (c := sp_n_cols S) (g := fun i j (_ : R) => F i j)
    by assumption.
  unfold obs_sum. apply big_ext. intros i Hi. apply big_ext. intros j Hj.
  unfold observed, sp_elem.
  destruct (sp_find (sp_entries S) i j) as [v|] eqn:Ef.
  - apply sp_find_In in Ef.
    unfold sp_nonzero in Hnz. rewrite Forall_forall in Hnz.
    specialize (Hnz _ Ef). simpl in Hnz.
    destruct (Req_dec_T v 0) as [E0|_]; [contradiction | reflexivity].
  - destruct (Req_dec_T szero 0) as [_|Hne]; [reflexivity|].
    exfalso. apply Hne. reflexivity.
Qed.

(** For a symmetric pattern without diagonal and a symmetric term, the sum
    over all observed dyads is twice the sum over those with [i > j]. *)
Lemma obs_sum_twice_lower (S : sp_mat R) (N : nat) (F : nat -> nat -> R) :
  sp_n_rows S = N -> sp_n_cols S = N ->
  sp_symmetric S -> sp_zero_diagonal S ->
  (forall i j, (i < N)%nat -> (j < N)%nat -> F i j = F j i) ->
  obs_sum S F = 2 * dyad_sum S F.
Proof.
  intros Hr Hc Hsym Hdiag HF. unfold obs_sum, dyad_sum. rewrite Hr, Hc.
  set (H := fun i j => if observed S i j then F i j else 0).
  assert (Hsplit : forall i j,
            H i j = (if (j <? i)%nat then H i j else 0)
                    + (if (i <? j)%nat then H i j else 0)).
  { intros i j. destruct (Nat.ltb_spec j i); destruct (Nat.ltb_spec i j);
      try lia; try lra.
    assert (i = j) by lia. subst j. unfold H, observed.
    rewrite Hdiag. destruct (Req_dec_T 0 0); [lra | congruence]. }
  assert (HHsym : forall i j, (i < N)%nat -> (j < N)%nat -> H i j = H j i).
  { intros i j Hi Hj. unfold H, observed. rewrite (Hsym i j), (HF i j Hi Hj).
    reflexivity. }
  rewrite big_ext
    with (g := fun i => big N (fun j => if (j <? i)%nat then H i j else 0)
                        + big N (fun j => if (i <? j)%nat then H i j else 0)).
  2:{ intros i _. rewrite <- big_plus. apply big_ext. intros j _. apply Hsplit. }
  rewrite big_plus.
  rewrite (big_swap N N (fun i j => if (i <? j)%nat then H i j else 0)).
  rewrite big_ext
    with (f := fun j => big N (fun i => if (i <? j)%nat then H i j else 0))
         (g := fun i => big N (fun j => if (j <? i)%nat then H i j else 0)).
  2:{ intros i Hi. apply big_ext. intros j Hj.
      destruct (j <? i)%nat; [apply HHsym; assumption | reflexivity]. }
  rewrite big_ext
    with (f := fun i => big N (fun j =>
                 if (j <? i)%nat && observed S i j then F i j else 0))
         (g := fun i => big N (fun j => if (j <? i)%nat then H i j else 0)).
  2:{ intros i _. apply big_ext. intros j _. unfold H.
      destruct (j <? i)%nat; reflexivity. }
  lra.
Qed.

Lemma edge_term_symmetric (M Z Gamma : mat R) (N Q i j : nat) :
  has_dims M N N -> has_dims Z N Q -> has_dims Gamma Q Q ->
  mat_symmetric M -> mat_symmetric Gamma ->
  (i < N)%nat -> (j < N)%nat ->
  edge_term M Z Gamma i j = edge_term M Z Gamma j i.
Proof.
  intros (HMr & _) (_ & HZc & _) (HGr & _) HM HG Hi Hj.
  unfold edge_term. rewrite HZc. rewrite big_swap.
  apply big_ext. intros q Hq. apply big_ext. intros l Hl.
  rewrite (HG l q), (HM i j) by lia. ring.
Qed.

Lemma partition_term_symmetric (M Z Gamma : mat R) (N Q i j : nat) :
  has_dims M N N -> has_dims Z N Q -> has_dims Gamma Q Q ->
  mat_symmetric M -> mat_symmetric Gamma ->
  (i < N)%nat -> (j < N)%nat ->
  partition_term M Z Gamma i j = partition_term M Z Gamma j i.
Proof.
  intros (HMr & _) (_ & HZc & _) (HGr & _) HM HG Hi Hj.
  unfold partition_term. rewrite HZc. rewrite big_swap.
  apply big_ext. intros q Hq. apply big_ext. intros l Hl.
  rewrite (HG l q), (HM i j) by lia. ring.
Qed.

End ObservedSums.

Section CovariateValues.

Lemma dyad_sum_opp (S : sp_mat R) (F G : nat -> nat -> R) :
  (forall i j, F i j = - G i j) -> dyad_sum S F = - dyad_sum S G.
Proof.
  intros H. unfold dyad_sum. rewrite <- big_neg. apply big_ext. intros i _.
  rewrite <- big_neg. apply big_ext. intros j _.
  destruct ((j <? i)%nat && observed S i j); [apply H | lra].
Qed.

Lemma obs_sum_opp (S : sp_mat R) (F G : nat -> nat -> R) :
  (forall i j, F i j = - G i j) -> obs_sum S F = - obs_sum S G.
Proof.
  intros H. unfold obs_sum. rewrite <- big_neg. apply big_ext. intros i _.
  rewrite <- big_neg. apply big_ext. intros j _.
  destruct (observed S i j); [apply H | lra].
Qed.

Lemma neg_partition_term (M Z Gamma : mat R) (i j : nat) :
  big (n_cols Z) (fun q => big (n_cols Z) (fun l =>
    - elem Z i q * elem Z j l * ln (1 + exp (elem Gamma q l + elem M i j))))
  = - partition_term M Z Gamma i j.
Proof.
  unfold partition_term. rewrite <- big_neg. apply big_ext. intros q _.
  rewrite <- big_neg. apply big_ext. intros l _. ring.
Qed.

Variables (N Q : nat) (Y Robs : sp_mat R) (M Z Gamma : mat R) (pi : vec R).
Hypothesis Y_dims : sp_has_dims Y N N.
Hypothesis Y_wf : sp_wf Y = true.
Hypothesis Y_nz : sp_nonzero Y.
Hypothesis R_dims : sp_has_dims Robs N N.
Hypothesis R_wf : sp_wf Robs = true.
Hypothesis R_nz : sp_nonzero Robs.
Hypothesis M_dims : has_dims M N N.
Hypothesis Z_dims : has_dims Z N Q.
Hypothesis Gamma_dims : has_dims Gamma Q Q.
Hypothesis pi_length : length pi = Q.

Lemma entries_in_square (S : sp_mat R) (p : nonzero R -> bool) (e : nonzero R) :
  sp_has_dims S N N -> sp_wf S = true -> In e (filter p (sp_entries S)) ->
  (row e < N)%nat /\ (col e < N)%nat.
Proof.
  intros (Hr & Hc) Hwf He. apply filter_In in He. destruct He as (He & _).
  destruct (wf_in_range S e Hwf He) as (Hi & Hj). split; congruence.
Qed.

Lemma all_entries_in_square (S : sp_mat R) (e : nonzero R) :
  sp_has_dims S N N -> sp_wf S = true -> In e (sp_entries S) ->
  (row e < N)%nat /\ (col e < N)%nat.
Proof.
  intros (Hr & Hc) Hwf He.
  destruct (wf_in_range S e Hwf He) as (Hi & Hj). split; congruence.
Qed.

Lemma vLL_undirected_covariates_value :
  vLL_complete_sparse_bernoulli_undirected_covariates Y Robs M Z Gamma pi
  = Ok (prior_term Z pi
        + dyad_sum Y (edge_term M Z Gamma)
        - dyad_sum Robs (partition_term M Z Gamma)).
Proof.
  unfold vLL_complete_sparse_bernoulli_undirected_covariates. cbv zeta.
  destruct (@prior_ok Z pi) as (c & Hc & Hacc);
    [destruct Z_dims as (_ & HZc & _); congruence|].
  rewrite Hc, bind_Ok, Hacc.
  rewrite !foldM_filter
    with (p := @lower R)
         (f := fun loglik Yij =>
                 for_q_l (n_cols Z)
                   (fun q l =>
                      ziq <- at_ Z (row Yij) q ;;
                      zjl <- at_ Z (col Yij) l ;;
                      g <- at_ Gamma q l ;;
                      m <- at_ M (row Yij) (col Yij) ;;
                      Ok (ziq * zjl * (g + m)))
                   loglik).
  rewrite (@dyad_terms_loop N Q M Z Gamma M_dims Z_dims Gamma_dims
             (fun ziq zjl g m => ziq * zjl * (g + m)))
    by (intros e He; apply (@entries_in_square Y (@lower R) e Y_dims Y_wf He)).
  rewrite bind_Ok.
  rewrite !foldM_filter
    with (p := @lower R)
         (f := fun loglik Rij =>
                 for_q_l (n_cols Z)
                   (fun q l =>
                      ziq <- at_ Z (row Rij) q ;;
                      zjl <- at_ Z (col Rij) l ;;
                      g <- at_ Gamma q l ;;
                      m <- at_ M (row Rij) (col Rij) ;;
                      Ok (- ziq * zjl * ln (1 + exp (g + m))))
                   loglik).
  rewrite (@dyad_terms_loop N Q M Z Gamma M_dims Z_dims Gamma_dims
             (fun ziq zjl g m => - ziq * zjl * ln (1 + exp (g + m))))
    by (intros e He; apply (@entries_in_square Robs (@lower R) e R_dims R_wf He)).
  f_equal.
  rewrite (@dyad_sum_entries Y
             (fun i j => big (n_cols Z) (fun q => big (n_cols Z) (fun l =>
                elem Z i q * elem Z j l * (elem Gamma q l + elem M i j))))
             Y_wf Y_nz).
  rewrite (@dyad_sum_entries Robs
             (fun i j => big (n_cols Z) (fun q => big (n_cols Z) (fun l =>
                - elem Z i q * elem Z j l
                  * ln (1 + exp (elem Gamma q l + elem M i j)))))
             R_wf R_nz).
  rewrite (@dyad_sum_opp Robs _ (partition_term M Z Gamma))
    by (intros i j; apply neg_partition_term).
  unfold edge_term. lra.
Qed.

Lemma vLL_directed_covariates_value :
  vLL_complete_sparse_bernoulli_directed_covariates Y Robs M Z Gamma pi
  = Ok (prior_term Z pi
        + obs_sum Y (edge_term M Z Gamma)
        - obs_sum Robs (partition_term M Z Gamma)).
Proof.
  unfold vLL_complete_sparse_bernoulli_directed_covariates. cbv zeta.
  destruct (@prior_ok Z pi) as (c & Hc & Hacc);
    [destruct Z_dims as (_ & HZc & _); congruence|].
  rewrite Hc, bind_Ok, Hacc.
  rewrite (@dyad_terms_loop N Q M Z Gamma M_dims Z_dims Gamma_dims
             (fun ziq zjl g m => ziq * zjl * (g + m)))
    by (intros e He; apply (@all_entries_in_square Y e Y_dims Y_wf He)).
  rewrite bind_Ok.
  rewrite (@dyad_terms_loop N Q M Z Gamma M_dims Z_dims Gamma_dims
             (fun ziq zjl g m => - ziq * zjl * ln (1 + exp (g + m))))
    by (intros e He; apply (@all_entries_in_square Robs e R_dims R_wf He)).
  f_equal.
  rewrite (@obs_sum_entries Y
             (fun i j => big (n_cols Z) (fun q => big (n_cols Z) (fun l =>
                elem Z i q * elem Z j l * (elem Gamma q l + elem M i j))))
             Y_wf Y_nz).
  rewrite (@obs_sum_entries Robs
             (fun i j => big (n_cols Z) (fun q => big (n_cols Z) (fun l =>
                - elem Z i q * elem Z j l
                  * ln (1 + exp (elem Gamma q l + elem M i j)))))
             R_wf R_nz).
  rewrite (@obs_sum_opp Robs _ (partition_term M Z Gamma))
    by (intros i j; apply neg_partition_term).
  unfold edge_term. lra.
Qed.

End CovariateValues.

Section PatternOnly.

Lemma foldM_pattern (B : Type) (f : B -> nonzero R -> result B)
    (l l' : list (nonzero R)) (b : B) :
  (forall b0 e e', row e = row e' -> col e = col e' -> f b0 e = f b0 e') ->
  map (fun e => (row e, col e)) l = map (fun e => (row e, col e)) l' ->
  foldM f l b = foldM f l' b.
Proof.
  intros Hf. revert l' b.
  induction l as [|e l IH]; intros [|e' l'] b Hmap; simpl in Hmap;
    try discriminate; [reflexivity|].
  injection Hmap as Hr Hc Hmap. simpl.
  rewrite (Hf b e e' Hr Hc).
  destruct (f b e') as [b1|]; [|reflexivity].
  rewrite !bind_Ok. apply IH, Hmap.
Qed.

Lemma toy_M_symmetric : mat_symmetric toy_M.
Proof.
  intros i j Hi Hj. simpl in Hi, Hj. unfold elem.
  destruct i as [|[|[|i]]]; try lia; destruct j as [|[|[|j]]]; try lia; reflexivity.
Qed.

Lemma toy_Gamma_symmetric : mat_symmetric toy_Gamma.
Proof.
  intros i j Hi Hj. simpl in Hi, Hj. unfold elem.
  destruct i as [|[|i]]; try lia; destruct j as [|[|j]]; try lia; reflexivity.
Qed.

Lemma toy_Y_zero_diagonal : sp_zero_diagonal (toy_Y 1).
Proof. intros i. unfold sp_elem. destruct i as [|[|[|i]]]; reflexivity. Qed.

Lemma toy_R_zero_diagonal : sp_zero_diagonal (toy_R 1).
Proof. intros i. unfold sp_elem. destruct i as [|[|[|i]]]; reflexivity. Qed.

End PatternOnly.

(* ================================================================== *)
(** * More on the covariate M-step *)

Section ObjectiveSign.

Lemma log1p_exp_bounds (x : R) : 0 < ln (1 + exp x) /\ x < ln (1 + exp x).
Proof.
  pose proof (exp_pos x) as Hx. split.
  - rewrite <- ln_1. apply ln_increasing; lra.
  - rewrite <- (ln_exp x) at 1. apply ln_increasing; lra.
Qed.

(** The Bernoulli-logit log-density of one dyad is not positive. *)
Lemma bernoulli_logit_nonpos (y x : R) :
  0 <= y <= 1 -> y * x - ln (1 + exp x) <= 0.
Proof.
  intros Hy. destruct (log1p_exp_bounds x) as (H0 & H1).
  destruct (Rle_dec 0 x) as [Hx|Hx]; nra.
Qed.

Lemma big_nonpos (n : nat) (f : nat -> R) :
  (forall k, (k < n)%nat -> f k <= 0) -> big n f <= 0.
Proof.
  intros H. rewrite <- (big_zero n). apply big_le. exact H.
Qed.

Lemma dyad_sum_nonpos (S : sp_mat R) (F : nat -> nat -> R) :
  (forall i j, (i < sp_n_rows S)%nat -> (j < sp_n_cols S)%nat -> F i j <= 0) ->
  dyad_sum S F <= 0.
Proof.
  intros H. unfold dyad_sum.
  apply big_nonpos. intros i Hi. apply big_nonpos. intros j Hj.
  destruct ((j <? i)%nat && observed S i j); [apply H; assumption | lra].
Qed.

Lemma log_density_nonpos (param : vec R) (Y : sp_mat R) (X : cube R) (Z : mat R)
    (i j : nat) :
  mat_nonneg Z -> (i < n_rows Z)%nat -> (j < n_rows Z)%nat ->
  0 <= sp_elem Y i j <= 1 ->
  log_density param Y X Z i j <= 0.
Proof.
  intros HZ Hi Hj Hy. unfold log_density.
  apply big_nonpos. intros q Hq. apply big_nonpos. intros l Hl.
  pose proof (HZ i q Hi Hq) as Hiq. pose proof (HZ j l Hj Hl) as Hjl.
  pose proof (bernoulli_logit_nonpos (Gamma_of param Z q l + mu_of param X Z i j) Hy)
    as Hd.
  assert (0 <= elem Z i q * elem Z j l) by (apply Rmult_le_pos; assumption).
  nra.
Qed.

End ObjectiveSign.

(* ================================================================== *)
(** * The scores of the expectation steps *)

Section SparseTimesDense.

Variables (S : sp_mat R) (B : mat R).
Hypothesis S_wf : sp_wf S = true.

(** Entry [(i,k)] of [S * B]. *)
Lemma sp_times_entry (i k : nat) :
  (i < sp_n_rows S)%nat ->
  fold_left
    (fun acc e => if (row e =? i)%nat then sadd acc (smul (val e) (elem B (col e) k)) else acc)
    (sp_entries S) szero
  = big (sp_n_cols S) (fun j => sp_elem S i j * elem B j k).
Proof.
  intros Hi.
  unfold sp_wf in S_wf. apply andb_prop in S_wf. destruct S_wf as [Hrange Hsorted].
  simpl.
  rewrite (fold_left_cond (fun e => (row e =? i)%nat)
             (fun e => val e * elem B (col e) k)).
  rewrite lsum_entries
    with (r := sp_n_rows S) (c := sp_n_cols S)
         (g := fun r c v => if (r =? i)%nat then v * elem B c k else 0)
    by assumption.
  rewrite Rplus_0_l.
  rewrite big_ext
    with (g := fun r => if (r =? i)%nat
                        then big (sp_n_cols S) (fun j => sp_elem S r j * elem B j k)
                        else 0).
  - rewrite big_delta
      with (f := fun r => big (sp_n_cols S) (fun j => sp_elem S r j * elem B j k))
      by exact Hi.
    reflexivity.
  - intros r _. destruct (r =? i)%nat.
    + apply big_ext. intros j _. unfold sp_elem.
      destruct (sp_find (sp_entries S) r j); simpl; lra.
    + rewrite big_ext with (g := fun _ => 0); [apply big_zero|].
      intros j _. destruct (sp_find (sp_entries S) r j); reflexivity.
Qed.

Lemma lsum_sp_insert (h : nonzero R -> R) (e : nonzero R) (l : list (nonzero R)) :
  lsum (map h (sp_insert e l)) = h e + lsum (map h l).
Proof.
  induction l as [|x l IH]; simpl; [reflexivity|].
  destruct (before e x); simpl; [reflexivity|]. rewrite IH. lra.
Qed.

Lemma lsum_sp_trans (h : nonzero R -> R) :
  lsum (map h (sp_entries (sp_trans S)))
  = lsum (map (fun e => h (Nz (col e) (row e) (val e))) (sp_entries S)).
Proof.
  unfold sp_trans. simpl sp_entries.
  induction (sp_entries S) as [|e l IH]; simpl; [reflexivity|].
  rewrite lsum_sp_insert, IH. reflexivity.
Qed.

(** Entry [(i,k)] of [S.t() * B]. *)
Lemma sp_trans_times_entry (i k : nat) :
  (i < sp_n_cols S)%nat ->
  fold_left
    (fun acc e => if (row e =? i)%nat then sadd acc (smul (val e) (elem B (col e) k)) else acc)
    (sp_entries (sp_trans S)) szero
  = big (sp_n_rows S) (fun j => sp_elem S j i * elem B j k).
Proof.
  intros Hi.
  unfold sp_wf in S_wf. apply andb_prop in S_wf. destruct S_wf as [Hrange Hsorted].
  simpl.
  rewrite (fold_left_cond (fun e => (row e =? i)%nat)
             (fun e => val e * elem B (col e) k)).
  rewrite lsum_sp_trans. simpl.
  rewrite lsum_entries
    with (r := sp_n_rows S) (c := sp_n_cols S)
         (g := fun r c v => if (c =? i)%nat then v * elem B r k else 0)
    by assumption.
  rewrite Rplus_0_l. apply big_ext. intros r _.
  rewrite big_ext
    with (g := fun c => if (c =? i)%nat then sp_elem S r c * elem B r k else 0).
  - rewrite big_delta with (f := fun c => sp_elem S r c * elem B r k) by exact Hi.
    reflexivity.
  - intros c _. unfold sp_elem.
    destruct (sp_find (sp_entries S) r c); destruct (c =? i)%nat; simpl; lra.
Qed.

End SparseTimesDense.

Section PlainSoftmax.

(** Subtracting the maximum does not change the value: the softmax is the
    exponential over the sum of the exponentials. *)
Lemma softmax_plain (x : vec R) :
  x <> [] -> softmax x = map (fun v => exp v / lsum (map exp x)) x.
Proof.
  intros Hx. destruct (softmax_shape Hx) as (m & s & Hs & Es & ->).
  assert (Hsum : s = lsum (map exp x) * exp (- m)).
  { rewrite Es, <- lsum_scal_r. f_equal. apply map_ext. intros v.
    unfold Rminus. apply exp_plus. }
  assert (Hpos : 0 < lsum (map exp x)) by (apply lsum_pos; [exact Hx | apply exp_pos]).
  pose proof (exp_pos (- m)) as Hm.
  apply map_ext. intros v. rewrite Hsum.
  unfold Rminus. rewrite exp_plus. field. split; lra.
Qed.

Lemma each_row_softmax_value (A : mat R) (N Q : nat) :
  n_rows A = N -> n_cols A = Q -> (0 < Q)%nat ->
  returns_softmax_of (each_row softmax_row A) N Q (fun i q => elem A i q).
Proof.
  intros HN HQ Hpos. subst N Q.
  unfold each_row.
  rewrite mapM_pure
    with (g := fun i => softmax (map (fun j => elem A i j) (seq 0 (n_cols A)))).
  2:{ intros i _. rewrite softmax_row_ok by (apply row_nonempty; exact Hpos).
      rewrite bind_Ok.
      rewrite softmax_length, length_map, length_seq, Nat.eqb_refl. reflexivity. }
  rewrite bind_Ok. eexists. split; [reflexivity|].
  split; [apply mat_init_dims|].
  intros i q Hi Hq.
  rewrite elem_mat_init by assumption.
  rewrite nth_map_seq by exact Hi.
  rewrite softmax_plain by (apply row_nonempty; exact Hpos).
  rewrite (nth_indep _ 0
             ((fun v => exp v / lsum (map exp (map (fun j => elem A i j)
                                               (seq 0 (n_cols A))))) 0))
    by (rewrite !length_map, length_seq; exact Hq).
  rewrite (map_nth (fun v => exp v
                     / lsum (map exp (map (fun j => elem A i j) (seq 0 (n_cols A)))))).
  rewrite nth_map_seq by exact Hq.
  rewrite map_map, lsum_map_seq. reflexivity.
Qed.

Lemma returns_softmax_of_ext (r : result (mat R)) (N Q : nat) (s s' : nat -> nat -> R) :
  (forall i q, (i < N)%nat -> (q < Q)%nat -> s i q = s' i q) ->
  returns_softmax_of r N Q s -> returns_softmax_of r N Q s'.
Proof.
  intros Hs (tau & Hr & Hd & He). exists tau. split; [exact Hr|]. split; [exact Hd|].
  intros i q Hi Hq. rewrite He by assumption.
  rewrite Hs by assumption. f_equal.
  apply big_ext. intros k Hk. rewrite Hs by assumption. reflexivity.
Qed.

End PlainSoftmax.

Section OperatorValues.

(** What the operators return on conforming shapes, entry by entry. *)
Lemma sp_times_ok (S : sp_mat R) (B : mat R) (N Q : nat) :
  sp_wf S = true -> sp_has_dims S N N -> n_rows B = N -> n_cols B = Q ->
  exists P,
    sp_times S B = Ok P /\ n_rows P = N /\ n_cols P = Q /\
    forall i l, (i < N)%nat -> (l < Q)%nat -> elem P i l = SZ S B i l.
Proof.
  intros Hwf (Hr & Hc) HBr HBc.
  eexists. split; [apply sp_times_conform; congruence|].
  split; [exact Hr|]. split; [exact HBc|].
  intros i l Hi Hl. rewrite elem_mat_init by congruence.
  rewrite sp_times_entry by (assumption || congruence).
  unfold SZ. rewrite Hc, HBr. reflexivity.
Qed.

Lemma sp_trans_times_ok (S : sp_mat R) (B : mat R) (N Q : nat) :
  sp_wf S = true -> sp_has_dims S N N -> n_rows B = N -> n_cols B = Q ->
  exists P,
    sp_times (sp_trans S) B = Ok P /\ n_rows P = N /\ n_cols P = Q /\
    forall i l, (i < N)%nat -> (l < Q)%nat -> elem P i l = StZ S B i l.
Proof.
  intros Hwf (Hr & Hc) HBr HBc.
  eexists. split; [apply sp_times_conform; simpl; congruence|].
  split; [exact Hc|]. split; [exact HBc|].
  intros i l Hi Hl. rewrite elem_mat_init by (simpl; congruence).
  rewrite sp_trans_times_entry by (assumption || congruence).
  unfold StZ. rewrite Hr, HBr. reflexivity.
Qed.

Lemma times_ok (A B : mat R) :
  n_cols A = n_rows B ->
  exists P,
    times A B = Ok P /\ n_rows P = n_rows A /\ n_cols P = n_cols B /\
    forall i k, (i < n_rows A)%nat -> (k < n_cols B)%nat ->
      elem P i k = big (n_cols A) (fun j => elem A i j * elem B j k).
Proof.
  intros H. eexists. split; [apply times_conform; exact H|].
  split; [reflexivity|]. split; [reflexivity|].
  intros i k Hi Hk. rewrite elem_mat_init by assumption.
  apply accumulate_big.
Qed.

Lemma times_has_dims (A B P : mat R) :
  times A B = Ok P -> has_dims P (n_rows A) (n_cols B).
Proof.
  unfold times. intros H.
  destruct (n_cols A =? n_rows B)%nat; simpl in H; [|discriminate H].
  injection H as <-. apply mat_init_dims.
Qed.

Lemma eplus_ok (A B : mat R) :
  n_rows A = n_rows B -> n_cols A = n_cols B ->
  exists P,
    eplus A B = Ok P /\ n_rows P = n_rows A /\ n_cols P = n_cols A /\
    forall i j, (i < n_rows A)%nat -> (j < n_cols A)%nat ->
      elem P i j = elem A i j + elem B i j.
Proof.
  intros Hr Hc. eexists. split; [apply mat_zip_same; assumption|].
  split; [reflexivity|]. split; [reflexivity|].
  intros i j Hi Hj. rewrite elem_mat_init by assumption. reflexivity.
Qed.

Lemma each_row_plus_ok (A : mat R) (v : vec R) :
  length v = n_cols A ->
  exists P,
    each_row_plus A v = Ok P /\ n_rows P = n_rows A /\ n_cols P = n_cols A /\
    forall i j, (i < n_rows A)%nat -> (j < n_cols A)%nat ->
      elem P i j = elem A i j + nth j v 0.
Proof.
  intros H. eexists. split; [apply each_row_plus_conform; exact H|].
  split; [reflexivity|]. split; [reflexivity|].
  intros i j Hi Hj. rewrite elem_mat_init by assumption. reflexivity.
Qed.

(** [log(theta / (1 - theta))] and [log(1 - theta)]. *)
Lemma logit_ok (theta : mat R) :
  exists odds,
    ediv theta (mat_map (fun x => 1 - x) theta) = Ok odds /\
    n_rows (mat_map ln odds) = n_rows theta /\
    n_cols (mat_map ln odds) = n_cols theta /\
    forall q l, (q < n_rows theta)%nat -> (l < n_cols theta)%nat ->
      elem (mat_map ln odds) q l = logit theta q l.
Proof.
  eexists. split; [apply mat_zip_same; reflexivity|].
  split; [reflexivity|]. split; [reflexivity|].
  intros q l Hq Hl.
  rewrite elem_mat_map by assumption.
  rewrite elem_mat_init by assumption.
  rewrite elem_mat_map by assumption. reflexivity.
Qed.

Lemma log1m_elem (theta : mat R) (q l : nat) :
  (q < n_rows theta)%nat -> (l < n_cols theta)%nat ->
  elem (mat_map ln (mat_map (fun x => 1 - x) theta)) q l = log1m theta q l.
Proof.
  intros Hq Hl. rewrite elem_mat_map by assumption.
  rewrite elem_mat_map by assumption. reflexivity.
Qed.

End OperatorValues.

Section NoCovariateScores.

Variables (N Q : nat) (Y Robs : sp_mat R) (Z theta : mat R) (pi : vec R)
          (log_lambda : R).
Hypothesis Y_dims : sp_has_dims Y N N.
Hypothesis Y_wf : sp_wf Y = true.
Hypothesis R_dims : sp_has_dims Robs N N.
Hypothesis R_wf : sp_wf Robs = true.
Hypothesis Z_dims : has_dims Z N Q.
Hypothesis theta_dims : has_dims theta Q Q.
Hypothesis pi_length : length pi = Q.
Hypothesis Q_pos : (0 < Q)%nat.

Lemma E_step_undirected_nocovariate_value :
  returns_softmax_of
    (E_step_sparse_bernoulli_undirected_nocovariate Y Robs Z theta pi log_lambda)
    N Q (score_undirected Y Robs Z theta pi log_lambda).
Proof.
  destruct Z_dims as (HZr & HZc & _). destruct theta_dims as (Htr & Htc & _).
  unfold E_step_sparse_bernoulli_undirected_nocovariate.
  destruct (@sp_times_ok Y Z N Q Y_wf Y_dims HZr HZc) as (YZ & -> & HYZr & HYZc & HYZ).
  rewrite bind_Ok.
  destruct (logit_ok theta) as (odds & -> & HWr & HWc & HW). rewrite bind_Ok.
  destruct (@times_ok YZ (mat_map ln odds)) as (a & -> & Har & Hac & Ha);
    [congruence|].
  rewrite bind_Ok.
  destruct (@sp_times_ok Robs Z N Q R_wf R_dims HZr HZc) as (RZ & -> & HRZr & HRZc & HRZ).
  rewrite bind_Ok.
  destruct (@times_ok RZ (mat_map ln (mat_map (fun x => 1 - x) theta)))
    as (b & -> & Hbr & Hbc & Hb); [simpl; congruence|].
  rewrite bind_Ok.
  destruct (@eplus_ok a b) as (ab & -> & Habr & Habc & Hab);
    [congruence | simpl in *; congruence |].
  rewrite bind_Ok. cbv zeta.
  destruct (@each_row_plus_ok (mat_map (fun x => x + log_lambda) ab) (map ln pi))
    as (log_tau & -> & Hlr & Hlc & Hl);
    [rewrite length_map; simpl; congruence|].
  rewrite bind_Ok.
  simpl in *.
  eapply returns_softmax_of_ext;
    [|apply each_row_softmax_value; lia].
  intros i q Hi Hq. simpl.
  rewrite Hl by lia.
  rewrite elem_mat_map by lia.
  rewrite Hab, Ha, Hb by (simpl; lia).
  rewrite nth_map_ln by lia.
  unfold score_undirected. rewrite HYZc, HRZc, HZc.
  f_equal. f_equal. f_equal.
  - apply big_ext. intros l Hl'. rewrite HYZ, HW by lia. reflexivity.
  - apply big_ext. intros l Hl'. rewrite HRZ, log1m_elem by lia. reflexivity.
Qed.

Lemma E_step_directed_nocovariate_value :
  returns_softmax_of
    (E_step_sparse_bernoulli_directed_nocovariate Y Robs Z theta pi log_lambda)
    N Q (score_directed Y Robs Z theta pi log_lambda).
Proof.
  destruct Z_dims as (HZr & HZc & _). destruct theta_dims as (Htr & Htc & _).
  unfold E_step_sparse_bernoulli_directed_nocovariate.
  destruct (@sp_times_ok Y Z N Q Y_wf Y_dims HZr HZc) as (YZ & -> & HYZr & HYZc & HYZ).
  rewrite bind_Ok.
  destruct (logit_ok theta) as (odds & Hodds & HWr & HWc & HW).
  rewrite Hodds, bind_Ok.
  destruct (@times_ok YZ (trans (mat_map ln odds))) as (a & -> & Har & Hac & Ha);
    [simpl in *; congruence|].
  rewrite bind_Ok.
  destruct (@sp_times_ok Robs Z N Q R_wf R_dims HZr HZc) as (RZ & -> & HRZr & HRZc & HRZ).
  rewrite bind_Ok.
  destruct (@times_ok RZ (trans (mat_map ln (mat_map (fun x => 1 - x) theta))))
    as (b & -> & Hbr & Hbc & Hb); [simpl; congruence|].
  rewrite bind_Ok.
  destruct (@eplus_ok a b) as (ab & -> & Habr & Habc & Hab);
    [congruence | simpl in *; congruence |].
  rewrite bind_Ok.
  destruct (@sp_trans_times_ok Y Z N Q Y_wf Y_dims HZr HZc)
    as (YtZ & -> & HYtZr & HYtZc & HYtZ).
  rewrite !bind_Ok.
  destruct (@times_ok YtZ (mat_map ln odds)) as (c & -> & Hcr & Hcc & Hc);
    [congruence|].
  rewrite bind_Ok.
  destruct (@eplus_ok ab c) as (abc & -> & Habcr & Habcc & Habce);
    [congruence | simpl in *; congruence |].
  rewrite bind_Ok.
  destruct (@sp_trans_times_ok Robs Z N Q R_wf R_dims HZr HZc)
    as (RtZ & -> & HRtZr & HRtZc & HRtZ).
  rewrite bind_Ok.
  destruct (@times_ok RtZ (mat_map ln (mat_map (fun x => 1 - x) theta)))
    as (d & -> & Hdr & Hdc & Hd); [simpl; congruence|].
  rewrite bind_Ok.
  destruct (@eplus_ok abc d) as (abcd & -> & Habcdr & Habcdc & Habcde);
    [congruence | simpl in *; congruence |].
  rewrite bind_Ok. cbv zeta.
  destruct (@each_row_plus_ok (mat_map (fun x => x + log_lambda) abcd) (map ln pi))
    as (log_tau & -> & Hlr & Hlc & Hl);
    [rewrite length_map; simpl in *; congruence|].
  rewrite bind_Ok.
  simpl in *.
  eapply returns_softmax_of_ext;
    [|apply each_row_softmax_value; lia].
  intros i q Hi Hq. simpl.
  rewrite Hl by lia.
  rewrite elem_mat_map by lia.
  rewrite Habcde, Habce, Hab, Ha, Hb, Hc, Hd by (simpl; lia).
  rewrite nth_map_ln by lia.
  unfold score_directed. rewrite HYZc, HRZc, HYtZc, HRtZc, HZc.
  f_equal. f_equal. f_equal; [f_equal; [f_equal|]|].
  - apply big_ext. intros l Hl'.
    rewrite HYZ, elem_trans, HW by (simpl; lia). reflexivity.
  - apply big_ext. intros l Hl'.
    rewrite HRZ, elem_trans, log1m_elem by (simpl; lia). reflexivity.
  - apply big_ext. intros l Hl'. rewrite HYtZ, HW by lia. reflexivity.
  - apply big_ext. intros l Hl'. rewrite HRtZ, log1m_elem by lia. reflexivity.
Qed.

End NoCovariateScores.

(* ================================================================== *)
(** * The scatter loop of the covariate expectation step *)

Section Update.

Lemma length_list_update (n : nat) (f : R -> R) (l : list R) :
  length (list_update n f l) = length l.
Proof.
  revert n. induction l as [|x l IH]; intros [|n]; simpl; try reflexivity.
  rewrite IH. reflexivity.
Qed.

Lemma nth_list_update (n k : nat) (f : R -> R) (l : list R) (d : R) :
  (n < length l)%nat ->
  nth k (list_update n f l) d = if (k =? n)%nat then f (nth n l d) else nth k l d.
Proof.
  revert n k. induction l as [|x l IH]; intros n k Hn; simpl in Hn; [lia|].
  destruct n as [|n]; destruct k as [|k]; simpl; try reflexivity.
  apply IH. lia.
Qed.

Lemma colmajor_injective (N i q i' q' : nat) :
  (i < N)%nat -> (i' < N)%nat ->
  ((i' + q' * N =? i + q * N) = (i' =? i) && (q' =? q))%nat.
Proof.
  intros Hi Hi'.
  destruct (Nat.eqb_spec i' i) as [->|Hne]; destruct (Nat.eqb_spec q' q) as [->|Hq];
    simpl.
  - apply Nat.eqb_refl.
  - apply Nat.eqb_neq. nia.
  - apply Nat.eqb_neq. lia.
  - apply Nat.eqb_neq. intros E.
    assert (Hm : ((i' + q' * N) mod N = (i + q * N) mod N)%nat) by (rewrite E; reflexivity).
    rewrite !Nat.Div0.mod_add, !Nat.mod_small in Hm by assumption. contradiction.
Qed.

(** A write access changes the element it names and no other. *)
Lemma update_elem (A : mat R) (N Q i q : nat) (f : R -> R) :
  has_dims A N Q -> (i < N)%nat -> (q < Q)%nat ->
  exists A',
    update A i q f = Ok A' /\ has_dims A' N Q /\
    forall i' q', (i' < N)%nat -> (q' < Q)%nat ->
      elem A' i' q'
      = if ((i' =? i) && (q' =? q))%nat then f (elem A i q) else elem A i' q'.
Proof.
  intros (Hr & Hc & Hlen) Hi Hq. unfold update.
  rewrite check_true
    by (apply andb_true_intro; split; apply Nat.ltb_lt; lia).
  eexists. split; [reflexivity|]. split.
  - repeat split; simpl; try assumption. rewrite length_list_update. exact Hlen.
  - intros i' q' Hi' Hq'. unfold elem. simpl. rewrite Hr.
    destruct (colmajor_index Hi Hq) as (Hidx & _).
    rewrite nth_list_update by lia.
    rewrite colmajor_injective by assumption. reflexivity.
Qed.

(** A loop whose body subtracts [d x] from the matrix, entry by entry,
    subtracts the sum of the [d x]. *)
Lemma foldM_elementwise (X : Type) (N Q : nat)
    (f : mat R -> X -> result (mat R)) (d : X -> nat -> nat -> R)
    (xs : list X) (A0 : mat R) :
  (forall x A, In x xs -> has_dims A N Q ->
     exists A', f A x = Ok A' /\ has_dims A' N Q /\
       forall i q, (i < N)%nat -> (q < Q)%nat ->
         elem A' i q = elem A i q - d x i q) ->
  has_dims A0 N Q ->
  exists A', foldM f xs A0 = Ok A' /\ has_dims A' N Q /\
    forall i q, (i < N)%nat -> (q < Q)%nat ->
      elem A' i q = elem A0 i q - lsum (map (fun x => d x i q) xs).
Proof.
  revert A0. induction xs as [|x xs IH]; intros A0 Hf HA0.
  - exists A0. split; [reflexivity|]. split; [exact HA0|].
    intros i q _ _. simpl. lra.
  - destruct (Hf x A0 (or_introl eq_refl) HA0) as (A1 & E1 & HA1 & He1).
    destruct (IH A1) as (A' & E & HA' & He); [|exact HA1|].
    { intros y A Hy. apply Hf. right; exact Hy. }
    exists A'. split; [simpl; rewrite E1; exact E|]. split; [exact HA'|].
    intros i q Hi Hq. rewrite He, He1 by assumption. simpl. lra.
Qed.

End Update.

Section CovariateScores.

Variables (N Q : nat) (Y Robs : sp_mat R) (M Z Gamma : mat R) (pi : vec R).
Hypothesis Y_dims : sp_has_dims Y N N.
Hypothesis Y_wf : sp_wf Y = true.
Hypothesis R_dims : sp_has_dims Robs N N.
Hypothesis R_wf : sp_wf Robs = true.
Hypothesis R_nz : sp_nonzero Robs.
Hypothesis M_dims : has_dims M N N.
Hypothesis Z_dims : has_dims Z N Q.
Hypothesis Gamma_dims : has_dims Gamma Q Q.
Hypothesis pi_length : length pi = Q.
Hypothesis Q_pos : (0 < Q)%nat.

Lemma scatter_loop (A0 : mat R) :
  has_dims A0 N Q ->
  exists A',
    foldM
      (fun log_tau Rij =>
         foldM (fun log_tau q =>
                  foldM (fun log_tau l =>
                           zjl <- at_ Z (col Rij) l ;;
                           g <- at_ Gamma q l ;;
                           m <- at_ M (row Rij) (col Rij) ;;
                           update log_tau (row Rij) q
                             (fun x => x - zjl * ln (1 + exp (g + m))))
                        (seq 0 (n_cols Z)) log_tau)
               (seq 0 (n_cols Z)) log_tau)
      (sp_entries Robs) A0 = Ok A' /\
    has_dims A' N Q /\
    forall i q, (i < N)%nat -> (q < Q)%nat ->
      elem A' i q
      = elem A0 i q
        - big N (fun j => if observed Robs i j then dyad_penalty M Z Gamma Q i j q else 0).
Proof.
  intros HA0.
  destruct M_dims as (HMr & HMc & _). destruct Z_dims as (HZr & HZc & _).
  destruct Gamma_dims as (HGr & HGc & _). destruct R_dims as (HRr & HRc).
  rewrite HZc.
  destruct (@foldM_elementwise (nonzero R) N Q
              (fun log_tau Rij =>
                 foldM (fun log_tau q =>
                          foldM (fun log_tau l =>
                                   zjl <- at_ Z (col Rij) l ;;
                                   g <- at_ Gamma q l ;;
                                   m <- at_ M (row Rij) (col Rij) ;;
                                   update log_tau (row Rij) q
                                     (fun x => x - zjl * ln (1 + exp (g + m))))
                                (seq 0 Q) log_tau)
                       (seq 0 Q) log_tau)
              (fun e i q =>
                 if (i =? row e)%nat
                 then dyad_penalty M Z Gamma Q (row e) (col e) q
                 else 0)
              (sp_entries Robs) A0) as (A' & E & HA' & He); [|exact HA0|].
  - (* one stored element *)
    intros e A Hin HA.
    destruct (wf_in_range Robs e R_wf Hin) as (Hi & Hj).
    destruct (@foldM_elementwise nat N Q
                (fun log_tau q =>
                   foldM (fun log_tau l =>
                            zjl <- at_ Z (col e) l ;;
                            g <- at_ Gamma q l ;;
                            m <- at_ M (row e) (col e) ;;
                            update log_tau (row e) q
                              (fun x => x - zjl * ln (1 + exp (g + m))))
                         (seq 0 Q) log_tau)
                (fun q0 i q =>
                   if ((i =? row e) && (q =? q0))%nat
                   then dyad_penalty M Z Gamma Q (row e) (col e) q0 else 0)
                (seq 0 Q) A) as (A1 & E1 & HA1 & He1); [|exact HA|].
    + (* one cluster *)
      intros q0 B Hq0 HB. apply in_seq in Hq0.
      destruct (@foldM_elementwise nat N Q
                  (fun log_tau l =>
                     zjl <- at_ Z (col e) l ;;
                     g <- at_ Gamma q0 l ;;
                     m <- at_ M (row e) (col e) ;;
                     update log_tau (row e) q0
                       (fun x => x - zjl * ln (1 + exp (g + m))))
                  (fun l i q =>
                     if ((i =? row e) && (q =? q0))%nat
                     then elem Z (col e) l
                          * ln (1 + exp (elem Gamma q0 l + elem M (row e) (col e)))
                     else 0)
                  (seq 0 Q) B) as (B1 & EB & HB1 & HeB); [|exact HB|].
      * intros l C Hl HC. apply in_seq in Hl.
        rewrite !at_in_range by lia. rewrite !bind_Ok.
        destruct (@update_elem C N Q (row e) q0
                    (fun x => x - elem Z (col e) l
                                  * ln (1 + exp (elem Gamma q0 l
                                                 + elem M (row e) (col e)))))
          as (C' & EC & HC' & HeC); [exact HC | lia | lia |].
        exists C'. split; [exact EC|]. split; [exact HC'|].
        intros i q Hi' Hq'. rewrite HeC by assumption.
        destruct ((i =? row e) && (q =? q0))%nat eqn:Eiq; [|lra].
        apply andb_prop in Eiq. destruct Eiq as (Ei & Eq).
        apply Nat.eqb_eq in Ei. apply Nat.eqb_eq in Eq. subst i q. reflexivity.
      * exists B1. split; [exact EB|]. split; [exact HB1|].
        intros i q Hi' Hq'. rewrite HeB by assumption. f_equal.
        rewrite lsum_map_seq. simpl.
        destruct ((i =? row e) && (q =? q0))%nat; [reflexivity | apply big_zero].
    + exists A1. split; [exact E1|]. split; [exact HA1|].
      intros i q Hi' Hq'. rewrite He1 by assumption. f_equal.
      rewrite lsum_map_seq. simpl.
      destruct (i =? row e)%nat; simpl.
      * rewrite big_ext
          with (g := fun q0 => if (q0 =? q)%nat
                               then dyad_penalty M Z Gamma Q (row e) (col e) q0 else 0).
        -- rewrite big_delta with (f := fun q0 => dyad_penalty M Z Gamma Q (row e) (col e) q0)
             by exact Hq'.
           reflexivity.
        -- intros q0 _. rewrite (Nat.eqb_sym q q0). reflexivity.
      * apply big_zero.
  - exists A'. split; [exact E|]. split; [exact HA'|].
    intros i q Hi Hq. rewrite He by assumption. f_equal.
    unfold sp_wf in R_wf. apply andb_prop in R_wf. destruct R_wf as (Hrange & Hsorted).
    rewrite lsum_entries
      with (r := sp_n_rows Robs) (c := sp_n_cols Robs)
           (g := fun r c (_ : R) => if (i =? r)%nat then dyad_penalty M Z Gamma Q r c q else 0)
      by assumption.
    rewrite HRr, HRc.
    rewrite big_ext
      with (g := fun r => if (r =? i)%nat
                          then big N (fun j =>
                                 if observed Robs r j then dyad_penalty M Z Gamma Q r j q else 0)
                          else 0).
    + rewrite big_delta
        with (f := fun r => big N (fun j =>
                     if observed Robs r j then dyad_penalty M Z Gamma Q r j q else 0))
        by exact Hi.
      reflexivity.
    + intros r _. rewrite (Nat.eqb_sym i r). destruct (r =? i)%nat.
      * apply big_ext. intros j _. unfold observed, sp_elem.
        destruct (sp_find (sp_entries Robs) r j) as [v|] eqn:Ef.
        -- apply sp_find_In in Ef.
           unfold sp_nonzero in R_nz. rewrite Forall_forall in R_nz.
           specialize (R_nz _ Ef). simpl in R_nz.
           destruct (Req_dec_T v 0); [contradiction | reflexivity].
        -- destruct (Req_dec_T szero 0) as [_|Hne]; [reflexivity|].
           exfalso. apply Hne. reflexivity.
      * rewrite big_ext with (g := fun _ => 0); [apply big_zero|].
        intros j _. destruct (sp_find (sp_entries Robs) r j); reflexivity.
Qed.

Lemma E_step_undirected_covariates_value :
  returns_softmax_of
    (E_step_sparse_bernoulli_undirected_covariates Y Robs M Z Gamma pi)
    N Q (score_covariates Y Robs M Z Gamma pi).
Proof.
  pose proof Z_dims as (HZr & HZc & _). pose proof Gamma_dims as (HGr & HGc & _).
  unfold E_step_sparse_bernoulli_undirected_covariates. cbv zeta.
  destruct (@sp_times_ok Y Z N Q Y_wf Y_dims HZr HZc) as (YZ & -> & HYZr & HYZc & HYZ).
  rewrite bind_Ok.
  destruct (@times_ok YZ Gamma) as (A0 & EA0 & HAr & HAc & HA); [congruence|].
  pose proof (times_has_dims _ _ EA0) as HA0. rewrite HYZr, HGc in HA0.
  rewrite EA0, bind_Ok.
  destruct (@scatter_loop A0 HA0) as (A1 & -> & HA1 & He1).
  rewrite bind_Ok.
  destruct HA1 as (HA1r & HA1c & _).
  destruct (@each_row_plus_ok A1 (map ln pi)) as (log_tau & -> & Hlr & Hlc & Hl);
    [rewrite length_map; congruence|].
  rewrite bind_Ok.
  eapply returns_softmax_of_ext;
    [|apply each_row_softmax_value; congruence].
  intros i q Hi Hq. simpl.
  rewrite Hl by congruence.
  rewrite He1, HA by congruence.
  rewrite nth_map_ln by congruence.
  unfold score_covariates, dyad_penalty. rewrite HYZc, HZc, HZr.
  f_equal. f_equal.
  apply big_ext. intros l Hl'. rewrite HYZ by congruence. reflexivity.
Qed.

End CovariateScores.

(* ================================================================== *)
(** * Sums over observed dyads of 0/1 matrices *)

Lemma obs_sum_binary (S : sp_mat R) (F : nat -> nat -> R) :
  sp_binary S ->
  obs_sum S F
  = big (sp_n_rows S) (fun i => big (sp_n_cols S) (fun j => sp_elem S i j * F i j)).
Proof.
  intros Hb. unfold obs_sum, observed.
  apply big_ext. intros i _. apply big_ext. intros j _.
  destruct (Req_dec_T (sp_elem S i j) 0) as [E|E].
  - rewrite E. lra.
  - destruct (Hb i j) as [H|H]; [contradiction|]. rewrite H. lra.
Qed.

Lemma big4_swap (a b c d : nat) (f : nat -> nat -> nat -> nat -> R) :
  big a (fun q => big b (fun l => big c (fun i => big d (fun j => f q l i j))))
  = big c (fun i => big d (fun j => big a (fun q => big b (fun l => f q l i j)))).
Proof.
  transitivity
    (big a (fun q => big c (fun i => big d (fun j => big b (fun l => f q l i j))))).
  { apply big_ext. intros q _.
    rewrite big_swap. apply big_ext. intros i _. apply big_swap. }
  rewrite big_swap. apply big_ext. intros i _. apply big_swap.
Qed.

(** Over a 0/1 matrix the sum of a bilinear dyad term over the stored
    dyads is the weighted sum of the quadratic form. *)
Lemma obs_sum_weighted (N Q : nat) (S : sp_mat R) (Z : mat R)
    (G F : nat -> nat -> R) :
  sp_has_dims S N N -> has_dims Z N Q -> sp_binary S ->
  (forall i j, (i < N)%nat -> (j < N)%nat ->
     F i j = big Q (fun q => big Q (fun l => elem Z i q * elem Z j l * G q l))) ->
  obs_sum S F = weighted_sum S Z G.
Proof.
  intros (Hr & Hc) (HZr & HZc & _) Hb HF.
  rewrite obs_sum_binary by exact Hb.
  unfold weighted_sum, quad_form. rewrite Hr, Hc, HZr, HZc.
  transitivity
    (big N (fun i => big N (fun j => big Q (fun q => big Q (fun l =>
       elem Z i q * sp_elem S i j * elem Z j l * G q l))))).
  - apply big_ext. intros i Hi. apply big_ext. intros j Hj.
    rewrite HF by assumption. rewrite Rmult_comm, <- big_scal_r.
    apply big_ext. intros q _. rewrite <- big_scal_r.
    apply big_ext. intros l _. ring.
  - rewrite <- big4_swap.
    apply big_ext. intros q _. apply big_ext. intros l _.
    rewrite <- big_scal_r. apply big_ext. intros i _.
    rewrite <- big_scal_r. reflexivity.
Qed.

Lemma weighted_sum_ext (S : sp_mat R) (Z : mat R) (G G' : nat -> nat -> R) :
  (forall q l, (q < n_cols Z)%nat -> (l < n_cols Z)%nat -> G q l = G' q l) ->
  weighted_sum S Z G = weighted_sum S Z G'.
Proof.
  intros H. unfold weighted_sum.
  apply big_ext. intros q Hq. apply big_ext. intros l Hl.
  rewrite H by assumption. reflexivity.
Qed.

Lemma weighted_sum_opp (S : sp_mat R) (Z : mat R) (G : nat -> nat -> R) :
  weighted_sum S Z (fun q l => - G q l) = - weighted_sum S Z G.
Proof.
  unfold weighted_sum. rewrite <- big_neg.
  apply big_ext. intros q _. rewrite <- big_neg.
  apply big_ext. intros l _. ring.
Qed.

(** log(1 + exp(logit t)) = - log(1 - t). *)
Lemma log1p_exp_logit (t : R) :
  0 < t < 1 -> ln (1 + exp (ln (t / (1 - t)) + 0)) = - ln (1 - t).
Proof.
  intros Ht.
  assert (Hpos : 0 < t / (1 - t)).
  { apply Rmult_lt_0_compat; [lra|]. apply Rinv_0_lt_compat. lra. }
  rewrite Rplus_0_r, exp_ln by exact Hpos.
  replace (1 + t / (1 - t)) with (/ (1 - t)) by (field; lra).
  apply ln_Rinv. lra.
Qed.

Section Embedding.

Variables (N Q : nat) (Y Robs : sp_mat R) (Z theta : mat R) (pi : vec R).
Hypothesis Y_dims : sp_has_dims Y N N.
Hypothesis R_dims : sp_has_dims Robs N N.
Hypothesis Z_dims : has_dims Z N Q.
Hypothesis theta_dims : has_dims theta Q Q.
Hypothesis theta_unit : in_unit_interval theta.

Lemma elem_log_odds (q l : nat) :
  (q < Q)%nat -> (l < Q)%nat -> elem (log_odds theta) q l = logit theta q l.
Proof.
  intros Hq Hl. unfold log_odds.
  destruct theta_dims as (-> & -> & _).
  apply elem_mat_init; assumption.
Qed.

Lemma elem_zeros (i j : nat) :
  (i < N)%nat -> (j < N)%nat -> elem (zeros N N) i j = 0.
Proof. intros Hi Hj. unfold zeros. rewrite elem_mat_init by assumption. reflexivity. Qed.

Lemma edge_sum_logit :
  sp_binary Y ->
  obs_sum Y (edge_term (zeros N N) Z (log_odds theta))
  = weighted_sum Y Z (fun q l => ln (elem theta q l / (1 - elem theta q l))).
Proof.
  intros Hb.
  apply (@obs_sum_weighted N Q); try assumption.
  intros i j Hi Hj. unfold edge_term.
  destruct Z_dims as (_ & -> & _).
  apply big_ext. intros q Hq. apply big_ext. intros l Hl.
  rewrite elem_log_odds, elem_zeros by assumption.
  unfold logit. rewrite Rplus_0_r. reflexivity.
Qed.

Lemma partition_sum_logit :
  sp_binary Robs ->
  obs_sum Robs (partition_term (zeros N N) Z (log_odds theta))
  = - weighted_sum Robs Z (fun q l => ln (1 - elem theta q l)).
Proof.
  intros Hb.
  rewrite <- weighted_sum_opp.
  apply (@obs_sum_weighted N Q); try assumption.
  intros i j Hi Hj. unfold partition_term.
  destruct Z_dims as (_ & -> & _).
  apply big_ext. intros q Hq. apply big_ext. intros l Hl.
  rewrite elem_log_odds, elem_zeros by assumption.
  unfold logit. rewrite log1p_exp_logit; [reflexivity|].
  destruct theta_dims as (Hr & Hc & _).
  apply theta_unit; rewrite ?Hr, ?Hc; assumption.
Qed.

Lemma log_odds_dims : has_dims (log_odds theta) Q Q.
Proof.
  unfold log_odds. destruct theta_dims as (-> & -> & _). apply mat_init_dims.
Qed.

Lemma zeros_dims : has_dims (@zeros R _ N N) N N.
Proof. apply mat_init_dims. Qed.

End Embedding.

(* ================================================================== *)
(** * Dense matrices are determined by their entries *)

Lemma mat_ext (A B : mat R) (r c : nat) :
  has_dims A r c -> has_dims B r c ->
  (forall i j, (i < r)%nat -> (j < c)%nat -> elem A i j = elem B i j) ->
  A = B.
Proof.
  intros (HAr & HAc & HAl) (HBr & HBc & HBl) He.
  destruct A as [ra ca ma], B as [rb cb mb]. simpl in *. subst ra ca rb cb.
  f_equal. apply nth_ext with (d := 0) (d' := 0); [congruence|].
  intros k Hk. rewrite HAl in Hk.
  assert (Hr : r <> 0%nat) by (intros ->; simpl in Hk; lia).
  assert (Hi : (k mod r < r)%nat) by (apply Nat.mod_upper_bound; exact Hr).
  assert (Hj : (k / r < c)%nat) by (apply Nat.Div0.div_lt_upper_bound; exact Hk).
  specialize (He _ _ Hi Hj). unfold elem in He. simpl in He.
  replace (k mod r + k / r * r)%nat with k in He; [exact He|].
  rewrite (Nat.div_mod_eq k r) at 1. lia.
Qed.

Lemma big_pos (n : nat) (f : nat -> R) :
  (0 < n)%nat -> (forall k, (k < n)%nat -> 0 < f k) -> 0 < big n f.
Proof.
  intros Hn Hf. destruct n as [|n]; [lia|]. simpl.
  assert (0 <= big n f).
  { apply big_nonneg. intros k Hk. apply Rlt_le, Hf. lia. }
  assert (0 < f n) by (apply Hf; lia).
  lra.
Qed.

Lemma nth_unit_interval (pi : vec R) (k : nat) :
  vec_in_unit_interval pi -> (k < length pi)%nat -> 0 < nth k pi 0 < 1.
Proof.
  intros Hpi Hk. unfold vec_in_unit_interval in Hpi.
  rewrite Forall_forall in Hpi. apply Hpi, nth_In, Hk.
Qed.

(** Scores that are the log-prior up to a constant of the row give the
    normalised prior. *)
Lemma softmax_of_prior (Q : nat) (s : nat -> R) (c : R) (pi : vec R) (q : nat) :
  length pi = Q -> vec_in_unit_interval pi -> (q < Q)%nat ->
  (forall k, (k < Q)%nat -> s k = c + ln (nth k pi 0)) ->
  exp (s q) / big Q (fun k => exp (s k))
  = nth q pi 0 / big Q (fun k => nth k pi 0).
Proof.
  intros Hlen Hpi Hq Hs.
  assert (Hexp : forall k, (k < Q)%nat -> exp (s k) = nth k pi 0 * exp c).
  { intros k Hk. rewrite Hs by exact Hk. rewrite exp_plus, exp_ln; [ring|].
    apply nth_unit_interval; [exact Hpi | lia]. }
  rewrite (Hexp q Hq).
  rewrite big_ext with (g := fun k => nth k pi 0 * exp c) by exact Hexp.
  rewrite big_scal_r.
  assert (0 < big Q (fun k => nth k pi 0)).
  { apply big_pos; [lia|]. intros k Hk.
    apply nth_unit_interval; [exact Hpi | lia]. }
  pose proof (exp_pos c).
  field. split; lra.
Qed.

(* ================================================================== *)
(** * The scores of special inputs *)

Section SpecialScores.

Variables (N Q : nat) (Y Robs : sp_mat R) (Z theta : mat R) (pi : vec R).
Hypothesis Y_dims : sp_has_dims Y N N.
Hypothesis R_dims : sp_has_dims Robs N N.
Hypothesis Z_dims : has_dims Z N Q.
Hypothesis theta_dims : has_dims theta Q Q.
Hypothesis theta_unit : in_unit_interval theta.

Lemma penalty_sum_logit (i q : nat) :
  sp_binary Robs -> mat_symmetric theta -> (i < N)%nat -> (q < Q)%nat ->
  big N (fun j =>
    if observed Robs i j
    then big Q (fun l =>
           elem Z j l
           * ln (1 + exp (elem (log_odds theta) q l + elem (@zeros R _ N N) i j)))
    else 0)
  = - big Q (fun l => SZ Robs Z i l * log1m theta l q).
Proof.
  intros Hb Hsym Hi Hq.
  destruct Z_dims as (HZr & HZc & _). destruct theta_dims as (Htr & Htc & _).
  transitivity
    (big N (fun j => big Q (fun l =>
       sp_elem Robs i j * elem Z j l * (- log1m theta l q)))).
  - apply big_ext. intros j Hj. unfold observed.
    destruct (Req_dec_T (sp_elem Robs i j) 0) as [E|E].
    + rewrite E. rewrite big_ext with (g := fun _ => 0).
      * rewrite big_zero. reflexivity.
      * intros l _. ring.
    + destruct (Hb i j) as [H|H]; [contradiction|]. rewrite H.
      apply big_ext. intros l Hl.
      rewrite (@elem_log_odds Q theta) by assumption || (repeat split; assumption).
      rewrite (@elem_zeros N) by assumption.
      unfold logit. rewrite log1p_exp_logit
        by (apply theta_unit; rewrite ?Htr, ?Htc; assumption).
      unfold log1m. rewrite (Hsym q l) by (rewrite Htr; assumption). ring.
  - rewrite big_swap, <- big_neg. apply big_ext. intros l _.
    unfold SZ. rewrite HZr. rewrite <- big_scal_r, <- big_neg.
    apply big_ext. intros j _. ring.
Qed.

Lemma score_covariates_logit (i q : nat) :
  sp_binary Robs -> mat_symmetric theta -> (i < N)%nat -> (q < Q)%nat ->
  score_covariates Y Robs (zeros N N) Z (log_odds theta) pi i q
  = score_undirected Y Robs Z theta pi 0 i q.
Proof.
  intros Hb Hsym Hi Hq.
  unfold score_covariates, score_undirected.
  pose proof Z_dims as (HZr & HZc & _). rewrite HZr, HZc.
  rewrite penalty_sum_logit by assumption.
  rewrite big_ext with (g := fun l => SZ Y Z i l * logit theta l q).
  - ring.
  - intros l Hl. rewrite (@elem_log_odds Q theta) by assumption. reflexivity.
Qed.

Lemma SZ_empty_row (S : sp_mat R) (i l : nat) :
  empty_row S i -> SZ S Z i l = 0.
Proof.
  intros He. unfold SZ. rewrite big_ext with (g := fun _ => 0).
  - apply big_zero.
  - intros j _. rewrite He. ring.
Qed.

Lemma StZ_empty_col (S : sp_mat R) (i l : nat) :
  empty_col S i -> StZ S Z i l = 0.
Proof.
  intros He. unfold StZ. rewrite big_ext with (g := fun _ => 0).
  - apply big_zero.
  - intros j _. rewrite He. ring.
Qed.

Lemma big_zero_terms (n : nat) (f : nat -> R) :
  (forall k, (k < n)%nat -> f k = 0) -> big n f = 0.
Proof. intros H. rewrite big_ext with (g := fun _ => 0); [apply big_zero | exact H]. Qed.

Lemma score_undirected_empty_row (log_lambda : R) (i q : nat) :
  empty_row Y i -> empty_row Robs i ->
  score_undirected Y Robs Z theta pi log_lambda i q
  = log_lambda + ln (nth q pi 0).
Proof.
  intros HY HR. unfold score_undirected.
  rewrite !big_zero_terms; [ring | |];
    intros l _; rewrite SZ_empty_row by assumption; ring.
Qed.

Lemma score_directed_empty (log_lambda : R) (i q : nat) :
  empty_row Y i -> empty_row Robs i -> empty_col Y i -> empty_col Robs i ->
  score_directed Y Robs Z theta pi log_lambda i q
  = log_lambda + ln (nth q pi 0).
Proof.
  intros HY HR HYc HRc. unfold score_directed.
  rewrite !big_zero_terms; [ring | | | |];
    intros l _;
    rewrite ?SZ_empty_row, ?StZ_empty_col by assumption; ring.
Qed.

Lemma score_covariates_empty_row (M Gamma : mat R) (i q : nat) :
  empty_row Y i -> empty_row Robs i ->
  score_covariates Y Robs M Z Gamma pi i q = 0 + ln (nth q pi 0).
Proof.
  intros HY HR. unfold score_covariates.
  rewrite !big_zero_terms; [ring | |].
  - intros j _. unfold observed. rewrite HR.
    destruct (Req_dec_T 0 0) as [_|E]; [reflexivity | contradiction E; reflexivity].
  - intros l _. rewrite SZ_empty_row by assumption. ring.
Qed.

End SpecialScores.

(* ================================================================== *)
(** * Expectation steps without a cluster *)

Lemma each_row_no_column (A : mat R) :
  n_cols A = 0%nat -> (0 < n_rows A)%nat ->
  each_row softmax_row A = Raise no_elements.
Proof.
  intros Hc Hr. unfold each_row. rewrite Hc.
  destruct (n_rows A) as [|n]; [lia|]. reflexivity.
Qed.

Lemma foldM_skip (A B : Type) (l : list A) (b : B) :
  foldM (fun b0 (_ : A) => Ok b0) l b = Ok b.
Proof. induction l as [|x l IH]; simpl; [reflexivity | exact IH]. Qed.

Lemma toy_R4_nonzero : sp_nonzero toy_R4.
Proof. unfold sp_nonzero. repeat constructor; simpl; lra. Qed.

Lemma toy_R_binary : sp_binary (toy_R 1).
Proof.
  intros i j. unfold sp_elem.
  destruct i as [|[|[|i]]]; destruct j as [|[|[|j]]]; simpl; lra.
Qed.

Lemma toy_Y_binary : sp_binary (toy_Y 1).
Proof.
  intros i j. unfold sp_elem.
  destruct i as [|[|[|i]]]; destruct j as [|[|[|j]]]; simpl; lra.
Qed.

Lemma toy_theta_symmetric : mat_symmetric toy_theta.
Proof.
  intros i j Hi Hj. simpl in Hi, Hj. unfold elem.
  destruct i as [|[|i]]; destruct j as [|[|j]]; try lia; reflexivity.
Qed.

(* ================================================================== *)
(** * The objective of the covariate M-step and the covariate evaluator *)

Section ObjectiveAndLikelihood.

Variables (N Q K : nat) (param : vec R) (Y Robs : sp_mat R) (X : cube R)
          (Z : mat R).
Hypothesis param_length : (Q * Q <= length param)%nat.
Hypothesis Y_dims : sp_has_dims Y N N.
Hypothesis R_dims : sp_has_dims Robs N N.
Hypothesis Z_dims : has_dims Z N Q.

Lemma Gamma_matrix_dims : has_dims (Gamma_matrix param Z) Q Q.
Proof.
  unfold Gamma_matrix. destruct Z_dims as (_ & -> & _).
  repeat split. simpl. rewrite length_firstn. lia.
Qed.

Lemma predictor_matrix_dims : has_dims (predictor_matrix param X Z) N N.
Proof.
  unfold predictor_matrix. destruct Z_dims as (-> & _). apply mat_init_dims.
Qed.

Lemma elem_Gamma_matrix (q l : nat) :
  (q < Q)%nat -> (l < Q)%nat ->
  elem (Gamma_matrix param Z) q l = Gamma_of param Z q l.
Proof.
  intros Hq Hl. unfold elem, Gamma_matrix, Gamma_of. simpl.
  destruct Z_dims as (_ & -> & _).
  rewrite nth_firstn.
  destruct (colmajor_index Hq Hl) as (Hlt & _).
  apply Nat.ltb_lt in Hlt. rewrite Hlt. reflexivity.
Qed.

Lemma elem_predictor_matrix (i j : nat) :
  (i < N)%nat -> (j < N)%nat ->
  elem (predictor_matrix param X Z) i j = mu_of param X Z i j.
Proof.
  intros Hi Hj. unfold predictor_matrix. destruct Z_dims as (-> & _).
  apply elem_mat_init; assumption.
Qed.

Lemma log_density_split (i j : nat) :
  (i < N)%nat -> (j < N)%nat ->
  log_density param Y X Z i j
  = sp_elem Y i j
    * edge_term (predictor_matrix param X Z) Z (Gamma_matrix param Z) i j
    - partition_term (predictor_matrix param X Z) Z (Gamma_matrix param Z) i j.
Proof.
  intros Hi Hj. unfold log_density, edge_term, partition_term.
  pose proof Z_dims as (_ & HZc & _). rewrite HZc.
  symmetry. rewrite Rmult_comm, <- big_scal_r.
  unfold Rminus. rewrite <- big_neg, <- big_plus.
  apply big_ext. intros q Hq.
  rewrite <- big_scal_r, <- big_neg, <- big_plus.
  apply big_ext. intros l Hl.
  rewrite elem_Gamma_matrix, elem_predictor_matrix by assumption.
  ring.
Qed.

Lemma dyad_sum_log_density :
  sp_binary Y -> edges_observed Y Robs ->
  dyad_sum Robs (log_density param Y X Z)
  = dyad_sum Y (edge_term (predictor_matrix param X Z) Z (Gamma_matrix param Z))
    - dyad_sum Robs
        (partition_term (predictor_matrix param X Z) Z (Gamma_matrix param Z)).
Proof.
  intros Hb Hobs. unfold dyad_sum.
  destruct Y_dims as (-> & ->). destruct R_dims as (-> & ->).
  unfold Rminus. rewrite <- big_neg, <- big_plus.
  apply big_ext. intros i Hi.
  rewrite <- big_neg, <- big_plus.
  apply big_ext. intros j Hj.
  destruct (j <? i)%nat; simpl andb; [|lra].
  rewrite log_density_split by assumption.
  unfold observed.
  destruct (Req_dec_T (sp_elem Robs i j) 0) as [ER|ER];
    destruct (Req_dec_T (sp_elem Y i j) 0) as [EY|EY].
  - lra.
  - contradiction (Hobs i j EY).
  - rewrite EY. lra.
  - destruct (Hb i j) as [H|H]; [contradiction|]. rewrite H. lra.
Qed.

End ObjectiveAndLikelihood.

(* ================================================================== *)
(** * The gradient of the covariate M-step is the derivative of its objective *)

Section Derivatives.

Lemma derive_eq (f : R -> R) (x l l' : R) :
  l = l' -> derivable_pt_lim f x l -> derivable_pt_lim f x l'.
Proof. intros ->. exact (fun H => H). Qed.

Lemma derive_big (n : nat) (F : nat -> R -> R) (F' : nat -> R) (x : R) :
  (forall k, (k < n)%nat -> derivable_pt_lim (F k) x (F' k)) ->
  derivable_pt_lim (fun t => big n (fun k => F k t)) x (big n F').
Proof.
  induction n as [|n IH]; intros H; simpl.
  - apply derivable_pt_lim_const.
  - exact (derivable_pt_lim_plus (fun t => big n (fun k => F k t)) (F n) x _ _
             (IH (fun k Hk => H k (Nat.lt_lt_succ_r _ _ Hk)))
             (H n (Nat.lt_succ_diag_r n))).
Qed.

Lemma derive_if (b : bool) (F : R -> R) (x l : R) :
  derivable_pt_lim F x l ->
  derivable_pt_lim (fun t => if b then F t else 0) x (if b then l else 0).
Proof.
  intros H. destruct b; [exact H | apply derivable_pt_lim_const].
Qed.

Lemma derive_scal_r (f : R -> R) (c x l : R) :
  derivable_pt_lim f x l -> derivable_pt_lim (fun t => f t * c) x (l * c).
Proof.
  intros H.
  apply derive_eq with (l := c * l); [ring|].
  apply derivable_pt_lim_ext with (f := mult_real_fct c f).
  - intros z. unfold mult_real_fct. ring.
  - apply derivable_pt_lim_scal, H.
Qed.

Lemma derive_nth_update (param : vec R) (idx k : nat) (x : R) :
  (idx < length param)%nat ->
  derivable_pt_lim (fun t => nth k (with_entry param idx t) 0) x
    (if (k =? idx)%nat then 1 else 0).
Proof.
  intros Hidx.
  apply derivable_pt_lim_ext
    with (f := fun t => if (k =? idx)%nat then t else nth k param 0).
  - intros t. unfold with_entry. rewrite nth_list_update by exact Hidx. reflexivity.
  - destruct (k =? idx)%nat.
    + apply derivable_pt_lim_id.
    + apply derivable_pt_lim_const.
Qed.

Lemma sigmoid_exp (u : R) : exp u / (1 + exp u) = sigmoid u.
Proof.
  unfold sigmoid. rewrite exp_Ropp. pose proof (exp_pos u). field. lra.
Qed.

Lemma derive_bernoulli (a : R -> R) (c x w y : R) :
  derivable_pt_lim a x c ->
  derivable_pt_lim (fun t => w * (y * a t - ln (1 + exp (a t)))) x
    (w * (y - sigmoid (a x)) * c).
Proof.
  intros Ha.
  pose proof (exp_pos (a x)) as He.
  assert (H1 : derivable_pt_lim (fun t => y * a t) x (y * c))
    by exact (derivable_pt_lim_scal a y x c Ha).
  assert (H2 : derivable_pt_lim (fun t => 1 + exp (a t)) x (0 + exp (a x) * c)).
  { exact (derivable_pt_lim_plus (fct_cte 1) (comp exp a) x _ _
             (derivable_pt_lim_const 1 x)
             (derivable_pt_lim_comp a exp x _ _ Ha (derivable_pt_lim_exp (a x)))). }
  assert (H3 : derivable_pt_lim (fun t => ln (1 + exp (a t))) x
                 (/ (1 + exp (a x)) * (0 + exp (a x) * c))).
  { refine (derivable_pt_lim_comp (fun t => 1 + exp (a t)) ln x _ _ H2 _).
    apply derivable_pt_lim_ln. lra. }
  apply derive_eq
    with (l := w * (y * c - / (1 + exp (a x)) * (0 + exp (a x) * c))).
  - rewrite <- sigmoid_exp. field. lra.
  - exact (derivable_pt_lim_scal _ w x _
             (derivable_pt_lim_minus _ _ x _ _ H1 H3)).
Qed.

Lemma with_entry_same (param : vec R) (idx : nat) :
  with_entry param idx (nth idx param 0) = param.
Proof.
  unfold with_entry. revert idx.
  induction param as [|p param IH]; intros [|idx]; simpl; try reflexivity.
  rewrite IH. reflexivity.
Qed.

Lemma length_with_entry (param : vec R) (idx : nat) (t : R) :
  length (with_entry param idx t) = length param.
Proof. apply length_list_update. Qed.

End Derivatives.

Lemma dyad_sum_ext (S : sp_mat R) (F G : nat -> nat -> R) :
  (forall i j, (i < sp_n_rows S)%nat -> (j < sp_n_cols S)%nat -> F i j = G i j) ->
  dyad_sum S F = dyad_sum S G.
Proof.
  intros H. unfold dyad_sum.
  apply big_ext. intros i Hi. apply big_ext. intros j Hj.
  rewrite H by assumption. reflexivity.
Qed.

Lemma big_pick2 (n q0 l0 : nat) (f : nat -> nat -> R) :
  (q0 < n)%nat -> (l0 < n)%nat ->
  big n (fun q => big n (fun l =>
    f q l * (if ((q =? q0) && (l =? l0))%nat then 1 else 0))) = f q0 l0.
Proof.
  intros Hq Hl.
  transitivity
    (big n (fun q => big n (fun l =>
       if ((q0 =? q) && (l0 =? l))%nat then f q0 l0 else 0))).
  - apply big_ext. intros q _. apply big_ext. intros l _.
    rewrite (Nat.eqb_sym q0 q), (Nat.eqb_sym l0 l).
    destruct (Nat.eqb_spec q q0) as [->|_]; destruct (Nat.eqb_spec l l0) as [->|_];
      simpl; ring.
  - apply big_delta2; assumption.
Qed.

Section Gradient.

Variables (N Q K : nat) (param : vec R) (Y Robs : sp_mat R) (X : cube R)
          (Z : mat R) (idx : nat).
Hypothesis param_length : length param = (Q * Q + K)%nat.
Hypothesis Y_dims : sp_has_dims Y N N.
Hypothesis R_dims : sp_has_dims Robs N N.
Hypothesis R_wf : sp_wf Robs = true.
Hypothesis R_nz : sp_nonzero Robs.
Hypothesis X_dims : cube_has_dims X N N K.
Hypothesis Z_dims : has_dims Z N Q.
Hypothesis idx_range : (idx < Q * Q + K)%nat.

Lemma objective_at_value (p : vec R) :
  length p = (Q * Q + K)%nat ->
  objective_at Y Robs X Z p = spec_objective p Y Robs X Z.
Proof.
  intros Hp. unfold objective_at.
  destruct (@M_step_covariates_value N Q K p Y Robs X Z)
    as (og & -> & Hobj & _); try assumption. lia.
Qed.

Lemma derive_predictor (i j q l : nat) :
  derivable_pt_lim
    (fun t => Gamma_of (with_entry param idx t) Z q l
              + mu_of (with_entry param idx t) X Z i j)
    (nth idx param 0) (slope param X Z idx i j q l).
Proof.
  assert (Hidx : (idx < length param)%nat) by lia.
  unfold Gamma_of, mu_of, beta_of, slope.
  refine (derivable_pt_lim_plus
            (fun t => nth (q + l * n_cols Z) (with_entry param idx t) 0)
            (fun t => big (n_slices X) (fun k =>
               nth (n_cols Z * n_cols Z + k) (with_entry param idx t) 0
               * cube_elem X i j k))
            _ _ _ (@derive_nth_update param idx _ _ Hidx) _).
  apply derive_big
    with (F := fun k t => nth (n_cols Z * n_cols Z + k) (with_entry param idx t) 0
                          * cube_elem X i j k).
  intros k _. apply derive_scal_r. apply (@derive_nth_update param idx _ _ Hidx).
Qed.

Lemma derive_term (i j q l : nat) :
  derivable_pt_lim
    (fun t =>
       elem Z i q * elem Z j l
       * (sp_elem Y i j
          * (Gamma_of (with_entry param idx t) Z q l
             + mu_of (with_entry param idx t) X Z i j)
          - ln (1 + exp (Gamma_of (with_entry param idx t) Z q l
                         + mu_of (with_entry param idx t) X Z i j))))
    (nth idx param 0)
    (elem Z i q * elem Z j l
     * (sp_elem Y i j - sigmoid (Gamma_of param Z q l + mu_of param X Z i j))
     * slope param X Z idx i j q l).
Proof.
  pose proof (@derive_bernoulli
                (fun t => Gamma_of (with_entry param idx t) Z q l
                          + mu_of (with_entry param idx t) X Z i j)
                _ _ (elem Z i q * elem Z j l) (sp_elem Y i j)
                (derive_predictor i j q l)) as H.
  cbv beta in H. rewrite with_entry_same in H. exact H.
Qed.

Lemma derive_spec_objective :
  derivable_pt_lim
    (fun t => spec_objective (with_entry param idx t) Y Robs X Z)
    (nth idx param 0)
    (- dyad_sum Robs (fun i j =>
         big (n_cols Z) (fun q => big (n_cols Z) (fun l =>
           elem Z i q * elem Z j l
           * (sp_elem Y i j - sigmoid (Gamma_of param Z q l + mu_of param X Z i j))
           * slope param X Z idx i j q l)))).
Proof.
  unfold spec_objective, dyad_sum, log_density.
  refine (derivable_pt_lim_opp _ _ _ _).
  apply derive_big with
    (F := fun i t => big (sp_n_cols Robs) (fun j =>
            if (j <? i)%nat && observed Robs i j
            then big (n_cols Z) (fun q => big (n_cols Z) (fun l =>
                   elem Z i q * elem Z j l
                   * (sp_elem Y i j
                      * (Gamma_of (with_entry param idx t) Z q l
                         + mu_of (with_entry param idx t) X Z i j)
                      - ln (1 + exp (Gamma_of (with_entry param idx t) Z q l
                                     + mu_of (with_entry param idx t) X Z i j)))))
            else 0)).
  intros i _.
  apply derive_big with
    (F := fun j t =>
            if (j <? i)%nat && observed Robs i j
            then big (n_cols Z) (fun q => big (n_cols Z) (fun l =>
                   elem Z i q * elem Z j l
                   * (sp_elem Y i j
                      * (Gamma_of (with_entry param idx t) Z q l
                         + mu_of (with_entry param idx t) X Z i j)
                      - ln (1 + exp (Gamma_of (with_entry param idx t) Z q l
                                     + mu_of (with_entry param idx t) X Z i j)))))
            else 0).
  intros j _.
  apply derive_if with
    (F := fun t => big (n_cols Z) (fun q => big (n_cols Z) (fun l =>
                   elem Z i q * elem Z j l
                   * (sp_elem Y i j
                      * (Gamma_of (with_entry param idx t) Z q l
                         + mu_of (with_entry param idx t) X Z i j)
                      - ln (1 + exp (Gamma_of (with_entry param idx t) Z q l
                                     + mu_of (with_entry param idx t) X Z i j)))))).
  apply derive_big with
    (F := fun q t => big (n_cols Z) (fun l =>
                   elem Z i q * elem Z j l
                   * (sp_elem Y i j
                      * (Gamma_of (with_entry param idx t) Z q l
                         + mu_of (with_entry param idx t) X Z i j)
                      - ln (1 + exp (Gamma_of (with_entry param idx t) Z q l
                                     + mu_of (with_entry param idx t) X Z i j))))).
  intros q _.
  apply derive_big with
    (F := fun l t =>
                   elem Z i q * elem Z j l
                   * (sp_elem Y i j
                      * (Gamma_of (with_entry param idx t) Z q l
                         + mu_of (with_entry param idx t) X Z i j)
                      - ln (1 + exp (Gamma_of (with_entry param idx t) Z q l
                                     + mu_of (with_entry param idx t) X Z i j)))).
  intros l _. apply derive_term.
Qed.

Lemma slope_Gamma (q0 l0 i j q l : nat) :
  (q0 < Q)%nat -> (l0 < Q)%nat -> idx = (q0 + l0 * Q)%nat ->
  (q < Q)%nat -> (l < Q)%nat ->
  slope param X Z idx i j q l = if ((q =? q0) && (l =? l0))%nat then 1 else 0.
Proof.
  intros Hq0 Hl0 E Hq Hl. unfold slope.
  destruct Z_dims as (_ & -> & _). destruct X_dims as (_ & _ & -> & _).
  destruct (colmajor_index Hq0 Hl0) as (Hlt & _).
  rewrite big_zero_terms.
  - rewrite E, (@colmajor_injective Q q0 l0 q l) by assumption. ring.
  - intros k _. destruct (Nat.eqb_spec (Q * Q + k) idx) as [E'|_]; [lia | ring].
Qed.

Lemma slope_beta (k0 i j q l : nat) :
  (k0 < K)%nat -> idx = (Q * Q + k0)%nat -> (q < Q)%nat -> (l < Q)%nat ->
  slope param X Z idx i j q l = cube_elem X i j k0.
Proof.
  intros Hk0 E Hq Hl. unfold slope.
  destruct Z_dims as (_ & -> & _). destruct X_dims as (_ & _ & -> & _).
  destruct (colmajor_index Hq Hl) as (Hlt & _).
  destruct (Nat.eqb_spec (q + l * Q) idx) as [E'|_]; [lia|].
  rewrite big_ext
    with (g := fun k => if (k =? k0)%nat then cube_elem X i j k else 0).
  - rewrite big_delta by exact Hk0. ring.
  - intros k _. rewrite E.
    destruct (Nat.eqb_spec (Q * Q + k) (Q * Q + k0)) as [E'|E'];
      destruct (Nat.eqb_spec k k0) as [E''|E'']; try lia; ring.
Qed.

Lemma M_step_gradient_derivative :
  exists og,
    M_step_sparse_bernoulli_undirected_covariates param Y Robs X Z = Ok og /\
    derivable_pt_lim
      (fun t => objective_at Y Robs X Z (with_entry param idx t))
      (nth idx param 0) (nth idx (gradient og) 0).
Proof.
  destruct (@M_step_covariates_value N Q K param Y Robs X Z)
    as (og & Hok & _ & _ & HgG & HgB); try assumption; [lia|].
  exists og. split; [exact Hok|].
  apply derivable_pt_lim_ext
    with (f := fun t => spec_objective (with_entry param idx t) Y Robs X Z).
  { intros t. symmetry. apply objective_at_value.
    rewrite length_with_entry. exact param_length. }
  eapply derive_eq; [|apply derive_spec_objective].
  pose proof Z_dims as (_ & HZc & _). rewrite HZc.
  destruct (Nat.lt_ge_cases idx (Q * Q)) as [Hlt|Hge].
  - assert (HQ : Q <> 0%nat) by (intros ->; simpl in Hlt; lia).
    assert (Hq0 : (idx mod Q < Q)%nat) by (apply Nat.mod_upper_bound; exact HQ).
    assert (Hl0 : (idx / Q < Q)%nat)
      by (apply Nat.Div0.div_lt_upper_bound; exact Hlt).
    assert (E : idx = (idx mod Q + idx / Q * Q)%nat).
    { rewrite (Nat.div_mod_eq idx Q) at 1. lia. }
    replace (nth idx (gradient og) 0)
      with (nth (idx mod Q + idx / Q * Q) (gradient og) 0)
      by (rewrite <- E; reflexivity).
    rewrite (HgG _ _ Hq0 Hl0).
    unfold spec_gradient_Gamma. f_equal.
    apply dyad_sum_ext. intros i j _ _.
    rewrite <- (@big_pick2 Q (idx mod Q) (idx / Q)
                  (fun q l => residual param Y X Z i j q l) Hq0 Hl0).
    apply big_ext. intros q Hq. apply big_ext. intros l Hl.
    rewrite (@slope_Gamma (idx mod Q) (idx / Q) i j q l Hq0 Hl0 E Hq Hl).
    unfold residual. reflexivity.
  - assert (Hk0 : (idx - Q * Q < K)%nat) by lia.
    assert (E : idx = (Q * Q + (idx - Q * Q))%nat) by lia.
    replace (nth idx (gradient og) 0)
      with (nth (Q * Q + (idx - Q * Q)) (gradient og) 0)
      by (rewrite <- E; reflexivity).
    rewrite (HgB _ Hk0).
    unfold spec_gradient_beta. f_equal.
    apply dyad_sum_ext. intros i j _ _. rewrite HZc.
    rewrite <- big_scal_r. apply big_ext. intros q Hq.
    rewrite <- big_scal_r. apply big_ext. intros l Hl.
    rewrite (@slope_beta (idx - Q * Q) i j q l Hk0 E Hq Hl).
    unfold residual. reflexivity.
Qed.

End Gradient.

(* ================================================================== *)
(** * The closed-form M-step maximises the no-covariate likelihood *)

Section Maximiser.

Lemma ln_le_minus_1 (x : R) : 0 < x -> ln x <= x - 1.
Proof.
  intros Hx. pose proof (exp_ineq1_le (ln x)) as H.
  rewrite exp_ln in H by exact Hx. lra.
Qed.

Lemma ln_quot (a b : R) : 0 < a -> 0 < b -> ln (a / b) = ln a - ln b.
Proof.
  intros Ha Hb. unfold Rdiv.
  rewrite ln_mult by (try apply Rinv_0_lt_compat; assumption).
  rewrite ln_Rinv by exact Hb. ring.
Qed.

Lemma ln_odds (t : R) : 0 < t < 1 -> ln (t / (1 - t)) = ln t - ln (1 - t).
Proof. intros Ht. apply ln_quot; lra. Qed.

(** Gibbs' inequality for one Bernoulli block: a ln(t) + (b - a) ln(1 - t)
    is largest at t = a / b. *)
Lemma bernoulli_block_max (a b t : R) :
  0 < a < b -> 0 < t < 1 ->
  a * ln (t / (1 - t)) + b * ln (1 - t)
  <= a * ln (a / b / (1 - a / b)) + b * ln (1 - a / b).
Proof.
  intros Hab Ht.
  assert (Hb : 0 < b) by lra.
  assert (Hh : 0 < a / b < 1).
  { split.
    - apply Rdiv_lt_0_compat; lra.
    - apply Rmult_lt_reg_r with (r := b); [exact Hb|].
      unfold Rdiv. rewrite Rmult_assoc, Rinv_l by lra. lra. }
  rewrite !ln_odds by assumption.
  set (h := a / b) in *.
  assert (H1 : ln (t / h) <= t / h - 1)
    by (apply ln_le_minus_1, Rdiv_lt_0_compat; lra).
  assert (H2 : ln ((1 - t) / (1 - h)) <= (1 - t) / (1 - h) - 1)
    by (apply ln_le_minus_1, Rdiv_lt_0_compat; lra).
  rewrite ln_quot in H1, H2 by lra.
  assert (E1 : a * (t / h - 1) = b * t - a)
    by (unfold h; field; lra).
  assert (E2 : (b - a) * ((1 - t) / (1 - h) - 1) = b * (1 - t) - (b - a))
    by (unfold h; field; lra).
  assert (G1 : a * (ln t - ln h) <= a * (t / h - 1))
    by (apply Rmult_le_compat_l; lra).
  assert (G2 : (b - a) * (ln (1 - t) - ln (1 - h))
               <= (b - a) * ((1 - t) / (1 - h) - 1))
    by (apply Rmult_le_compat_l; lra).
  lra.
Qed.

Variables (N Q : nat) (Y Robs : sp_mat R) (Z theta theta_hat : mat R).
Hypothesis Z_dims : has_dims Z N Q.
Hypothesis theta_dims : has_dims theta Q Q.
Hypothesis theta_unit : in_unit_interval theta.
Hypothesis blocks :
  forall q l, (q < Q)%nat -> (l < Q)%nat ->
    0 < quad_form Y Z q l < quad_form Robs Z q l.
Hypothesis hat_entries :
  forall q l, (q < Q)%nat -> (l < Q)%nat ->
    elem theta_hat q l = quad_form Y Z q l / quad_form Robs Z q l.

Lemma weighted_sums_max :
  weighted_sum Y Z (fun q l => ln (elem theta q l / (1 - elem theta q l)))
  + weighted_sum Robs Z (fun q l => ln (1 - elem theta q l))
  <= weighted_sum Y Z
       (fun q l => ln (elem theta_hat q l / (1 - elem theta_hat q l)))
     + weighted_sum Robs Z (fun q l => ln (1 - elem theta_hat q l)).
Proof.
  unfold weighted_sum. destruct Z_dims as (_ & -> & _).
  rewrite <- !big_plus. apply big_le. intros q Hq.
  rewrite <- !big_plus. apply big_le. intros l Hl.
  rewrite (hat_entries Hq Hl).
  apply bernoulli_block_max; [apply blocks; assumption|].
  destruct theta_dims as (Hr & Hc & _).
  apply theta_unit; rewrite ?Hr, ?Hc; assumption.
Qed.

Lemma hat_unit :
  has_dims theta_hat Q Q -> in_unit_interval theta_hat.
Proof.
  intros (Hr & Hc & _) q l Hq Hl. rewrite Hr in Hq. rewrite Hc in Hl.
  rewrite (hat_entries Hq Hl).
  destruct (blocks Hq Hl) as (Ha & Hab).
  split.
  - apply Rdiv_lt_0_compat; lra.
  - apply Rmult_lt_reg_r with (r := quad_form Robs Z q l); [lra|].
    unfold Rdiv. rewrite Rmult_assoc, Rinv_l by lra. lra.
Qed.

End Maximiser.

Lemma toy_blocks_single_cluster (q l : nat) :
  (q < 1)%nat -> (l < 1)%nat ->
  0 < quad_form (toy_Y 1) toy_Z1 q l < quad_form (toy_R 1) toy_Z1 q l.
Proof.
  intros Hq Hl. assert (q = 0%nat) by lia. assert (l = 0%nat) by lia. subst.
  unfold quad_form, sp_elem, elem. simpl. lra.
Qed.


(* ================================================================== *)
(** * The covariate expectation step on an overflowing penalty *)

Section Overflow.

Context {L : Libm}.
Hypothesis conforming : annex_f L.






End Overflow.

(** The implementation above is a C library in the sense of [annex_f]. *)
Lemma reference_libm_conforms : annex_f reference_libm.
Proof.
  split; [|split; reflexivity].
  intros x H. destruct x as [s | [|] | | s m e]; try discriminate H.
  - reflexivity.
  - change (exp64 (S754_finite s m e)) with (exp_reference (S754_finite s m e)).
    unfold exp_reference. rewrite H. reflexivity.
Qed.

(* ================================================================== *)
(** * Properties of the functions of [SBM_bernoulli.cpp] *)

Lemma toy_theta_in_unit_interval : in_unit_interval toy_theta.
Proof.
  intros q l Hq Hl. simpl in Hq, Hl.
  destruct q as [|[|q]]; [| |lia]; (destruct l as [|[|l]]; [| |lia]);
    unfold elem; simpl; lra.
Qed.

Lemma toy_pi_in_unit_interval : vec_in_unit_interval toy_pi.
Proof. repeat constructor; lra. Qed.

(** C1. For sparse N x N matrices Y and R, an N x Q matrix Z, a Q x Q
    matrix theta with entries strictly between 0 and 1 and a vector pi of
    length Q with entries strictly between 0 and 1, the undirected
    no-covariate likelihood evaluator returns
    0.5 sum(Z'YZ (.) log(theta/(1-theta))) + 0.5 sum(Z'RZ (.) log(1-theta))
    + sum(Z log pi), the sums running over all entries and Z'YZ, Z'RZ being
    the quadratic forms written as double sums over all dyads. *)
Theorem vLL_undirected_nocovariate_formula
    (N Q : nat) (Y Robs : sp_mat R) (Z theta : mat R) (pi : vec R) :
  sp_has_dims Y N N -> sp_wf Y = true ->
  sp_has_dims Robs N N -> sp_wf Robs = true ->
  has_dims Z N Q -> has_dims theta Q Q -> length pi = Q ->
  in_unit_interval theta -> vec_in_unit_interval pi ->
  vLL_complete_sparse_bernoulli_undirected_nocovariate Y Robs Z theta pi =
  Ok (0.5 * big Q (fun q => big Q (fun l =>
              quad_form Y Z q l * ln (elem theta q l / (1 - elem theta q l))))
      + 0.5 * big Q (fun q => big Q (fun l =>
              quad_form Robs Z q l * ln (1 - elem theta q l)))
      + big N (fun i => big Q (fun q => elem Z i q * ln (nth q pi 0)))).
Proof.
  intros HY HYwf HR HRwf HZ Ht Hpi _ _.
  rewrite (@vLL_undirected_value N Q Y Robs Z theta pi HY HYwf HR HRwf HZ Ht Hpi).
  unfold spec_vLL_undirected, weighted_sum, prior_term.
  destruct HZ as (-> & -> & _). reflexivity.
Qed.

Lemma vLL_undirected_nocovariate_formula_witness :
  vLL_complete_sparse_bernoulli_undirected_nocovariate
    (toy_Y 1) (toy_R 1) (toy_Z 1) toy_theta toy_pi =
  Ok (0.5 * big 2 (fun q => big 2 (fun l =>
              quad_form (toy_Y 1) (toy_Z 1) q l
              * ln (elem toy_theta q l / (1 - elem toy_theta q l))))
      + 0.5 * big 2 (fun q => big 2 (fun l =>
              quad_form (toy_R 1) (toy_Z 1) q l * ln (1 - elem toy_theta q l)))
      + big 3 (fun i => big 2 (fun q => elem (toy_Z 1) i q * ln (nth q toy_pi 0)))).
Proof.
  apply (@vLL_undirected_nocovariate_formula 3 2).
  - split; reflexivity.
  - reflexivity.
  - split; reflexivity.
  - reflexivity.
  - repeat split; reflexivity.
  - repeat split; reflexivity.
  - reflexivity.
  - exact toy_theta_in_unit_interval.
  - exact toy_pi_in_unit_interval.
Defined.

(** C5. For Y and R, Z, theta with entries strictly between 0 and 1 and pi,
    both no-covariate evaluators return a value, and the directed value
    minus the prior term sum(Z log pi) is twice the undirected value minus
    the prior term.  The identity holds in particular when Y and R are
    symmetric; the symmetry is not used. *)
Theorem vLL_directed_twice_undirected
    (N Q : nat) (Y Robs : sp_mat R) (Z theta : mat R) (pi : vec R) :
  sp_has_dims Y N N -> sp_wf Y = true ->
  sp_has_dims Robs N N -> sp_wf Robs = true ->
  has_dims Z N Q -> has_dims theta Q Q -> length pi = Q ->
  in_unit_interval theta -> vec_in_unit_interval pi ->
  exists d u : R,
    vLL_complete_sparse_bernoulli_directed_nocovariate Y Robs Z theta pi = Ok d /\
    vLL_complete_sparse_bernoulli_undirected_nocovariate Y Robs Z theta pi = Ok u /\
    d - prior_term Z pi = 2 * (u - prior_term Z pi).
Proof.
  intros HY HYwf HR HRwf HZ Ht Hpi _ _.
  eexists. eexists. split; [|split].
  - apply (@vLL_directed_value N Q Y Robs Z theta pi HY HYwf HR HRwf HZ Ht Hpi).
  - apply (@vLL_undirected_value N Q Y Robs Z theta pi HY HYwf HR HRwf HZ Ht Hpi).
  - unfold spec_vLL_undirected. lra.
Qed.

Lemma vLL_directed_twice_undirected_witness :
  exists d u : R,
    vLL_complete_sparse_bernoulli_directed_nocovariate
      (toy_Y 1) (toy_R 1) (toy_Z 1) toy_theta toy_pi = Ok d /\
    vLL_complete_sparse_bernoulli_undirected_nocovariate
      (toy_Y 1) (toy_R 1) (toy_Z 1) toy_theta toy_pi = Ok u /\
    d - prior_term (toy_Z 1) toy_pi = 2 * (u - prior_term (toy_Z 1) toy_pi).
Proof.
  apply (@vLL_directed_twice_undirected 3 2).
  - split; reflexivity.
  - reflexivity.
  - split; reflexivity.
  - reflexivity.
  - repeat split; reflexivity.
  - repeat split; reflexivity.
  - reflexivity.
  - exact toy_theta_in_unit_interval.
  - exact toy_pi_in_unit_interval.
Defined.

(** C4. The directed and the undirected no-covariate M-step are the same
    function of (Y, R, Z), for every input and every scalar type; and for
    sparse N x N matrices Y and R and an N x Q matrix Z the closed-form
    M-step returns the Q x Q matrix whose (q,l) entry is
    (Z'YZ)_ql / (Z'RZ)_ql.  (In real arithmetic a quotient by zero carries
    no information; what the code returns where an entry of Z'RZ is zero
    is a matter of binary64 arithmetic.) *)
Theorem M_step_nocovariate_ratio :
  (forall (T : Type) (ST : Scalar T) (Y Robs : sp_mat T) (Z : mat T),
     M_step_sparse_bernoulli_directed_nocovariate Y Robs Z =
     M_step_sparse_bernoulli_undirected_nocovariate Y Robs Z) /\
  (forall (N Q : nat) (Y Robs : sp_mat R) (Z : mat R),
     sp_has_dims Y N N -> sp_wf Y = true ->
     sp_has_dims Robs N N -> sp_wf Robs = true -> has_dims Z N Q ->
     exists theta,
       M_step_sparse_bernoulli_undirected_nocovariate Y Robs Z = Ok theta /\
       has_dims theta Q Q /\
       forall q l, (q < Q)%nat -> (l < Q)%nat ->
         elem theta q l = quad_form Y Z q l / quad_form Robs Z q l).
Proof.
  split.
  - reflexivity.
  - intros N Q Y Robs Z HY HYwf HR HRwf HZ.
    exact (M_step_real_entries HY HYwf HR HRwf HZ).
Qed.

Lemma M_step_nocovariate_ratio_witness :
  exists theta,
    M_step_sparse_bernoulli_undirected_nocovariate (toy_Y 1) (toy_R 1) (toy_Z 1)
    = Ok theta /\
    has_dims theta 2 2 /\
    forall q l, (q < 2)%nat -> (l < 2)%nat ->
      elem theta q l
      = quad_form (toy_Y 1) (toy_Z 1) q l / quad_form (toy_R 1) (toy_Z 1) q l.
Proof.
  apply (proj2 M_step_nocovariate_ratio 3%nat 2%nat).
  - split; reflexivity.
  - reflexivity.
  - split; reflexivity.
  - reflexivity.
  - repeat split; reflexivity.
Defined.

(** C6. On the three-node graph with Z = [[1,0],[1,0],[0,1]], a single
    undirected edge between the first and the third node and every
    off-diagonal dyad observed, the closed-form M-step returns theta with
    theta[0,1] = theta[1,0] = 1/2 and theta[0,0] = 0: in real arithmetic,
    and bit for bit in binary64, where the whole result is
    [[+0, 0.5], [0.5, NaN]]. *)
Theorem M_step_toy_graph :
  (exists theta,
     M_step_sparse_bernoulli_undirected_nocovariate (toy_Y 1) (toy_R 1) (toy_Z 1)
     = Ok theta /\
     elem theta 0 1 = 1 / 2 /\ elem theta 1 0 = 1 / 2 /\ elem theta 0 0 = 0) /\
  M_step_sparse_bernoulli_undirected_nocovariate
    (toy_Y one64) (toy_R one64) (toy_Z one64)
  = Ok (Mat 2 2 [S754_zero false;
                 S754_finite false 4503599627370496 (-53);
                 S754_finite false 4503599627370496 (-53);
                 S754_nan]).
Proof.
  split.
  - destruct (@M_step_real_entries 3 2 (toy_Y 1) (toy_R 1) (toy_Z 1))
      as (theta & Hok & _ & Hentries);
      try (repeat split; reflexivity).
    exists theta. split; [exact Hok|].
    rewrite !Hentries by lia.
    unfold quad_form, elem, sp_elem. simpl.
    repeat split; lra.
  - vm_compute. reflexivity.
Qed.

(** C9. The directed-with-covariates M-step takes (Y, R, Z) only and is
    the same function as the directed no-covariate M-step, for every input
    and every scalar type; on sparse N x N matrices Y and R and an N x Q
    matrix Z it returns the element-wise ratio (Z'YZ) / (Z'RZ). *)
Theorem M_step_directed_covariates_ignores_covariates :
  (forall (T : Type) (ST : Scalar T) (Y Robs : sp_mat T) (Z : mat T),
     M_step_sparse_bernoulli_directed_covariates Y Robs Z =
     M_step_sparse_bernoulli_directed_nocovariate Y Robs Z) /\
  (forall (N Q : nat) (Y Robs : sp_mat R) (Z : mat R),
     sp_has_dims Y N N -> sp_wf Y = true ->
     sp_has_dims Robs N N -> sp_wf Robs = true -> has_dims Z N Q ->
     exists theta,
       M_step_sparse_bernoulli_directed_covariates Y Robs Z = Ok theta /\
       has_dims theta Q Q /\
       forall q l, (q < Q)%nat -> (l < Q)%nat ->
         elem theta q l = quad_form Y Z q l / quad_form Robs Z q l).
Proof.
  split.
  - reflexivity.
  - intros N Q Y Robs Z HY HYwf HR HRwf HZ.
    exact (M_step_real_entries HY HYwf HR HRwf HZ).
Qed.

Lemma M_step_directed_covariates_ignores_covariates_witness :
  exists theta,
    M_step_sparse_bernoulli_directed_covariates (toy_Y 1) (toy_R 1) (toy_Z 1)
    = Ok theta /\
    has_dims theta 2 2 /\
    forall q l, (q < 2)%nat -> (l < 2)%nat ->
      elem theta q l
      = quad_form (toy_Y 1) (toy_Z 1) q l / quad_form (toy_R 1) (toy_Z 1) q l.
Proof.
  apply (proj2 M_step_directed_covariates_ignores_covariates 3%nat 2%nat).
  - split; reflexivity.
  - reflexivity.
  - split; reflexivity.
  - reflexivity.
  - repeat split; reflexivity.
Defined.

(** The overflow input evaluated: the column sums of Y are +Inf and -Inf,
    Z'YZ is NaN, Z'RZ is +0 and the M-step returns NaN. *)
Example M_step_overflow_evaluated :
  times_sp (trans overflow_Z) overflow_Y
  = Ok (Mat 1 2 [S754_infinity false; S754_infinity true]) /\
  sandwich overflow_Y overflow_Z = Ok (Mat 1 1 [S754_nan]) /\
  sandwich overflow_R overflow_Z = Ok (Mat 1 1 [S754_zero false]) /\
  M_step_sparse_bernoulli_undirected_nocovariate overflow_Y overflow_R overflow_Z
  = Ok (Mat 1 1 [S754_nan]).
Proof. repeat split; vm_compute; reflexivity. Qed.

(** C7, as stated, fails when the entry of Z'YZ is NaN: with finite inputs
    whose column sums overflow to +Inf and -Inf, the entry of Z'RZ is zero,
    the entry of Z'YZ is not zero, and the entry returned is NaN, not an
    infinity. *)
Lemma M_step_zero_divisor_nan_numerator :
  ~ (forall (Y Robs : sp_mat binary64) (Z ZtYZ ZtRZ theta : mat binary64)
            (q l : nat),
       sandwich Y Z = Ok ZtYZ -> sandwich Robs Z = Ok ZtRZ ->
       M_step_sparse_bernoulli_undirected_nocovariate Y Robs Z = Ok theta ->
       (q < n_cols Z)%nat -> (l < n_cols Z)%nat ->
       is_zero (elem ZtRZ q l) = true ->
       if is_zero (elem ZtYZ q l)
       then is_nan (elem theta q l) = true
       else is_infinite (elem theta q l) = true).
Proof.
  intros H.
  specialize (H overflow_Y overflow_R overflow_Z
                (Mat 1 1 [S754_nan]) (Mat 1 1 [S754_zero false])
                (Mat 1 1 [S754_nan]) 0%nat 0%nat).
  vm_compute in H.
  assert (E : false = true) by (apply H; reflexivity).
  discriminate E.
Qed.

(** C7, amended.  In binary64, on sparse N x N matrices Y and R and an
    N x Q matrix Z the closed-form M-step raises no error and returns the
    Q x Q matrix of the IEEE quotients of the entries of Z'YZ by the entries
    of Z'RZ, each entry depending on its own two operands only.  Where the
    entry of Z'RZ is a zero, the entry returned is not finite: it is NaN
    when the entry of Z'YZ is a zero or NaN, and an infinity otherwise. *)
Theorem M_step_zero_divisor
    (N Q : nat) (Y Robs : sp_mat binary64) (Z : mat binary64) :
  sp_has_dims Y N N -> sp_has_dims Robs N N -> has_dims Z N Q ->
  exists ZtYZ ZtRZ theta,
    sandwich Y Z = Ok ZtYZ /\ sandwich Robs Z = Ok ZtRZ /\
    M_step_sparse_bernoulli_undirected_nocovariate Y Robs Z = Ok theta /\
    has_dims theta Q Q /\
    forall q l, (q < Q)%nat -> (l < Q)%nat ->
      let n := elem ZtYZ q l in
      let d := elem ZtRZ q l in
      elem theta q l = SFdiv 53 1024 n d /\
      (is_zero d = true ->
       (is_zero n || is_nan n = true -> elem theta q l = S754_nan) /\
       (is_zero n || is_nan n = false ->
        elem theta q l = S754_infinity (xorb (sign_bit n) (sign_bit d)))).
Proof.
  intros HY HR HZ.
  destruct (M_step_entries HY HR HZ) as (theta & Hok & Hdims & Hentries).
  exists (ZtSZ Y Z), (ZtSZ Robs Z), theta.
  destruct HY as (HYr & HYc). destruct HR as (HRr & HRc).
  destruct HZ as (HZr & HZc & _).
  split; [apply sandwich_value; congruence|].
  split; [apply sandwich_value; congruence|].
  split; [exact Hok|]. split; [exact Hdims|].
  intros q l Hq Hl n d.
  assert (E : elem theta q l = SFdiv 53 1024 n d) by (apply Hentries; assumption).
  split; [exact E|].
  intros Hd. rewrite E, (@SFdiv_by_zero n d Hd). unfold quotient_by_zero.
  split; intros ->; reflexivity.
Qed.

Lemma M_step_zero_divisor_witness :
  exists ZtYZ ZtRZ theta,
    sandwich (toy_Y one64) (toy_Z one64) = Ok ZtYZ /\
    sandwich (toy_R one64) (toy_Z one64) = Ok ZtRZ /\
    M_step_sparse_bernoulli_undirected_nocovariate
      (toy_Y one64) (toy_R one64) (toy_Z one64) = Ok theta /\
    has_dims theta 2 2 /\
    forall q l, (q < 2)%nat -> (l < 2)%nat ->
      let n := elem ZtYZ q l in
      let d := elem ZtRZ q l in
      elem theta q l = SFdiv 53 1024 n d /\
      (is_zero d = true ->
       (is_zero n || is_nan n = true -> elem theta q l = S754_nan) /\
       (is_zero n || is_nan n = false ->
        elem theta q l = S754_infinity (xorb (sign_bit n) (sign_bit d)))).
Proof.
  apply (@M_step_zero_divisor 3 2).
  - split; reflexivity.
  - split; reflexivity.
  - repeat split; reflexivity.
Defined.

(** The inputs of [overflow_M2] run with the C library above: every entry
    of the inputs is finite, pi is (1/2, 1/2), exp(0 + 710) is +Inf, and the
    step returns NaN at every entry. *)
Example E_step_overflow_evaluated :
  sp_finite overflow_Y2 && sp_finite overflow_R2 && mat_finite overflow_M2
  && mat_finite overflow_Z2 && mat_finite overflow_Gamma2
  && forallb unit64 overflow_pi2 = true /\
  @exp64 reference_libm (SFadd 53 1024 zero64 overflow_threshold) = pinf64 /\
  @log64 reference_libm (SFadd 53 1024 one64 pinf64) = pinf64 /\
  SFmul 53 1024 zero64 pinf64 = nan64 /\
  @ieee.E_step_sparse_bernoulli_undirected_covariates reference_libm
    overflow_Y2 overflow_R2 overflow_M2 overflow_Z2 overflow_Gamma2 overflow_pi2
  = Ok (Mat 2 2 [nan64; nan64; nan64; nan64]).
Proof. repeat split; vm_compute; reflexivity. Qed.




(** C2. Given a parameter vector of length Q*Q + K that packs Gamma
    (Q x Q, column by column) followed by beta (length K), sparse N x N
    matrices Y and R, an N x N x K cube X and an N x Q matrix Z, the
    covariate M-step returns as objective the negated sum, over the non-zero
    entries (i,j) of R with i > j, of
    sum_{q,l} Z_iq Z_jl (Y_ij (Gamma_ql + mu) - log(1 + exp(Gamma_ql + mu)))
    with mu = beta . X(i,j,.), and as gradient the vector of length Q*Q + K
    that holds, at q + l*Q, the negated sum over those dyads of
    delta_ql = Z_iq Z_jl (Y_ij - sigmoid(Gamma_ql + mu)) and, at Q*Q + k, the
    negated sum of sum(delta) X(i,j,k). *)
Theorem M_step_covariates_objective_gradient
    (N Q K : nat) (param : vec R) (Y Robs : sp_mat R) (X : cube R) (Z : mat R) :
  length param = (Q * Q + K)%nat ->
  sp_has_dims Y N N -> sp_has_dims Robs N N ->
  sp_wf Robs = true -> sp_nonzero Robs ->
  cube_has_dims X N N K -> has_dims Z N Q ->
  exists og,
    M_step_sparse_bernoulli_undirected_covariates param Y Robs X Z = Ok og /\
    objective og = - dyad_sum Robs (log_density param Y X Z) /\
    length (gradient og) = (Q * Q + K)%nat /\
    (forall q l, (q < Q)%nat -> (l < Q)%nat ->
       nth (q + l * Q) (gradient og) 0
       = - dyad_sum Robs (fun i j => residual param Y X Z i j q l)) /\
    (forall k, (k < K)%nat ->
       nth (Q * Q + k) (gradient og) 0
       = - dyad_sum Robs (fun i j =>
             big Q (fun q => big Q (fun l => residual param Y X Z i j q l))
             * cube_elem X i j k)).
Proof.
  intros Hlen HY HR Hwf Hnz HX HZ.
  destruct (@M_step_covariates_value N Q K param Y Robs X Z)
    as (og & Hok & Hobj & Hglen & Hgg & Hgb); try assumption; [lia|].
  exists og. split; [exact Hok|]. split; [exact Hobj|]. split; [exact Hglen|].
  split; [exact Hgg|].
  intros k Hk. rewrite Hgb by exact Hk. unfold spec_gradient_beta.
  destruct HZ as (_ & -> & _). reflexivity.
Qed.

Lemma M_step_covariates_objective_gradient_witness :
  exists og,
    M_step_sparse_bernoulli_undirected_covariates
      toy_param (toy_Y 1) (toy_R 1) toy_X (toy_Z 1) = Ok og /\
    objective og = - dyad_sum (toy_R 1) (log_density toy_param (toy_Y 1) toy_X (toy_Z 1)) /\
    length (gradient og) = (2 * 2 + 1)%nat /\
    (forall q l, (q < 2)%nat -> (l < 2)%nat ->
       nth (q + l * 2) (gradient og) 0
       = - dyad_sum (toy_R 1)
             (fun i j => residual toy_param (toy_Y 1) toy_X (toy_Z 1) i j q l)) /\
    (forall k, (k < 1)%nat ->
       nth (2 * 2 + k) (gradient og) 0
       = - dyad_sum (toy_R 1) (fun i j =>
             big 2 (fun q => big 2 (fun l =>
               residual toy_param (toy_Y 1) toy_X (toy_Z 1) i j q l))
             * cube_elem toy_X i j k)).
Proof.
  apply (@M_step_covariates_objective_gradient 3 2 1).
  - reflexivity.
  - split; reflexivity.
  - split; reflexivity.
  - reflexivity.
  - exact toy_R_nonzero.
  - repeat split; reflexivity.
  - repeat split; reflexivity.
Defined.

(** C10. The undirected covariate likelihood evaluator and the undirected
    covariate M-step read Y and R on the strict lower triangle only: for
    sparse N x N matrices (Y, R) and (Y', R') that agree on all entries with
    row index greater than column index, both functions return the same
    result, the other arguments being the same. *)
Theorem covariate_paths_read_lower_triangle
    (N : nat) (param : vec R) (Y Y' Robs Robs' : sp_mat R) (X : cube R)
    (M Z Gamma : mat R) (pi : vec R) :
  sp_has_dims Y N N -> sp_has_dims Y' N N ->
  sp_has_dims Robs N N -> sp_has_dims Robs' N N ->
  sp_wf Y = true -> sp_nonzero Y -> sp_wf Y' = true -> sp_nonzero Y' ->
  sp_wf Robs = true -> sp_nonzero Robs ->
  sp_wf Robs' = true -> sp_nonzero Robs' ->
  agree_lower Y Y' -> agree_lower Robs Robs' ->
  vLL_complete_sparse_bernoulli_undirected_covariates Y Robs M Z Gamma pi =
  vLL_complete_sparse_bernoulli_undirected_covariates Y' Robs' M Z Gamma pi /\
  M_step_sparse_bernoulli_undirected_covariates param Y Robs X Z =
  M_step_sparse_bernoulli_undirected_covariates param Y' Robs' X Z.
Proof.
  intros (HYr & HYc) (HYr' & HYc') _ _ HYwf HYnz HYwf' HYnz'
         HRwf HRnz HRwf' HRnz' HYagree HRagree.
  pose proof (lower_entries_agree HYwf HYnz HYwf' HYnz' HYagree) as EY.
  pose proof (lower_entries_agree HRwf HRnz HRwf' HRnz' HRagree) as ER.
  unfold lower in EY, ER.
  split.
  - unfold vLL_complete_sparse_bernoulli_undirected_covariates. cbv zeta.
    destruct (times Z (colvec (map ln pi))) as [c|]; [|reflexivity].
    rewrite !bind_Ok.
    rewrite !foldM_filter
      with (p := fun e : nonzero R => (col e <? row e)%nat)
           (f := fun loglik Yij =>
                   for_q_l (n_cols Z)
                     (fun q l =>
                        ziq <- at_ Z (row Yij) q ;;
                        zjl <- at_ Z (col Yij) l ;;
                        g <- at_ Gamma q l ;;
                        m <- at_ M (row Yij) (col Yij) ;;
                        Ok (ziq * zjl * (g + m)))
                     loglik).
    rewrite EY.
    destruct (foldM _ (filter _ (sp_entries Y')) (accu c)) as [ll|]; [|reflexivity].
    rewrite !bind_Ok.
    rewrite !foldM_filter
      with (p := fun e : nonzero R => (col e <? row e)%nat)
           (f := fun loglik Rij =>
                   for_q_l (n_cols Z)
                     (fun q l =>
                        ziq <- at_ Z (row Rij) q ;;
                        zjl <- at_ Z (col Rij) l ;;
                        g <- at_ Gamma q l ;;
                        m <- at_ M (row Rij) (col Rij) ;;
                        Ok (- ziq * zjl * ln (1 + exp (g + m))))
                     loglik).
    rewrite ER. reflexivity.
  - unfold M_step_sparse_bernoulli_undirected_covariates. cbv zeta.
    destruct (copy_from param 0 (n_cols Z * n_cols Z)) as [gm|]; [|reflexivity].
    rewrite !bind_Ok.
    destruct (copy_from param (n_cols Z * n_cols Z) (n_slices X)) as [beta|];
      [|reflexivity].
    rewrite !bind_Ok.
    rewrite !foldM_filter
      with (p := fun e : nonzero R => (col e <? row e)%nat)
           (f := fun acc e =>
                   dyad_update _ X Z (Mat (n_cols Z) (n_cols Z) gm) beta acc
                     (row e) (col e)).
    rewrite ER.
    rewrite foldM_ext_in
      with (g := fun acc e =>
                   dyad_update Y' X Z (Mat (n_cols Z) (n_cols Z) gm) beta acc
                     (row e) (col e)).
    + reflexivity.
    + intros e acc He. apply filter_In in He. destruct He as (_ & Hlow).
      apply Nat.ltb_lt in Hlow.
      apply dyad_update_ext. unfold sp_at.
      rewrite HYr, HYc, HYr', HYc', (HYagree _ _ Hlow). reflexivity.
Qed.

Lemma covariate_paths_read_lower_triangle_witness :
  vLL_complete_sparse_bernoulli_undirected_covariates
    (toy_Y 1) (toy_R 1) toy_M (toy_Z 1) toy_Gamma toy_pi =
  vLL_complete_sparse_bernoulli_undirected_covariates
    toy_Y_lower toy_R_lower toy_M (toy_Z 1) toy_Gamma toy_pi /\
  M_step_sparse_bernoulli_undirected_covariates
    toy_param (toy_Y 1) (toy_R 1) toy_X (toy_Z 1) =
  M_step_sparse_bernoulli_undirected_covariates
    toy_param toy_Y_lower toy_R_lower toy_X (toy_Z 1).
Proof.
  apply (@covariate_paths_read_lower_triangle 3).
  - split; reflexivity.
  - split; reflexivity.
  - split; reflexivity.
  - split; reflexivity.
  - reflexivity.
  - exact toy_Y_nonzero.
  - reflexivity.
  - exact toy_Y_lower_nonzero.
  - reflexivity.
  - exact toy_R_nonzero.
  - reflexivity.
  - exact toy_R_lower_nonzero.
  - exact toy_Y_agree.
  - exact toy_R_agree.
Defined.

(** C8, as stated, fails for the covariate M-step: called with a parameter
    vector of 6 entries where Q*Q + K = 5, it raises no error and returns
    what it returns for the first 5 entries. *)
Lemma M_step_covariates_accepts_long_param :
  length (toy_param ++ [7])
  <> (n_cols (toy_Z 1%R) * n_cols (toy_Z 1%R) + n_slices toy_X)%nat /\
  exists og,
    M_step_sparse_bernoulli_undirected_covariates
      (toy_param ++ [7]) (toy_Y 1) (toy_R 1) toy_X (toy_Z 1) = Ok og /\
    M_step_sparse_bernoulli_undirected_covariates
      toy_param (toy_Y 1) (toy_R 1) toy_X (toy_Z 1) = Ok og.
Proof.
  split; [simpl; lia|].
  assert (Hlen : (2 * 2 + 1 <= length toy_param)%nat) by (simpl; lia).
  assert (HY : sp_has_dims (toy_Y 1) 3 3) by (split; reflexivity).
  assert (HR : sp_has_dims (toy_R 1) 3 3) by (split; reflexivity).
  assert (HX : cube_has_dims toy_X 3 3 1) by (repeat split; reflexivity).
  assert (HZ : has_dims (toy_Z 1) 3 2) by (repeat split; reflexivity).
  destruct (@M_step_covariates_value 3 2 1 toy_param (toy_Y 1) (toy_R 1) toy_X
              (toy_Z 1) Hlen HY HR eq_refl toy_R_nonzero HX HZ)
    as (og & Hok & _).
  exists og. split; [|exact Hok].
  rewrite (@M_step_covariates_surplus 2 1) by (try reflexivity; simpl; lia).
  exact Hok.
Qed.

(** C8, amended.  The no-covariate E-step fails with a dimension-mismatch
    error whenever the column count of Z differs from the row count of
    theta.  The covariate M-step does not check the length of its parameter
    vector: entries beyond the first Q*Q + K are ignored, so that a vector
    with surplus entries gives the result of its first Q*Q + K entries. *)
Theorem shape_mismatch_behaviour :
  (forall (Y Robs : sp_mat R) (Z theta : mat R) (pi : vec R) (log_lambda : R),
     n_cols Z <> n_rows theta ->
     E_step_sparse_bernoulli_undirected_nocovariate Y Robs Z theta pi log_lambda
     = Raise incompatible_dimensions) /\
  (forall (Q K : nat) (param extra : vec R) (Y Robs : sp_mat R) (X : cube R)
          (Z : mat R),
     n_cols Z = Q -> n_slices X = K -> length param = (Q * Q + K)%nat ->
     M_step_sparse_bernoulli_undirected_covariates (param ++ extra) Y Robs X Z =
     M_step_sparse_bernoulli_undirected_covariates param Y Robs X Z).
Proof.
  split.
  - exact E_step_rows_mismatch.
  - intros Q K param extra Y Robs X Z HQ HK Hlen.
    apply (@M_step_covariates_surplus Q K); [assumption | assumption | lia].
Qed.

Lemma shape_mismatch_behaviour_witness :
  E_step_sparse_bernoulli_undirected_nocovariate
    (toy_Y 1) (toy_R 1) (toy_Z 1) theta_3x3 toy_pi 0
  = Raise incompatible_dimensions /\
  M_step_sparse_bernoulli_undirected_covariates
    (toy_param ++ [7]) (toy_Y 1) (toy_R 1) toy_X (toy_Z 1) =
  M_step_sparse_bernoulli_undirected_covariates
    toy_param (toy_Y 1) (toy_R 1) toy_X (toy_Z 1).
Proof.
  split.
  - apply (proj1 shape_mismatch_behaviour). simpl. lia.
  - apply (proj2 shape_mismatch_behaviour 2%nat 1%nat); reflexivity.
Defined.

(* ================================================================== *)
(** * Further properties of the functions of [SBM_bernoulli.cpp] *)

(** X1. The closed-form M-step, for any scalar type, returns a Q x Q
    matrix when Y and R are square with as many rows as Z, and throws a
    dimension-mismatch error otherwise: those are the only failures. *)
Theorem M_step_fails_on_shape_only
    (T : Type) (ST : Scalar T) (Y Robs : sp_mat T) (Z : mat T) :
  if closed_form_conform Y Robs Z
  then exists theta,
         M_step_sparse_bernoulli_undirected_nocovariate Y Robs Z = Ok theta /\
         has_dims theta (n_cols Z) (n_cols Z)
  else M_step_sparse_bernoulli_undirected_nocovariate Y Robs Z
       = Raise incompatible_dimensions.
Proof.
  unfold closed_form_conform, M_step_sparse_bernoulli_undirected_nocovariate.
  destruct (Nat.eqb_spec (n_rows Z) (sp_n_rows Y)) as [E1|E1]; simpl andb;
    [|rewrite times_sp_mismatch by exact E1; reflexivity].
  rewrite times_sp_conform by exact E1. rewrite bind_Ok.
  destruct (Nat.eqb_spec (sp_n_cols Y) (n_rows Z)) as [E2|E2]; simpl andb;
    [|rewrite times_mismatch by exact E2; reflexivity].
  rewrite times_conform by exact E2. rewrite bind_Ok.
  destruct (Nat.eqb_spec (n_rows Z) (sp_n_rows Robs)) as [E3|E3]; simpl andb;
    [|rewrite times_sp_mismatch by exact E3; reflexivity].
  rewrite times_sp_conform by exact E3. rewrite bind_Ok.
  destruct (Nat.eqb_spec (sp_n_cols Robs) (n_rows Z)) as [E4|E4];
    [|rewrite times_mismatch by exact E4; reflexivity].
  rewrite times_conform by exact E4. rewrite bind_Ok.
  unfold ediv. rewrite mat_zip_same by reflexivity.
  eexists. split; [reflexivity|]. apply mat_init_dims.
Qed.

(** X2. For sparse N x N matrices Y and R, an N x Q matrix Z, a Q x Q
    matrix theta with entries strictly between 0 and 1 and a vector pi of
    length Q with entries strictly between 0 and 1, the directed
    no-covariate likelihood evaluator returns
    sum(Z'YZ (.) log(theta/(1-theta))) + sum(Z'RZ (.) log(1-theta))
    + sum(Z log pi), without the factor 0.5 of the undirected one. *)
Theorem vLL_directed_nocovariate_formula
    (N Q : nat) (Y Robs : sp_mat R) (Z theta : mat R) (pi : vec R) :
  sp_has_dims Y N N -> sp_wf Y = true ->
  sp_has_dims Robs N N -> sp_wf Robs = true ->
  has_dims Z N Q -> has_dims theta Q Q -> length pi = Q ->
  in_unit_interval theta -> vec_in_unit_interval pi ->
  vLL_complete_sparse_bernoulli_directed_nocovariate Y Robs Z theta pi =
  Ok (big Q (fun q => big Q (fun l =>
        quad_form Y Z q l * ln (elem theta q l / (1 - elem theta q l))))
      + big Q (fun q => big Q (fun l =>
          quad_form Robs Z q l * ln (1 - elem theta q l)))
      + big N (fun i => big Q (fun q => elem Z i q * ln (nth q pi 0)))).
Proof.
  intros HY HYwf HR HRwf HZ Ht Hpi _ _.
  rewrite (@vLL_directed_value N Q Y Robs Z theta pi HY HYwf HR HRwf HZ Ht Hpi).
  unfold weighted_sum, prior_term.
  destruct HZ as (-> & -> & _). reflexivity.
Qed.

Lemma vLL_directed_nocovariate_formula_witness :
  vLL_complete_sparse_bernoulli_directed_nocovariate
    (toy_Y 1) (toy_R 1) (toy_Z 1) toy_theta toy_pi =
  Ok (big 2 (fun q => big 2 (fun l =>
        quad_form (toy_Y 1) (toy_Z 1) q l
        * ln (elem toy_theta q l / (1 - elem toy_theta q l))))
      + big 2 (fun q => big 2 (fun l =>
          quad_form (toy_R 1) (toy_Z 1) q l * ln (1 - elem toy_theta q l)))
      + big 3 (fun i => big 2 (fun q => elem (toy_Z 1) i q * ln (nth q toy_pi 0)))).
Proof.
  apply (@vLL_directed_nocovariate_formula 3 2).
  - split; reflexivity.
  - reflexivity.
  - split; reflexivity.
  - reflexivity.
  - repeat split; reflexivity.
  - repeat split; reflexivity.
  - reflexivity.
  - exact toy_theta_in_unit_interval.
  - exact toy_pi_in_unit_interval.
Defined.

(** X3. When Y and R are symmetric, the matrix the closed-form M-step
    returns is symmetric. *)
Theorem M_step_keeps_symmetry
    (N Q : nat) (Y Robs : sp_mat R) (Z : mat R) :
  sp_has_dims Y N N -> sp_wf Y = true ->
  sp_has_dims Robs N N -> sp_wf Robs = true -> has_dims Z N Q ->
  sp_symmetric Y -> sp_symmetric Robs ->
  exists theta,
    M_step_sparse_bernoulli_undirected_nocovariate Y Robs Z = Ok theta /\
    forall q l, (q < Q)%nat -> (l < Q)%nat -> elem theta q l = elem theta l q.
Proof.
  intros HY HYwf HR HRwf HZ HYs HRs.
  destruct (M_step_real_entries HY HYwf HR HRwf HZ) as (theta & Hok & _ & He).
  exists theta. split; [exact Hok|].
  intros q l Hq Hl. rewrite (He q l), (He l q) by assumption.
  rewrite (quad_form_symmetric Z q l HYs), (quad_form_symmetric Z q l HRs).
  reflexivity.
Qed.

Lemma M_step_keeps_symmetry_witness :
  exists theta,
    M_step_sparse_bernoulli_undirected_nocovariate (toy_Y 1) (toy_R 1) (toy_Z 1)
    = Ok theta /\
    forall q l, (q < 2)%nat -> (l < 2)%nat -> elem theta q l = elem theta l q.
Proof.
  apply (@M_step_keeps_symmetry 3 2).
  - split; reflexivity.
  - reflexivity.
  - split; reflexivity.
  - reflexivity.
  - repeat split; reflexivity.
  - exact toy_Y_symmetric.
  - exact toy_R_symmetric.
Defined.

(** X4. When the entries of Z are non-negative and every dyad has
    0 <= Y_ij <= R_ij, every entry of the matrix the closed-form M-step
    returns whose divisor (Z'RZ)_ql is not zero lies between 0 and 1. *)
Theorem M_step_returns_probabilities
    (N Q : nat) (Y Robs : sp_mat R) (Z : mat R) :
  sp_has_dims Y N N -> sp_wf Y = true ->
  sp_has_dims Robs N N -> sp_wf Robs = true -> has_dims Z N Q ->
  mat_nonneg Z ->
  (forall i j, (i < N)%nat -> (j < N)%nat ->
     0 <= sp_elem Y i j <= sp_elem Robs i j) ->
  exists theta,
    M_step_sparse_bernoulli_undirected_nocovariate Y Robs Z = Ok theta /\
    forall q l, (q < Q)%nat -> (l < Q)%nat ->
      quad_form Robs Z q l <> 0 -> 0 <= elem theta q l <= 1.
Proof.
  intros HY HYwf HR HRwf HZ HZpos HYR.
  destruct (M_step_real_entries HY HYwf HR HRwf HZ) as (theta & Hok & _ & He).
  exists theta. split; [exact Hok|].
  intros q l Hq Hl Hden. rewrite He by assumption.
  destruct HZ as (HZr & HZc & _).
  assert (H0 : 0 <= quad_form Y Z q l).
  { apply quad_form_nonneg; try (rewrite HZc; assumption); [exact HZpos|].
    intros i j Hi Hj. apply HYR; rewrite <- HZr; assumption. }
  assert (H1 : quad_form Y Z q l <= quad_form Robs Z q l).
  { apply quad_form_le; try (rewrite HZc; assumption); [exact HZpos|].
    intros i j Hi Hj. apply HYR; rewrite <- HZr; assumption. }
  assert (Hpos : 0 < quad_form Robs Z q l) by lra.
  split.
  - apply Rmult_le_pos; [exact H0|]. apply Rlt_le, Rinv_0_lt_compat, Hpos.
  - apply Rmult_le_reg_r with (r := quad_form Robs Z q l); [exact Hpos|].
    unfold Rdiv. rewrite Rmult_assoc, Rinv_l by exact Hden. lra.
Qed.

Lemma M_step_returns_probabilities_witness :
  exists theta,
    M_step_sparse_bernoulli_undirected_nocovariate (toy_Y 1) (toy_R 1) (toy_Z 1)
    = Ok theta /\
    forall q l, (q < 2)%nat -> (l < 2)%nat ->
      quad_form (toy_R 1) (toy_Z 1) q l <> 0 -> 0 <= elem theta q l <= 1.
Proof.
  apply (@M_step_returns_probabilities 3 2).
  - split; reflexivity.
  - reflexivity.
  - split; reflexivity.
  - reflexivity.
  - repeat split; reflexivity.
  - exact toy_Z_nonneg.
  - intros i j _ _. apply toy_Y_below_R.
Defined.

(** X5. With a single cluster (Z a column of ones) the closed-form M-step
    returns the 1 x 1 matrix holding the sum of the stored entries of Y
    divided by the sum of the stored entries of R: for 0/1 matrices, the
    number of edges over the number of observed dyads. *)
Theorem M_step_single_cluster
    (N : nat) (Y Robs : sp_mat R) (Z : mat R) :
  sp_has_dims Y N N -> sp_wf Y = true ->
  sp_has_dims Robs N N -> sp_wf Robs = true -> has_dims Z N 1 ->
  single_cluster Z ->
  exists theta,
    M_step_sparse_bernoulli_undirected_nocovariate Y Robs Z = Ok theta /\
    has_dims theta 1 1 /\
    elem theta 0 0 = sp_total Y / sp_total Robs.
Proof.
  intros HY HYwf HR HRwf HZ Hone.
  destruct (M_step_real_entries HY HYwf HR HRwf HZ) as (theta & Hok & Hd & He).
  exists theta. split; [exact Hok|]. split; [exact Hd|].
  rewrite He by lia.
  destruct HY as (HYr & HYc). destruct HR as (HRr & HRc).
  destruct HZ as (HZr & _).
  rewrite !quad_form_single_cluster by (assumption || congruence).
  reflexivity.
Qed.

Lemma M_step_single_cluster_witness :
  exists theta,
    M_step_sparse_bernoulli_undirected_nocovariate (toy_Y 1) (toy_R 1) toy_Z1
    = Ok theta /\
    has_dims theta 1 1 /\
    elem theta 0 0 = sp_total (toy_Y 1) / sp_total (toy_R 1).
Proof.
  apply (@M_step_single_cluster 3).
  - split; reflexivity.
  - reflexivity.
  - split; reflexivity.
  - reflexivity.
  - repeat split; reflexivity.
  - split; [reflexivity|].
    intros i Hi. simpl in Hi. unfold elem.
    destruct i as [|[|[|i]]]; try lia; reflexivity.
Defined.

(** X6. The row transformation that ends every expectation step is
    numerically safe on a non-empty row: after the row maximum m is
    subtracted every exponent is at most 0, and the sum of the exponentials
    the row is divided by lies between 1 and the length of the row. *)
Theorem softmax_row_divisor_bounds (x : vec R) :
  x <> [] ->
  exists m s,
    max x = Ok m /\ In m x /\
    (forall v, In v x -> v - m <= 0) /\
    s = vsum (map (fun v => exp (v - m)) x) /\
    1 <= s <= INR (length x) /\
    softmax_row x = Ok (map (fun v => exp (v - m) / s) x).
Proof.
  intros Hx. destruct x as [|a l]; [congruence|]. clear Hx.
  set (m := fold_left Rmax l a).
  assert (Hin : In m (a :: l)) by apply fold_Rmax_in.
  assert (Hup : forall v, In v (a :: l) -> v - m <= 0).
  { intros v [<- | Hv].
    - pose proof (fold_Rmax_ge_init l a). fold m in H. lra.
    - pose proof (fold_Rmax_upper l a v Hv). fold m in H. lra. }
  exists m, (vsum (map (fun v => exp (v - m)) (a :: l))).
  split; [reflexivity|]. split; [exact Hin|]. split; [exact Hup|].
  split; [reflexivity|]. split; [|reflexivity].
  rewrite vsum_lsum. split.
  - replace 1 with ((fun v => exp (v - m)) m) by (simpl; rewrite Rminus_diag; apply exp_0).
    apply lsum_map_ge_term with (g := fun v => exp (v - m)); [|exact Hin].
    intros v _. apply Rlt_le, exp_pos.
  - apply lsum_map_le_length with (g := fun v => exp (v - m)).
    intros v Hv. apply exp_le_1, Hup, Hv.
Qed.

Lemma softmax_row_divisor_bounds_witness :
  exists m s,
    max [0; 1] = Ok m /\ In m [0; 1] /\
    (forall v, In v [0; 1] -> v - m <= 0) /\
    s = vsum (map (fun v => exp (v - m)) [0; 1]) /\
    1 <= s <= INR (length [0; 1]) /\
    softmax_row [0; 1] = Ok (map (fun v => exp (v - m) / s) [0; 1]).
Proof. apply softmax_row_divisor_bounds. discriminate. Defined.

(** X7. In real arithmetic the offset [log_lambda] has no effect on what
    the two no-covariate expectation steps return: it is added to every
    score of a row, and the row-wise softmax cancels it. *)
Theorem E_step_ignores_log_lambda
    (Y Robs : sp_mat R) (Z theta : mat R) (pi : vec R) (log_lambda : R) :
  in_unit_interval theta -> vec_in_unit_interval pi ->
  E_step_sparse_bernoulli_undirected_nocovariate Y Robs Z theta pi log_lambda
  = E_step_sparse_bernoulli_undirected_nocovariate Y Robs Z theta pi 0 /\
  E_step_sparse_bernoulli_directed_nocovariate Y Robs Z theta pi log_lambda
  = E_step_sparse_bernoulli_directed_nocovariate Y Robs Z theta pi 0.
Proof.
  intros _ _.
  split.
  - unfold E_step_sparse_bernoulli_undirected_nocovariate. cbv zeta.
    repeat match goal with
           | |- bind ?c _ = bind ?c _ =>
               destruct c; [rewrite !bind_Ok | reflexivity]
           end.
    apply score_offset_vanishes.
  - unfold E_step_sparse_bernoulli_directed_nocovariate. cbv zeta.
    repeat match goal with
           | |- bind ?c _ = bind ?c _ =>
               destruct c; [rewrite !bind_Ok | reflexivity]
           end.
    apply score_offset_vanishes.
Qed.

Lemma E_step_ignores_log_lambda_witness :
  E_step_sparse_bernoulli_undirected_nocovariate
    (toy_Y 1) (toy_R 1) (toy_Z 1) toy_theta toy_pi 3
  = E_step_sparse_bernoulli_undirected_nocovariate
      (toy_Y 1) (toy_R 1) (toy_Z 1) toy_theta toy_pi 0 /\
  E_step_sparse_bernoulli_directed_nocovariate
    (toy_Y 1) (toy_R 1) (toy_Z 1) toy_theta toy_pi 3
  = E_step_sparse_bernoulli_directed_nocovariate
      (toy_Y 1) (toy_R 1) (toy_Z 1) toy_theta toy_pi 0.
Proof.
  apply E_step_ignores_log_lambda.
  - exact toy_theta_in_unit_interval.
  - exact toy_pi_in_unit_interval.
Defined.

(** X8. For sparse N x N matrices Y and R, N x N matrix M, N x Q matrix
    Z, Q x Q matrix Gamma and a vector pi of length Q with entries strictly
    between 0 and 1, the undirected covariate likelihood evaluator returns
    sum(Z log pi), plus the sum over the non-zero entries (i,j) of Y with
    i > j of sum_{q,l} Z_iq Z_jl (Gamma_ql + M_ij), minus the sum over the
    non-zero entries (i,j) of R with i > j of
    sum_{q,l} Z_iq Z_jl log(1 + exp(Gamma_ql + M_ij)). *)
Theorem vLL_undirected_covariates_formula
    (N Q : nat) (Y Robs : sp_mat R) (M Z Gamma : mat R) (pi : vec R) :
  sp_has_dims Y N N -> sp_wf Y = true -> sp_nonzero Y ->
  sp_has_dims Robs N N -> sp_wf Robs = true -> sp_nonzero Robs ->
  has_dims M N N -> has_dims Z N Q -> has_dims Gamma Q Q ->
  length pi = Q -> vec_in_unit_interval pi ->
  vLL_complete_sparse_bernoulli_undirected_covariates Y Robs M Z Gamma pi
  = Ok (big N (fun i => big Q (fun q => elem Z i q * ln (nth q pi 0)))
        + dyad_sum Y (fun i j =>
            big Q (fun q => big Q (fun l =>
              elem Z i q * elem Z j l * (elem Gamma q l + elem M i j))))
        - dyad_sum Robs (fun i j =>
            big Q (fun q => big Q (fun l =>
              elem Z i q * elem Z j l
              * ln (1 + exp (elem Gamma q l + elem M i j)))))).
Proof.
  intros HY HYwf HYnz HR HRwf HRnz HM HZ HG Hpi _.
  rewrite (@vLL_undirected_covariates_value N Q Y Robs M Z Gamma pi
             HY HYwf HYnz HR HRwf HRnz HM HZ HG Hpi).
  unfold prior_term, edge_term, partition_term.
  destruct HZ as (-> & -> & _). reflexivity.
Qed.

Lemma vLL_undirected_covariates_formula_witness :
  vLL_complete_sparse_bernoulli_undirected_covariates
    (toy_Y 1) (toy_R 1) toy_M (toy_Z 1) toy_Gamma toy_pi
  = Ok (big 3 (fun i => big 2 (fun q => elem (toy_Z 1) i q * ln (nth q toy_pi 0)))
        + dyad_sum (toy_Y 1) (fun i j =>
            big 2 (fun q => big 2 (fun l =>
              elem (toy_Z 1) i q * elem (toy_Z 1) j l
              * (elem toy_Gamma q l + elem toy_M i j))))
        - dyad_sum (toy_R 1) (fun i j =>
            big 2 (fun q => big 2 (fun l =>
              elem (toy_Z 1) i q * elem (toy_Z 1) j l
              * ln (1 + exp (elem toy_Gamma q l + elem toy_M i j)))))).
Proof.
  apply (@vLL_undirected_covariates_formula 3 2).
  - split; reflexivity.
  - reflexivity.
  - exact toy_Y_nonzero.
  - split; reflexivity.
  - reflexivity.
  - exact toy_R_nonzero.
  - repeat split; reflexivity.
  - repeat split; reflexivity.
  - repeat split; reflexivity.
  - reflexivity.
  - exact toy_pi_in_unit_interval.
Defined.

(** X9. On the same inputs the directed covariate likelihood evaluator
    returns the same three terms with the two sums running over all
    non-zero entries of Y and of R, in both orders and on the diagonal. *)
Theorem vLL_directed_covariates_formula
    (N Q : nat) (Y Robs : sp_mat R) (M Z Gamma : mat R) (pi : vec R) :
  sp_has_dims Y N N -> sp_wf Y = true -> sp_nonzero Y ->
  sp_has_dims Robs N N -> sp_wf Robs = true -> sp_nonzero Robs ->
  has_dims M N N -> has_dims Z N Q -> has_dims Gamma Q Q ->
  length pi = Q -> vec_in_unit_interval pi ->
  vLL_complete_sparse_bernoulli_directed_covariates Y Robs M Z Gamma pi
  = Ok (big N (fun i => big Q (fun q => elem Z i q * ln (nth q pi 0)))
        + obs_sum Y (fun i j =>
            big Q (fun q => big Q (fun l =>
              elem Z i q * elem Z j l * (elem Gamma q l + elem M i j))))
        - obs_sum Robs (fun i j =>
            big Q (fun q => big Q (fun l =>
              elem Z i q * elem Z j l
              * ln (1 + exp (elem Gamma q l + elem M i j)))))).
Proof.
  intros HY HYwf HYnz HR HRwf HRnz HM HZ HG Hpi _.
  rewrite (@vLL_directed_covariates_value N Q Y Robs M Z Gamma pi
             HY HYwf HYnz HR HRwf HRnz HM HZ HG Hpi).
  unfold prior_term, edge_term, partition_term.
  destruct HZ as (-> & -> & _). reflexivity.
Qed.

Lemma vLL_directed_covariates_formula_witness :
  vLL_complete_sparse_bernoulli_directed_covariates
    (toy_Y 1) (toy_R 1) toy_M (toy_Z 1) toy_Gamma toy_pi
  = Ok (big 3 (fun i => big 2 (fun q => elem (toy_Z 1) i q * ln (nth q toy_pi 0)))
        + obs_sum (toy_Y 1) (fun i j =>
            big 2 (fun q => big 2 (fun l =>
              elem (toy_Z 1) i q * elem (toy_Z 1) j l
              * (elem toy_Gamma q l + elem toy_M i j))))
        - obs_sum (toy_R 1) (fun i j =>
            big 2 (fun q => big 2 (fun l =>
              elem (toy_Z 1) i q * elem (toy_Z 1) j l
              * ln (1 + exp (elem toy_Gamma q l + elem toy_M i j)))))).
Proof.
  apply (@vLL_directed_covariates_formula 3 2).
  - split; reflexivity.
  - reflexivity.
  - exact toy_Y_nonzero.
  - split; reflexivity.
  - reflexivity.
  - exact toy_R_nonzero.
  - repeat split; reflexivity.
  - repeat split; reflexivity.
  - repeat split; reflexivity.
  - reflexivity.
  - exact toy_pi_in_unit_interval.
Defined.

(** X10. When Y and R are symmetric with a zero diagonal and M and Gamma
    are symmetric, the two covariate likelihood evaluators agree up to the
    factor 2: the directed value minus the prior term sum(Z log pi) is twice
    the undirected value minus the prior term. *)
Theorem vLL_covariates_directed_twice_undirected
    (N Q : nat) (Y Robs : sp_mat R) (M Z Gamma : mat R) (pi : vec R) :
  sp_has_dims Y N N -> sp_wf Y = true -> sp_nonzero Y ->
  sp_has_dims Robs N N -> sp_wf Robs = true -> sp_nonzero Robs ->
  has_dims M N N -> has_dims Z N Q -> has_dims Gamma Q Q ->
  length pi = Q -> vec_in_unit_interval pi ->
  sp_symmetric Y -> sp_zero_diagonal Y ->
  sp_symmetric Robs -> sp_zero_diagonal Robs ->
  mat_symmetric M -> mat_symmetric Gamma ->
  exists d u : R,
    vLL_complete_sparse_bernoulli_directed_covariates Y Robs M Z Gamma pi = Ok d /\
    vLL_complete_sparse_bernoulli_undirected_covariates Y Robs M Z Gamma pi = Ok u /\
    d - prior_term Z pi = 2 * (u - prior_term Z pi).
Proof.
  intros HY HYwf HYnz HR HRwf HRnz HM HZ HG Hpi _ HYs HYd HRs HRd HMs HGs.
  eexists. eexists. split; [|split].
  - apply (@vLL_directed_covariates_value N Q Y Robs M Z Gamma pi
             HY HYwf HYnz HR HRwf HRnz HM HZ HG Hpi).
  - apply (@vLL_undirected_covariates_value N Q Y Robs M Z Gamma pi
             HY HYwf HYnz HR HRwf HRnz HM HZ HG Hpi).
  - destruct HY as (HYr & HYc). destruct HR as (HRr & HRc).
    rewrite (@obs_sum_twice_lower Y N (edge_term M Z Gamma) HYr HYc HYs HYd)
      by (intros i j Hi Hj; apply (@edge_term_symmetric M Z Gamma N Q); assumption).
    rewrite (@obs_sum_twice_lower Robs N (partition_term M Z Gamma) HRr HRc HRs HRd)
      by (intros i j Hi Hj; apply (@partition_term_symmetric M Z Gamma N Q); assumption).
    lra.
Qed.

Lemma vLL_covariates_directed_twice_undirected_witness :
  exists d u : R,
    vLL_complete_sparse_bernoulli_directed_covariates
      (toy_Y 1) (toy_R 1) toy_M (toy_Z 1) toy_Gamma toy_pi = Ok d /\
    vLL_complete_sparse_bernoulli_undirected_covariates
      (toy_Y 1) (toy_R 1) toy_M (toy_Z 1) toy_Gamma toy_pi = Ok u /\
    d - prior_term (toy_Z 1) toy_pi = 2 * (u - prior_term (toy_Z 1) toy_pi).
Proof.
  apply (@vLL_covariates_directed_twice_undirected 3 2).
  - split; reflexivity.
  - reflexivity.
  - exact toy_Y_nonzero.
  - split; reflexivity.
  - reflexivity.
  - exact toy_R_nonzero.
  - repeat split; reflexivity.
  - repeat split; reflexivity.
  - repeat split; reflexivity.
  - reflexivity.
  - exact toy_pi_in_unit_interval.
  - exact toy_Y_symmetric.
  - exact toy_Y_zero_diagonal.
  - exact toy_R_symmetric.
  - exact toy_R_zero_diagonal.
  - exact toy_M_symmetric.
  - exact toy_Gamma_symmetric.
Defined.

(** X11. The covariate code paths never read the value of an element they
    iterate over, only its position: the two covariate likelihood
    evaluators return the same result for matrices Y, Y' and for R, R' that
    store the same positions, and the covariate E-step and M-step return
    the same result for masks R, R' that store the same positions,
    whatever the stored values are. *)
Theorem covariate_loops_read_positions_only
    (param : vec R) (Y Y' Robs Robs' : sp_mat R) (X : cube R)
    (M Z Gamma : mat R) (pi : vec R) :
  pattern Y = pattern Y' -> pattern Robs = pattern Robs' ->
  vLL_complete_sparse_bernoulli_undirected_covariates Y Robs M Z Gamma pi
  = vLL_complete_sparse_bernoulli_undirected_covariates Y' Robs' M Z Gamma pi /\
  vLL_complete_sparse_bernoulli_directed_covariates Y Robs M Z Gamma pi
  = vLL_complete_sparse_bernoulli_directed_covariates Y' Robs' M Z Gamma pi /\
  E_step_sparse_bernoulli_undirected_covariates Y Robs M Z Gamma pi
  = E_step_sparse_bernoulli_undirected_covariates Y Robs' M Z Gamma pi /\
  M_step_sparse_bernoulli_undirected_covariates param Y Robs X Z
  = M_step_sparse_bernoulli_undirected_covariates param Y Robs' X Z.
Proof.
  unfold pattern. intros HY HR.
  split; [|split; [|split]].
  - unfold vLL_complete_sparse_bernoulli_undirected_covariates. cbv zeta.
    destruct (times Z (colvec (map ln pi))) as [c|]; [|reflexivity].
    rewrite !bind_Ok.
    rewrite foldM_pattern with (l := sp_entries Y) (l' := sp_entries Y');
      [| intros b e e' Hr Hc; rewrite Hr, Hc; reflexivity | exact HY].
    match goal with
    | |- bind ?c _ = bind ?c _ => destruct c; [rewrite !bind_Ok | reflexivity]
    end.
    apply foldM_pattern; [|exact HR].
    intros b e e' Hr Hc. rewrite Hr, Hc. reflexivity.
  - unfold vLL_complete_sparse_bernoulli_directed_covariates. cbv zeta.
    destruct (times Z (colvec (map ln pi))) as [c|]; [|reflexivity].
    rewrite !bind_Ok.
    rewrite foldM_pattern with (l := sp_entries Y) (l' := sp_entries Y');
      [| intros b e e' Hr Hc; rewrite Hr, Hc; reflexivity | exact HY].
    match goal with
    | |- bind ?c _ = bind ?c _ => destruct c; [rewrite !bind_Ok | reflexivity]
    end.
    apply foldM_pattern; [|exact HR].
    intros b e e' Hr Hc. rewrite Hr, Hc. reflexivity.
  - unfold E_step_sparse_bernoulli_undirected_covariates. cbv zeta.
    destruct (sp_times Y Z) as [YZ|]; [|reflexivity]. rewrite !bind_Ok.
    destruct (times YZ Gamma) as [log_tau|]; [|reflexivity]. rewrite !bind_Ok.
    rewrite foldM_pattern with (l := sp_entries Robs) (l' := sp_entries Robs');
      [reflexivity | | exact HR].
    intros b e e' Hr Hc. rewrite Hr, Hc. reflexivity.
  - unfold M_step_sparse_bernoulli_undirected_covariates. cbv zeta.
    destruct (copy_from param 0 (n_cols Z * n_cols Z)) as [gm|]; [|reflexivity].
    rewrite !bind_Ok.
    destruct (copy_from param (n_cols Z * n_cols Z) (n_slices X)) as [beta|];
      [|reflexivity].
    rewrite !bind_Ok.
    rewrite foldM_pattern with (l := sp_entries Robs) (l' := sp_entries Robs');
      [reflexivity | | exact HR].
    intros b e e' Hr Hc. rewrite Hr, Hc. reflexivity.
Qed.

Lemma covariate_loops_read_positions_only_witness :
  vLL_complete_sparse_bernoulli_undirected_covariates
    (toy_Y 1) (toy_R 1) toy_M (toy_Z 1) toy_Gamma toy_pi
  = vLL_complete_sparse_bernoulli_undirected_covariates
      toy_Y_weighted toy_R_weighted toy_M (toy_Z 1) toy_Gamma toy_pi /\
  vLL_complete_sparse_bernoulli_directed_covariates
    (toy_Y 1) (toy_R 1) toy_M (toy_Z 1) toy_Gamma toy_pi
  = vLL_complete_sparse_bernoulli_directed_covariates
      toy_Y_weighted toy_R_weighted toy_M (toy_Z 1) toy_Gamma toy_pi /\
  E_step_sparse_bernoulli_undirected_covariates
    (toy_Y 1) (toy_R 1) toy_M (toy_Z 1) toy_Gamma toy_pi
  = E_step_sparse_bernoulli_undirected_covariates
      (toy_Y 1) toy_R_weighted toy_M (toy_Z 1) toy_Gamma toy_pi /\
  M_step_sparse_bernoulli_undirected_covariates
    toy_param (toy_Y 1) (toy_R 1) toy_X (toy_Z 1)
  = M_step_sparse_bernoulli_undirected_covariates
      toy_param (toy_Y 1) toy_R_weighted toy_X (toy_Z 1).
Proof.
  apply (@covariate_loops_read_positions_only
           toy_param (toy_Y 1) toy_Y_weighted (toy_R 1) toy_R_weighted);
    reflexivity.
Defined.

(** X12. When the observation mask stores no element below the diagonal
    (an empty mask, or one kept in upper-triangular form), the dyad loop of
    the covariate M-step runs no iteration: for a parameter vector of at
    least Q*Q + K entries the objective is 0 and the gradient is the zero
    vector of length Q*Q + K, whatever Y, X and Z hold. *)
Theorem M_step_covariates_without_lower_dyads
    (param : vec R) (Y Robs : sp_mat R) (X : cube R) (Z : mat R) :
  (n_cols Z * n_cols Z + n_slices X <= length param)%nat ->
  (forall e, In e (sp_entries Robs) -> (row e <= col e)%nat) ->
  exists og,
    M_step_sparse_bernoulli_undirected_covariates param Y Robs X Z = Ok og /\
    objective og = 0 /\
    length (gradient og) = (n_cols Z * n_cols Z + n_slices X)%nat /\
    Forall (fun g => g = 0) (gradient og).
Proof.
  intros Hlen Hupper.
  unfold M_step_sparse_bernoulli_undirected_covariates. cbv zeta.
  rewrite !copy_from_in_bounds by lia. rewrite !bind_Ok.
  rewrite foldM_filter
    with (p := fun e : nonzero R => (col e <? row e)%nat)
         (f := fun acc e =>
                 dyad_update Y X Z
                   (Mat (n_cols Z) (n_cols Z)
                      (firstn (n_cols Z * n_cols Z) (skipn 0 param)))
                   (firstn (n_slices X) (skipn (n_cols Z * n_cols Z) param))
                   acc (row e) (col e)).
  replace (filter (fun e : nonzero R => (col e <? row e)%nat) (sp_entries Robs))
    with (@nil (nonzero R)).
  - simpl foldM. rewrite bind_Ok.
    eexists. split; [reflexivity|].
    simpl objective. simpl gradient. unfold join_cols, vectorise, zeros, mat_init.
    simpl mem.
    split; [lra|]. split.
    + rewrite length_map, length_app, length_map, length_seq, repeat_length.
      reflexivity.
    + apply Forall_forall. intros g Hg.
      apply in_map_iff in Hg. destruct Hg as (z & <- & Hz).
      apply in_app_or in Hz. destruct Hz as [Hz|Hz].
      * apply in_map_iff in Hz. destruct Hz as (k & <- & _). simpl. lra.
      * apply repeat_spec in Hz. subst z. lra.
  - symmetry.
    induction (sp_entries Robs) as [|e l IH]; [reflexivity|]. simpl.
    assert (He : (row e <= col e)%nat) by (apply Hupper; left; reflexivity).
    apply Nat.ltb_ge in He. rewrite He.
    apply IH. intros e' He'. apply Hupper. right; exact He'.
Qed.

Lemma M_step_covariates_without_lower_dyads_witness :
  exists og,
    M_step_sparse_bernoulli_undirected_covariates
      toy_param (toy_Y 1) toy_R_upper toy_X (toy_Z 1) = Ok og /\
    objective og = 0 /\
    length (gradient og) = (n_cols (toy_Z 1%R) * n_cols (toy_Z 1%R) + n_slices toy_X)%nat /\
    Forall (fun g => g = 0) (gradient og).
Proof.
  apply M_step_covariates_without_lower_dyads.
  - simpl. lia.
  - intros e He. simpl in He.
    repeat (destruct He as [<- | He]; [simpl; lia|]). contradiction.
Defined.

(** X13. When the entries of Z are non-negative and the entries of Y lie
    between 0 and 1, the objective the covariate M-step returns, a negated
    Bernoulli log-likelihood, is not negative. *)
Theorem M_step_covariates_objective_nonneg
    (N Q K : nat) (param : vec R) (Y Robs : sp_mat R) (X : cube R) (Z : mat R) :
  length param = (Q * Q + K)%nat ->
  sp_has_dims Y N N -> sp_has_dims Robs N N ->
  sp_wf Robs = true -> sp_nonzero Robs ->
  cube_has_dims X N N K -> has_dims Z N Q ->
  mat_nonneg Z ->
  (forall i j, (i < N)%nat -> (j < N)%nat -> 0 <= sp_elem Y i j <= 1) ->
  exists og,
    M_step_sparse_bernoulli_undirected_covariates param Y Robs X Z = Ok og /\
    0 <= objective og.
Proof.
  intros Hlen HY HR Hwf Hnz HX HZ HZpos HYunit.
  destruct (@M_step_covariates_value N Q K param Y Robs X Z)
    as (og & Hok & Hobj & _); try assumption; [lia|].
  exists og. split; [exact Hok|].
  rewrite Hobj. unfold spec_objective.
  assert (dyad_sum Robs (log_density param Y X Z) <= 0); [|lra].
  destruct HR as (HRr & HRc). destruct HZ as (HZr & _).
  apply dyad_sum_nonpos. intros i j Hi Hj.
  apply log_density_nonpos; [exact HZpos | congruence | congruence |].
  apply HYunit; congruence.
Qed.

Lemma M_step_covariates_objective_nonneg_witness :
  exists og,
    M_step_sparse_bernoulli_undirected_covariates
      toy_param (toy_Y 1) (toy_R 1) toy_X (toy_Z 1) = Ok og /\
    0 <= objective og.
Proof.
  apply (@M_step_covariates_objective_nonneg 3 2 1).
  - reflexivity.
  - split; reflexivity.
  - split; reflexivity.
  - reflexivity.
  - exact toy_R_nonzero.
  - repeat split; reflexivity.
  - repeat split; reflexivity.
  - exact toy_Z_nonneg.
  - intros i j _ _. unfold sp_elem.
    destruct i as [|[|[|i]]]; destruct j as [|[|[|j]]]; simpl; lra.
Defined.

(** X14. For sparse N x N matrices Y and R, an N x Q matrix Z, a Q x Q
    matrix theta with entries strictly between 0 and 1 and a vector pi of
    Q >= 1 entries strictly between 0 and 1, the undirected no-covariate
    expectation step returns the N x Q matrix tau with
    tau_iq = exp(s_iq) / sum_k exp(s_ik), where the score s is
    Y Z log(theta/(1-theta)) + R Z log(1-theta) + log_lambda + log pi:
    subtracting the row maximum changes no value. *)
Theorem E_step_undirected_nocovariate_formula
    (N Q : nat) (Y Robs : sp_mat R) (Z theta : mat R) (pi : vec R)
    (log_lambda : R) :
  sp_has_dims Y N N -> sp_wf Y = true ->
  sp_has_dims Robs N N -> sp_wf Robs = true ->
  has_dims Z N Q -> has_dims theta Q Q -> length pi = Q -> (0 < Q)%nat ->
  in_unit_interval theta -> vec_in_unit_interval pi ->
  exists tau,
    E_step_sparse_bernoulli_undirected_nocovariate Y Robs Z theta pi log_lambda
    = Ok tau /\
    has_dims tau N Q /\
    forall i q, (i < N)%nat -> (q < Q)%nat ->
      elem tau i q
      = exp (score_undirected Y Robs Z theta pi log_lambda i q)
        / big Q (fun k => exp (score_undirected Y Robs Z theta pi log_lambda i k)).
Proof.
  intros HY HYwf HR HRwf HZ Ht Hpi HQ _ _.
  exact (@E_step_undirected_nocovariate_value N Q Y Robs Z theta pi log_lambda
           HY HYwf HR HRwf HZ Ht Hpi HQ).
Qed.

Lemma E_step_undirected_nocovariate_formula_witness :
  exists tau,
    E_step_sparse_bernoulli_undirected_nocovariate
      (toy_Y 1) (toy_R 1) (toy_Z 1) toy_theta toy_pi 0 = Ok tau /\
    has_dims tau 3 2 /\
    forall i q, (i < 3)%nat -> (q < 2)%nat ->
      elem tau i q
      = exp (score_undirected (toy_Y 1) (toy_R 1) (toy_Z 1) toy_theta toy_pi 0 i q)
        / big 2 (fun k =>
            exp (score_undirected (toy_Y 1) (toy_R 1) (toy_Z 1) toy_theta toy_pi 0 i k)).
Proof.
  apply (@E_step_undirected_nocovariate_formula 3 2).
  - split; reflexivity.
  - reflexivity.
  - split; reflexivity.
  - reflexivity.
  - repeat split; reflexivity.
  - repeat split; reflexivity.
  - reflexivity.
  - lia.
  - exact toy_theta_in_unit_interval.
  - exact toy_pi_in_unit_interval.
Defined.

(** X15. On the same inputs the directed no-covariate expectation step
    returns tau_iq = exp(s_iq) / sum_k exp(s_ik) for the score
    s = Y Z log(theta/(1-theta))' + R Z log(1-theta)'
        + Y' Z log(theta/(1-theta)) + R' Z log(1-theta) + log_lambda + log pi:
    the out-edges of a node meet the transpose of theta and its in-edges
    theta itself. *)
Theorem E_step_directed_nocovariate_formula
    (N Q : nat) (Y Robs : sp_mat R) (Z theta : mat R) (pi : vec R)
    (log_lambda : R) :
  sp_has_dims Y N N -> sp_wf Y = true ->
  sp_has_dims Robs N N -> sp_wf Robs = true ->
  has_dims Z N Q -> has_dims theta Q Q -> length pi = Q -> (0 < Q)%nat ->
  in_unit_interval theta -> vec_in_unit_interval pi ->
  exists tau,
    E_step_sparse_bernoulli_directed_nocovariate Y Robs Z theta pi log_lambda
    = Ok tau /\
    has_dims tau N Q /\
    forall i q, (i < N)%nat -> (q < Q)%nat ->
      elem tau i q
      = exp (score_directed Y Robs Z theta pi log_lambda i q)
        / big Q (fun k => exp (score_directed Y Robs Z theta pi log_lambda i k)).
Proof.
  intros HY HYwf HR HRwf HZ Ht Hpi HQ _ _.
  exact (@E_step_directed_nocovariate_value N Q Y Robs Z theta pi log_lambda
           HY HYwf HR HRwf HZ Ht Hpi HQ).
Qed.

Lemma E_step_directed_nocovariate_formula_witness :
  exists tau,
    E_step_sparse_bernoulli_directed_nocovariate
      (toy_Y 1) (toy_R 1) (toy_Z 1) toy_theta toy_pi 0 = Ok tau /\
    has_dims tau 3 2 /\
    forall i q, (i < 3)%nat -> (q < 2)%nat ->
      elem tau i q
      = exp (score_directed (toy_Y 1) (toy_R 1) (toy_Z 1) toy_theta toy_pi 0 i q)
        / big 2 (fun k =>
            exp (score_directed (toy_Y 1) (toy_R 1) (toy_Z 1) toy_theta toy_pi 0 i k)).
Proof.
  apply (@E_step_directed_nocovariate_formula 3 2).
  - split; reflexivity.
  - reflexivity.
  - split; reflexivity.
  - reflexivity.
  - repeat split; reflexivity.
  - repeat split; reflexivity.
  - reflexivity.
  - lia.
  - exact toy_theta_in_unit_interval.
  - exact toy_pi_in_unit_interval.
Defined.

(** X16. For sparse N x N matrices Y and R, N x N matrix M, N x Q matrix
    Z, Q x Q matrix Gamma and a vector pi of Q >= 1 entries strictly between
    0 and 1, the covariate expectation step returns
    tau_iq = exp(s_iq) / sum_k exp(s_ik) for the score
    s_iq = (Y Z Gamma)_iq
           - sum over the non-zero entries (i,j) of R in row i of
             sum_l Z_jl log(1 + exp(Gamma_ql + M_ij))
           + log pi_q:
    every stored element of R is visited, above and below the diagonal, and
    its penalty goes to the row of its first index only. *)
Theorem E_step_undirected_covariates_formula
    (N Q : nat) (Y Robs : sp_mat R) (M Z Gamma : mat R) (pi : vec R) :
  sp_has_dims Y N N -> sp_wf Y = true ->
  sp_has_dims Robs N N -> sp_wf Robs = true -> sp_nonzero Robs ->
  has_dims M N N -> has_dims Z N Q -> has_dims Gamma Q Q ->
  length pi = Q -> (0 < Q)%nat -> vec_in_unit_interval pi ->
  exists tau,
    E_step_sparse_bernoulli_undirected_covariates Y Robs M Z Gamma pi = Ok tau /\
    has_dims tau N Q /\
    forall i q, (i < N)%nat -> (q < Q)%nat ->
      elem tau i q
      = exp (score_covariates Y Robs M Z Gamma pi i q)
        / big Q (fun k => exp (score_covariates Y Robs M Z Gamma pi i k)).
Proof.
  intros HY HYwf HR HRwf HRnz HM HZ HG Hpi HQ _.
  exact (@E_step_undirected_covariates_value N Q Y Robs M Z Gamma pi
           HY HYwf HR HRwf HRnz HM HZ HG Hpi HQ).
Qed.

Lemma E_step_undirected_covariates_formula_witness :
  exists tau,
    E_step_sparse_bernoulli_undirected_covariates
      (toy_Y 1) (toy_R 1) toy_M (toy_Z 1) toy_Gamma toy_pi = Ok tau /\
    has_dims tau 3 2 /\
    forall i q, (i < 3)%nat -> (q < 2)%nat ->
      elem tau i q
      = exp (score_covariates (toy_Y 1) (toy_R 1) toy_M (toy_Z 1) toy_Gamma toy_pi i q)
        / big 2 (fun k =>
            exp (score_covariates (toy_Y 1) (toy_R 1) toy_M (toy_Z 1) toy_Gamma
                   toy_pi i k)).
Proof.
  apply (@E_step_undirected_covariates_formula 3 2).
  - split; reflexivity.
  - reflexivity.
  - split; reflexivity.
  - reflexivity.
  - exact toy_R_nonzero.
  - repeat split; reflexivity.
  - repeat split; reflexivity.
  - repeat split; reflexivity.
  - reflexivity.
  - lia.
  - exact toy_pi_in_unit_interval.
Defined.

(** X17. The directed likelihood evaluator with covariates contains the
    one without: for 0/1 matrices Y and R and theta with entries strictly
    between 0 and 1, called with the zero matrix for M and the log-odds
    log(theta/(1-theta)) for Gamma it returns what the directed
    no-covariate evaluator returns on theta (in real arithmetic). *)
Theorem vLL_directed_covariates_embeds_nocovariate
    (N Q : nat) (Y Robs : sp_mat R) (Z theta : mat R) (pi : vec R) :
  sp_has_dims Y N N -> sp_wf Y = true -> sp_nonzero Y -> sp_binary Y ->
  sp_has_dims Robs N N -> sp_wf Robs = true -> sp_nonzero Robs ->
  sp_binary Robs ->
  has_dims Z N Q -> has_dims theta Q Q -> length pi = Q ->
  in_unit_interval theta -> vec_in_unit_interval pi ->
  vLL_complete_sparse_bernoulli_directed_covariates
    Y Robs (zeros N N) Z (log_odds theta) pi
  = vLL_complete_sparse_bernoulli_directed_nocovariate Y Robs Z theta pi.
Proof.
  intros HY HYwf HYnz HYb HR HRwf HRnz HRb HZ Ht Hpi Hunit _.
  rewrite (@vLL_directed_covariates_value N Q Y Robs (zeros N N) Z
             (log_odds theta) pi HY HYwf HYnz HR HRwf HRnz
             (zeros_dims N) HZ (log_odds_dims Ht) Hpi).
  rewrite (@vLL_directed_value N Q Y Robs Z theta pi HY HYwf HR HRwf HZ Ht Hpi).
  rewrite (@edge_sum_logit N Q Y Z theta HY HZ Ht HYb).
  rewrite (@partition_sum_logit N Q Robs Z theta HR HZ Ht Hunit HRb).
  f_equal. ring.
Qed.

Lemma vLL_directed_covariates_embeds_nocovariate_witness :
  vLL_complete_sparse_bernoulli_directed_covariates
    (toy_Y 1) (toy_R 1) (zeros 3 3) (toy_Z 1) (log_odds toy_theta) toy_pi
  = vLL_complete_sparse_bernoulli_directed_nocovariate
      (toy_Y 1) (toy_R 1) (toy_Z 1) toy_theta toy_pi.
Proof.
  apply (@vLL_directed_covariates_embeds_nocovariate 3 2).
  - split; reflexivity.
  - reflexivity.
  - exact toy_Y_nonzero.
  - exact toy_Y_binary.
  - split; reflexivity.
  - reflexivity.
  - exact toy_R_nonzero.
  - exact toy_R_binary.
  - repeat split; reflexivity.
  - repeat split; reflexivity.
  - reflexivity.
  - exact toy_theta_in_unit_interval.
  - exact toy_pi_in_unit_interval.
Defined.

(** X18. The same holds for the undirected evaluators when Y and R are
    symmetric 0/1 matrices with a zero diagonal and theta is symmetric: the
    sum over the dyads with i > j that the covariate evaluator runs is the
    half of the sum over all dyads that the factor 0.5 takes. *)
Theorem vLL_undirected_covariates_embeds_nocovariate
    (N Q : nat) (Y Robs : sp_mat R) (Z theta : mat R) (pi : vec R) :
  sp_has_dims Y N N -> sp_wf Y = true -> sp_nonzero Y -> sp_binary Y ->
  sp_has_dims Robs N N -> sp_wf Robs = true -> sp_nonzero Robs ->
  sp_binary Robs ->
  has_dims Z N Q -> has_dims theta Q Q -> length pi = Q ->
  in_unit_interval theta -> vec_in_unit_interval pi ->
  sp_symmetric Y -> sp_zero_diagonal Y ->
  sp_symmetric Robs -> sp_zero_diagonal Robs -> mat_symmetric theta ->
  vLL_complete_sparse_bernoulli_undirected_covariates
    Y Robs (zeros N N) Z (log_odds theta) pi
  = vLL_complete_sparse_bernoulli_undirected_nocovariate Y Robs Z theta pi.
Proof.
  intros HY HYwf HYnz HYb HR HRwf HRnz HRb HZ Ht Hpi Hunit _
         HYs HYd HRs HRd Hts.
  assert (HM : has_dims (@zeros R _ N N) N N) by apply zeros_dims.
  assert (HG : has_dims (log_odds theta) Q Q) by (apply log_odds_dims; exact Ht).
  assert (HMs : mat_symmetric (@zeros R _ N N)).
  { intros i j Hi Hj. simpl in Hi, Hj.
    rewrite !(@elem_zeros N) by assumption. reflexivity. }
  assert (HGs : mat_symmetric (log_odds theta)).
  { intros q l Hq Hl. destruct HG as (HGr & _). rewrite HGr in Hq, Hl.
    rewrite !(@elem_log_odds Q theta) by assumption.
    unfold logit. destruct Ht as (Htr & _).
    rewrite (Hts q l) by (rewrite Htr; assumption). reflexivity. }
  rewrite (@vLL_undirected_covariates_value N Q Y Robs (zeros N N) Z
             (log_odds theta) pi HY HYwf HYnz HR HRwf HRnz HM HZ HG Hpi).
  rewrite (@vLL_undirected_value N Q Y Robs Z theta pi HY HYwf HR HRwf HZ Ht Hpi).
  pose proof (@edge_sum_logit N Q Y Z theta HY HZ Ht HYb) as HE.
  pose proof (@partition_sum_logit N Q Robs Z theta HR HZ Ht Hunit HRb) as HP.
  destruct HY as (HYr & HYc). destruct HR as (HRr & HRc).
  rewrite (@obs_sum_twice_lower Y N (edge_term (zeros N N) Z (log_odds theta))
             HYr HYc HYs HYd) in HE
    by (intros i j Hi Hj;
        apply (@edge_term_symmetric (zeros N N) Z (log_odds theta) N Q);
        assumption).
  rewrite (@obs_sum_twice_lower Robs N
             (partition_term (zeros N N) Z (log_odds theta))
             HRr HRc HRs HRd) in HP
    by (intros i j Hi Hj;
        apply (@partition_term_symmetric (zeros N N) Z (log_odds theta) N Q);
        assumption).
  unfold spec_vLL_undirected. f_equal. lra.
Qed.

Lemma vLL_undirected_covariates_embeds_nocovariate_witness :
  vLL_complete_sparse_bernoulli_undirected_covariates
    (toy_Y 1) (toy_R 1) (zeros 3 3) (toy_Z 1) (log_odds toy_theta) toy_pi
  = vLL_complete_sparse_bernoulli_undirected_nocovariate
      (toy_Y 1) (toy_R 1) (toy_Z 1) toy_theta toy_pi.
Proof.
  apply (@vLL_undirected_covariates_embeds_nocovariate 3 2).
  - split; reflexivity.
  - reflexivity.
  - exact toy_Y_nonzero.
  - exact toy_Y_binary.
  - split; reflexivity.
  - reflexivity.
  - exact toy_R_nonzero.
  - exact toy_R_binary.
  - repeat split; reflexivity.
  - repeat split; reflexivity.
  - reflexivity.
  - exact toy_theta_in_unit_interval.
  - exact toy_pi_in_unit_interval.
  - exact toy_Y_symmetric.
  - exact toy_Y_zero_diagonal.
  - exact toy_R_symmetric.
  - exact toy_R_zero_diagonal.
  - exact toy_theta_symmetric.
Defined.

(** X19. The expectation step with covariates contains the undirected one
    without: for a 0/1 mask R and a symmetric theta with entries strictly
    between 0 and 1, called with the zero matrix for M and
    log(theta/(1-theta)) for Gamma it returns the matrix the undirected
    no-covariate expectation step returns on theta with log_lambda = 0 (in
    real arithmetic).  Y may hold any weights. *)
Theorem E_step_covariates_embeds_nocovariate
    (N Q : nat) (Y Robs : sp_mat R) (Z theta : mat R) (pi : vec R) :
  sp_has_dims Y N N -> sp_wf Y = true ->
  sp_has_dims Robs N N -> sp_wf Robs = true -> sp_nonzero Robs ->
  sp_binary Robs ->
  has_dims Z N Q -> has_dims theta Q Q -> length pi = Q -> (0 < Q)%nat ->
  in_unit_interval theta -> vec_in_unit_interval pi -> mat_symmetric theta ->
  E_step_sparse_bernoulli_undirected_covariates
    Y Robs (zeros N N) Z (log_odds theta) pi
  = E_step_sparse_bernoulli_undirected_nocovariate Y Robs Z theta pi 0.
Proof.
  intros HY HYwf HR HRwf HRnz HRb HZ Ht Hpi HQ Hunit _ Hts.
  destruct (@E_step_undirected_covariates_value N Q Y Robs (zeros N N) Z
              (log_odds theta) pi HY HYwf HR HRwf HRnz
              (zeros_dims N) HZ (log_odds_dims Ht) Hpi HQ)
    as (tau & -> & Hd & He).
  destruct (@E_step_undirected_nocovariate_value N Q Y Robs Z theta pi 0
              HY HYwf HR HRwf HZ Ht Hpi HQ)
    as (tau' & -> & Hd' & He').
  f_equal. apply (@mat_ext tau tau' N Q Hd Hd').
  intros i q Hi Hq. rewrite He, He' by assumption.
  rewrite (@score_covariates_logit N Q Y Robs Z theta pi HZ Ht Hunit i q)
    by assumption.
  f_equal. apply big_ext. intros k Hk.
  rewrite (@score_covariates_logit N Q Y Robs Z theta pi HZ Ht Hunit i k)
    by assumption.
  reflexivity.
Qed.

Lemma E_step_covariates_embeds_nocovariate_witness :
  E_step_sparse_bernoulli_undirected_covariates
    (toy_Y 1) (toy_R 1) (zeros 3 3) (toy_Z 1) (log_odds toy_theta) toy_pi
  = E_step_sparse_bernoulli_undirected_nocovariate
      (toy_Y 1) (toy_R 1) (toy_Z 1) toy_theta toy_pi 0.
Proof.
  apply (@E_step_covariates_embeds_nocovariate 3 2).
  - split; reflexivity.
  - reflexivity.
  - split; reflexivity.
  - reflexivity.
  - exact toy_R_nonzero.
  - exact toy_R_binary.
  - repeat split; reflexivity.
  - repeat split; reflexivity.
  - reflexivity.
  - lia.
  - exact toy_theta_in_unit_interval.
  - exact toy_pi_in_unit_interval.
  - exact toy_theta_symmetric.
Defined.

(** X20. A node whose row of Y and of R holds no entry gets the
    normalised prior pi_q / sum_k pi_k from the undirected no-covariate
    and from the covariate expectation step, whatever theta, Gamma, M and
    the other nodes are; from the directed one when its column of Y and of
    R is empty too. *)
Theorem E_step_isolated_node_gets_prior
    (N Q : nat) (Y Robs : sp_mat R) (M Z theta Gamma : mat R) (pi : vec R)
    (log_lambda : R) (i : nat) :
  sp_has_dims Y N N -> sp_wf Y = true ->
  sp_has_dims Robs N N -> sp_wf Robs = true -> sp_nonzero Robs ->
  has_dims M N N -> has_dims Z N Q ->
  has_dims theta Q Q -> has_dims Gamma Q Q ->
  length pi = Q -> (0 < Q)%nat ->
  in_unit_interval theta -> vec_in_unit_interval pi ->
  (i < N)%nat -> empty_row Y i -> empty_row Robs i ->
  (exists tau,
     E_step_sparse_bernoulli_undirected_nocovariate Y Robs Z theta pi log_lambda
     = Ok tau /\
     forall q, (q < Q)%nat ->
       elem tau i q = nth q pi 0 / big Q (fun k => nth k pi 0)) /\
  (exists tau,
     E_step_sparse_bernoulli_undirected_covariates Y Robs M Z Gamma pi = Ok tau /\
     forall q, (q < Q)%nat ->
       elem tau i q = nth q pi 0 / big Q (fun k => nth k pi 0)) /\
  (empty_col Y i -> empty_col Robs i ->
   exists tau,
     E_step_sparse_bernoulli_directed_nocovariate Y Robs Z theta pi log_lambda
     = Ok tau /\
     forall q, (q < Q)%nat ->
       elem tau i q = nth q pi 0 / big Q (fun k => nth k pi 0)).
Proof.
  intros HY HYwf HR HRwf HRnz HM HZ Ht HG Hpi HQ _ Hunit Hi HYi HRi.
  split; [|split].
  - destruct (@E_step_undirected_nocovariate_value N Q Y Robs Z theta pi
                log_lambda HY HYwf HR HRwf HZ Ht Hpi HQ)
      as (tau & Hok & _ & He).
    exists tau. split; [exact Hok|]. intros q Hq.
    rewrite He by assumption.
    apply softmax_of_prior with (c := log_lambda); try assumption.
    intros k _. apply score_undirected_empty_row; assumption.
  - destruct (@E_step_undirected_covariates_value N Q Y Robs M Z Gamma pi
                HY HYwf HR HRwf HRnz HM HZ HG Hpi HQ)
      as (tau & Hok & _ & He).
    exists tau. split; [exact Hok|]. intros q Hq.
    rewrite He by assumption.
    apply softmax_of_prior with (c := 0); try assumption.
    intros k _. apply score_covariates_empty_row; assumption.
  - intros HYc HRc.
    destruct (@E_step_directed_nocovariate_value N Q Y Robs Z theta pi
                log_lambda HY HYwf HR HRwf HZ Ht Hpi HQ)
      as (tau & Hok & _ & He).
    exists tau. split; [exact Hok|]. intros q Hq.
    rewrite He by assumption.
    apply softmax_of_prior with (c := log_lambda); try assumption.
    intros k _. apply score_directed_empty; assumption.
Qed.

Lemma E_step_isolated_node_gets_prior_witness :
  (exists tau,
     E_step_sparse_bernoulli_undirected_nocovariate
       toy_Y4 toy_R4 toy_Z4 toy_theta toy_pi 0 = Ok tau /\
     forall q, (q < 2)%nat ->
       elem tau 3 q = nth q toy_pi 0 / big 2 (fun k => nth k toy_pi 0)) /\
  (exists tau,
     E_step_sparse_bernoulli_undirected_covariates
       toy_Y4 toy_R4 toy_M4 toy_Z4 toy_Gamma toy_pi = Ok tau /\
     forall q, (q < 2)%nat ->
       elem tau 3 q = nth q toy_pi 0 / big 2 (fun k => nth k toy_pi 0)) /\
  (exists tau,
     E_step_sparse_bernoulli_directed_nocovariate
       toy_Y4 toy_R4 toy_Z4 toy_theta toy_pi 0 = Ok tau /\
     forall q, (q < 2)%nat ->
       elem tau 3 q = nth q toy_pi 0 / big 2 (fun k => nth k toy_pi 0)).
Proof.
  assert (H : sp_has_dims toy_Y4 4 4 /\ sp_has_dims toy_R4 4 4 /\
              has_dims toy_M4 4 4 /\ has_dims toy_Z4 4 2).
  { repeat split; reflexivity. }
  destruct H as (HY & HR & HM & HZ).
  destruct (@E_step_isolated_node_gets_prior 4 2 toy_Y4 toy_R4 toy_M4 toy_Z4
              toy_theta toy_Gamma toy_pi 0 3 HY eq_refl HR eq_refl
              toy_R4_nonzero HM HZ
              (conj eq_refl (conj eq_refl eq_refl))
              (conj eq_refl (conj eq_refl eq_refl))
              eq_refl (le_S _ _ (le_n 1))
              toy_theta_in_unit_interval toy_pi_in_unit_interval
              (le_n 4) (fun j => eq_refl) (fun j => eq_refl))
    as (H1 & H2 & H3).
  split; [exact H1|]. split; [exact H2|].
  apply H3; intros j; unfold sp_elem; simpl;
    rewrite !Bool.andb_false_r; reflexivity.
Defined.

(** X21. Without a cluster (Z with no column, theta and Gamma 0 x 0, pi
    empty) and with at least one node, the three expectation steps pass
    every shape check and then throw: the row transformation takes the
    maximum of an empty row.  No N x 0 matrix is returned. *)
Theorem E_step_without_cluster_throws
    (N : nat) (Y Robs : sp_mat R) (M Z theta Gamma : mat R) (log_lambda : R) :
  sp_has_dims Y N N -> sp_has_dims Robs N N ->
  has_dims Z N 0 -> has_dims theta 0 0 -> has_dims Gamma 0 0 -> (0 < N)%nat ->
  E_step_sparse_bernoulli_undirected_nocovariate Y Robs Z theta [] log_lambda
  = Raise no_elements /\
  E_step_sparse_bernoulli_directed_nocovariate Y Robs Z theta [] log_lambda
  = Raise no_elements /\
  E_step_sparse_bernoulli_undirected_covariates Y Robs M Z Gamma []
  = Raise no_elements.
Proof.
  intros (HYr & HYc) (HRr & HRc) (HZr & HZc & _) (Htr & Htc & _)
         (HGr & HGc & _) HN.
  assert (EYZ : forall S : sp_mat R,
             sp_n_rows S = N -> sp_n_cols S = N ->
             exists A, sp_times S Z = Ok A /\ n_rows A = N /\ n_cols A = 0%nat).
  { intros S Hr Hc. rewrite sp_times_conform by congruence.
    eexists. split; [reflexivity|]. simpl. split; [exact Hr | exact HZc]. }
  assert (Eodds : exists W, ediv theta (mat_map (fun x => 1 - x) theta) = Ok W /\
                            n_rows W = 0%nat /\ n_cols W = 0%nat).
  { unfold ediv. rewrite mat_zip_same by reflexivity.
    eexists. split; [reflexivity|]. simpl. split; assumption. }
  assert (Etimes : forall A B : mat R,
             n_rows A = N -> n_cols A = 0%nat ->
             n_rows B = 0%nat -> n_cols B = 0%nat ->
             exists C, times A B = Ok C /\ n_rows C = N /\ n_cols C = 0%nat).
  { intros A B HAr HAc HBr HBc. rewrite times_conform by congruence.
    eexists. split; [reflexivity|]. simpl. split; assumption. }
  assert (Eplus : forall A B : mat R,
             n_rows A = N -> n_cols A = 0%nat ->
             n_rows B = N -> n_cols B = 0%nat ->
             exists C, eplus A B = Ok C /\ n_rows C = N /\ n_cols C = 0%nat).
  { intros A B HAr HAc HBr HBc. unfold eplus.
    rewrite mat_zip_same by congruence.
    eexists. split; [reflexivity|]. simpl. split; assumption. }
  assert (Efinal : forall A : mat R,
             n_rows A = N -> n_cols A = 0%nat ->
             (log_tau <- each_row_plus A (map ln []) ;;
              each_row softmax_row log_tau) = Raise no_elements).
  { intros A HAr HAc.
    rewrite each_row_plus_conform by (simpl; congruence).
    rewrite bind_Ok. apply each_row_no_column; simpl; lia. }
  split; [|split].
  - unfold E_step_sparse_bernoulli_undirected_nocovariate.
    destruct (EYZ Y HYr HYc) as (YZ & -> & HYZr & HYZc). rewrite bind_Ok.
    destruct Eodds as (W & -> & HWr & HWc). rewrite bind_Ok.
    destruct (Etimes YZ (mat_map ln W)) as (a & -> & Har & Hac);
      try assumption. rewrite bind_Ok.
    destruct (EYZ Robs HRr HRc) as (RZ & -> & HRZr & HRZc). rewrite bind_Ok.
    destruct (Etimes RZ (mat_map ln (mat_map (fun x => 1 - x) theta)))
      as (b & -> & Hbr & Hbc); try assumption. rewrite bind_Ok.
    destruct (Eplus a b) as (ab & -> & Habr & Habc); try assumption.
    rewrite bind_Ok. cbv zeta.
    apply Efinal; simpl; assumption.
  - unfold E_step_sparse_bernoulli_directed_nocovariate.
    destruct (EYZ Y HYr HYc) as (YZ & -> & HYZr & HYZc). rewrite bind_Ok.
    destruct Eodds as (W & -> & HWr & HWc). rewrite !bind_Ok.
    destruct (Etimes YZ (trans (mat_map ln W))) as (a & -> & Har & Hac);
      try assumption. rewrite bind_Ok.
    destruct (EYZ Robs HRr HRc) as (RZ & -> & HRZr & HRZc). rewrite bind_Ok.
    destruct (Etimes RZ (trans (mat_map ln (mat_map (fun x => 1 - x) theta))))
      as (b & -> & Hbr & Hbc); try assumption. rewrite bind_Ok.
    destruct (Eplus a b) as (ab & -> & Habr & Habc); try assumption.
    rewrite bind_Ok.
    destruct (EYZ (sp_trans Y)) as (YtZ & -> & HYtZr & HYtZc);
      [exact HYc | exact HYr |]. rewrite !bind_Ok.
    destruct (Etimes YtZ (mat_map ln W)) as (c & -> & Hcr & Hcc);
      try assumption. rewrite bind_Ok.
    destruct (Eplus ab c) as (abc & -> & Habcr & Habcc); try assumption.
    rewrite bind_Ok.
    destruct (EYZ (sp_trans Robs)) as (RtZ & -> & HRtZr & HRtZc);
      [exact HRc | exact HRr |]. rewrite bind_Ok.
    destruct (Etimes RtZ (mat_map ln (mat_map (fun x => 1 - x) theta)))
      as (d & -> & Hdr & Hdc); try assumption. rewrite bind_Ok.
    destruct (Eplus abc d) as (abcd & -> & Habcdr & Habcdc); try assumption.
    rewrite bind_Ok. cbv zeta.
    apply Efinal; simpl; assumption.
  - unfold E_step_sparse_bernoulli_undirected_covariates. cbv zeta.
    destruct (EYZ Y HYr HYc) as (YZ & -> & HYZr & HYZc). rewrite bind_Ok.
    destruct (Etimes YZ Gamma) as (A & -> & HAr & HAc); try assumption.
    rewrite bind_Ok. rewrite HZc. simpl foldM at 2.
    rewrite foldM_skip, bind_Ok.
    apply Efinal; assumption.
Qed.

Lemma E_step_without_cluster_throws_witness :
  E_step_sparse_bernoulli_undirected_nocovariate
    (toy_Y 1) (toy_R 1) toy_Z0 empty_mat [] 0 = Raise no_elements /\
  E_step_sparse_bernoulli_directed_nocovariate
    (toy_Y 1) (toy_R 1) toy_Z0 empty_mat [] 0 = Raise no_elements /\
  E_step_sparse_bernoulli_undirected_covariates
    (toy_Y 1) (toy_R 1) toy_M toy_Z0 empty_mat [] = Raise no_elements.
Proof.
  apply (@E_step_without_cluster_throws 3).
  - split; reflexivity.
  - split; reflexivity.
  - repeat split; reflexivity.
  - repeat split; reflexivity.
  - repeat split; reflexivity.
  - lia.
Defined.

(** X22. The objective the covariate M-step returns is the negated
    likelihood the undirected covariate evaluator computes, without its
    prior term: for a 0/1 matrix Y whose edges all lie on observed dyads, the
    M-step called on [param] and the evaluator called with the matrix Gamma
    packed in [param] and with M_ij = beta . X(i,j,.) return og and v with
    objective(og) = - (v - sum(Z log pi)). *)
Theorem M_step_objective_is_negated_likelihood
    (N Q K : nat) (param : vec R) (Y Robs : sp_mat R) (X : cube R) (Z : mat R)
    (pi : vec R) :
  length param = (Q * Q + K)%nat ->
  sp_has_dims Y N N -> sp_wf Y = true -> sp_nonzero Y -> sp_binary Y ->
  sp_has_dims Robs N N -> sp_wf Robs = true -> sp_nonzero Robs ->
  edges_observed Y Robs ->
  cube_has_dims X N N K -> has_dims Z N Q ->
  length pi = Q -> vec_in_unit_interval pi ->
  exists og v,
    M_step_sparse_bernoulli_undirected_covariates param Y Robs X Z = Ok og /\
    vLL_complete_sparse_bernoulli_undirected_covariates
      Y Robs (predictor_matrix param X Z) Z (Gamma_matrix param Z) pi = Ok v /\
    objective og = - (v - prior_term Z pi).
Proof.
  intros Hlen HY HYwf HYnz HYb HR HRwf HRnz Hobs HX HZ Hpi _.
  assert (Hlen' : (Q * Q <= length param)%nat) by lia.
  destruct (@M_step_covariates_value N Q K param Y Robs X Z)
    as (og & Hok & Hobj & _); try assumption; [lia|].
  exists og. eexists. split; [exact Hok|]. split.
  - apply (@vLL_undirected_covariates_value N Q Y Robs
             (predictor_matrix param X Z) Z (Gamma_matrix param Z) pi
             HY HYwf HYnz HR HRwf HRnz
             (@predictor_matrix_dims N Q param X Z HZ)
             HZ (@Gamma_matrix_dims N Q param Z Hlen' HZ) Hpi).
  - rewrite Hobj. unfold spec_objective.
    rewrite (@dyad_sum_log_density N Q param Y Robs X Z HY HR HZ HYb Hobs).
    lra.
Qed.

Lemma M_step_objective_is_negated_likelihood_witness :
  exists og v,
    M_step_sparse_bernoulli_undirected_covariates
      toy_param (toy_Y 1) (toy_R 1) toy_X (toy_Z 1) = Ok og /\
    vLL_complete_sparse_bernoulli_undirected_covariates
      (toy_Y 1) (toy_R 1) (predictor_matrix toy_param toy_X (toy_Z 1))
      (toy_Z 1) (Gamma_matrix toy_param (toy_Z 1)) toy_pi = Ok v /\
    objective og = - (v - prior_term (toy_Z 1) toy_pi).
Proof.
  apply (@M_step_objective_is_negated_likelihood 3 2 1).
  - reflexivity.
  - split; reflexivity.
  - reflexivity.
  - exact toy_Y_nonzero.
  - exact toy_Y_binary.
  - split; reflexivity.
  - reflexivity.
  - exact toy_R_nonzero.
  - intros i j. unfold sp_elem.
    destruct i as [|[|[|i]]]; destruct j as [|[|[|j]]]; simpl; lra.
  - repeat split; reflexivity.
  - repeat split; reflexivity.
  - reflexivity.
  - exact toy_pi_in_unit_interval.
Defined.

(** X23. The gradient the covariate M-step returns is the gradient of the
    objective it returns: for a parameter vector of length Q*Q + K and every
    index idx below Q*Q + K, the objective, as a function of the entry idx
    of the parameter vector with the other entries fixed, is differentiable
    at the value of that entry, and its derivative is the entry idx of the
    returned gradient (in real arithmetic). *)
Theorem M_step_gradient_is_derivative
    (N Q K : nat) (param : vec R) (Y Robs : sp_mat R) (X : cube R) (Z : mat R)
    (idx : nat) :
  length param = (Q * Q + K)%nat ->
  sp_has_dims Y N N -> sp_has_dims Robs N N ->
  sp_wf Robs = true -> sp_nonzero Robs ->
  cube_has_dims X N N K -> has_dims Z N Q ->
  (idx < Q * Q + K)%nat ->
  exists og,
    M_step_sparse_bernoulli_undirected_covariates param Y Robs X Z = Ok og /\
    derivable_pt_lim
      (fun t => objective_at Y Robs X Z (with_entry param idx t))
      (nth idx param 0) (nth idx (gradient og) 0).
Proof.
  intros Hlen HY HR HRwf HRnz HX HZ Hidx.
  exact (@M_step_gradient_derivative N Q K param Y Robs X Z idx
           Hlen HY HR HRwf HRnz HX HZ Hidx).
Qed.

Lemma M_step_gradient_is_derivative_witness :
  exists og,
    M_step_sparse_bernoulli_undirected_covariates
      toy_param (toy_Y 1) (toy_R 1) toy_X (toy_Z 1) = Ok og /\
    derivable_pt_lim
      (fun t => objective_at (toy_Y 1) (toy_R 1) toy_X (toy_Z 1)
                  (with_entry toy_param 4 t))
      (nth 4 toy_param 0) (nth 4 (gradient og) 0).
Proof.
  apply (@M_step_gradient_is_derivative 3 2 1).
  - reflexivity.
  - split; reflexivity.
  - split; reflexivity.
  - reflexivity.
  - exact toy_R_nonzero.
  - repeat split; reflexivity.
  - repeat split; reflexivity.
  - lia.
Defined.

(** X24. The closed-form M-step returns the maximiser of the no-covariate
    likelihood evaluators: when every pair of clusters (q,l) has
    0 < (Z'YZ)_ql < (Z'RZ)_ql, the matrix theta_hat it returns has its
    entries strictly between 0 and 1, and for every Q x Q matrix theta with
    entries strictly between 0 and 1 both the undirected and the directed
    evaluator return at theta a value that is at most the value they return
    at theta_hat (in real arithmetic). *)
Theorem M_step_maximises_likelihood
    (N Q : nat) (Y Robs : sp_mat R) (Z theta : mat R) (pi : vec R) :
  sp_has_dims Y N N -> sp_wf Y = true ->
  sp_has_dims Robs N N -> sp_wf Robs = true ->
  has_dims Z N Q -> has_dims theta Q Q -> length pi = Q ->
  in_unit_interval theta -> vec_in_unit_interval pi ->
  (forall q l, (q < Q)%nat -> (l < Q)%nat ->
     0 < quad_form Y Z q l < quad_form Robs Z q l) ->
  exists theta_hat,
    M_step_sparse_bernoulli_undirected_nocovariate Y Robs Z = Ok theta_hat /\
    has_dims theta_hat Q Q /\ in_unit_interval theta_hat /\
    (exists v v_hat,
       vLL_complete_sparse_bernoulli_undirected_nocovariate Y Robs Z theta pi
       = Ok v /\
       vLL_complete_sparse_bernoulli_undirected_nocovariate Y Robs Z theta_hat pi
       = Ok v_hat /\
       v <= v_hat) /\
    (exists v v_hat,
       vLL_complete_sparse_bernoulli_directed_nocovariate Y Robs Z theta pi
       = Ok v /\
       vLL_complete_sparse_bernoulli_directed_nocovariate Y Robs Z theta_hat pi
       = Ok v_hat /\
       v <= v_hat).
Proof.
  intros HY HYwf HR HRwf HZ Ht Hpi Hunit _ Hblocks.
  destruct (M_step_real_entries HY HYwf HR HRwf HZ) as (theta_hat & Hok & Hd & He).
  exists theta_hat. split; [exact Hok|]. split; [exact Hd|].
  split; [exact (@hat_unit Q Y Robs Z theta_hat Hblocks He Hd)|].
  pose proof (@weighted_sums_max N Q Y Robs Z theta theta_hat HZ Ht Hunit Hblocks He)
    as Hmax.
  split.
  - eexists. eexists. split; [|split].
    + apply (@vLL_undirected_value N Q Y Robs Z theta pi HY HYwf HR HRwf HZ Ht Hpi).
    + apply (@vLL_undirected_value N Q Y Robs Z theta_hat pi
               HY HYwf HR HRwf HZ Hd Hpi).
    + unfold spec_vLL_undirected. lra.
  - eexists. eexists. split; [|split].
    + apply (@vLL_directed_value N Q Y Robs Z theta pi HY HYwf HR HRwf HZ Ht Hpi).
    + apply (@vLL_directed_value N Q Y Robs Z theta_hat pi
               HY HYwf HR HRwf HZ Hd Hpi).
    + lra.
Qed.

Lemma M_step_maximises_likelihood_witness :
  exists theta_hat,
    M_step_sparse_bernoulli_undirected_nocovariate (toy_Y 1) (toy_R 1) toy_Z1
    = Ok theta_hat /\
    has_dims theta_hat 1 1 /\ in_unit_interval theta_hat /\
    (exists v v_hat,
       vLL_complete_sparse_bernoulli_undirected_nocovariate
         (toy_Y 1) (toy_R 1) toy_Z1 toy_theta1 toy_pi1 = Ok v /\
       vLL_complete_sparse_bernoulli_undirected_nocovariate
         (toy_Y 1) (toy_R 1) toy_Z1 theta_hat toy_pi1 = Ok v_hat /\
       v <= v_hat) /\
    (exists v v_hat,
       vLL_complete_sparse_bernoulli_directed_nocovariate
         (toy_Y 1) (toy_R 1) toy_Z1 toy_theta1 toy_pi1 = Ok v /\
       vLL_complete_sparse_bernoulli_directed_nocovariate
         (toy_Y 1) (toy_R 1) toy_Z1 theta_hat toy_pi1 = Ok v_hat /\
       v <= v_hat).
Proof.
  apply (@M_step_maximises_likelihood 3 1).
  - split; reflexivity.
  - reflexivity.
  - split; reflexivity.
  - reflexivity.
  - repeat split; reflexivity.
  - repeat split; reflexivity.
  - reflexivity.
  - intros q l Hq Hl. simpl in Hq, Hl.
    assert (q = 0%nat) by lia. assert (l = 0%nat) by lia. subst.
    unfold elem. simpl. lra.
  - repeat constructor; lra.
  - exact toy_blocks_single_cluster.
Defined.
